(** * Walker: production-dependency walker and pruner (src/Walker.ts)

    A shallow embedding of the [Walker] class and proofs about it.

    Modelling conventions.
    - A path is an absolute, normalised POSIX path, kept as the list of its
      segments below "/": ["/app/node_modules/a"] is
      [["app"; "node_modules"; "a"]] and "/" is [[]].  Two path strings built
      by [path.resolve] are equal exactly when their segment lists are.
    - The file system is a finite tree; [fs-extra] calls become lookups in
      it and [fs.remove] rebuilds it.
    - [async] functions run sequentially; an uncaught exception aborts every
      caller, which is the [Err] case of [result].
    - Loops and recursion whose termination is not structural take a [fuel]
      argument; [None] means that the fuel ran out, never a program result. *)

From Stdlib Require Import Ascii.
From stdpp Require Import base option strings relations sets list.

#[local] Set Warnings "-register-all".

Open Scope string_scope.
Open Scope list_scope.
Open Scope nat_scope.

(** ** Paths ([path] module of Node, POSIX flavour) *)

Abbreviation path := (list string).

(** [path.dirname]: the parent directory; the parent of "/" is "/". *)
Definition dirname (p : path) : path := removelast p.

(** [path.basename]: the last segment; [""] for "/". *)
Definition basename (p : path) : string := List.last p "".

(** Splitting a string at every "/" (always at least one piece). *)
Fixpoint split_slash (s : string) : list string :=
  match s with
  | EmptyString => [EmptyString]
  | String c r =>
      if Ascii.eqb c "/"%char then EmptyString :: split_slash r
      else match split_slash r with
           | [] => [String c EmptyString]
           | h :: t => String c h :: t
           end
  end.

(** Normalisation as [path.resolve] does it: empty and "." segments are
    dropped, ".." removes the last segment (and stays at "/"). *)
Fixpoint push_segments (p : path) (segs : list string) : path :=
  match segs with
  | [] => p
  | s :: r =>
      if decide (s = "" ∨ s = ".") then push_segments p r
      else if decide (s = "..") then push_segments (dirname p) r
      else push_segments (p ++ [s]) r
  end.

Definition is_absolute (s : string) : bool :=
  match s with
  | String c _ => Ascii.eqb c "/"%char
  | EmptyString => false
  end.

(** [path.resolve(base, arg)] for an absolute [base]: an absolute argument
    replaces the base, a relative one is appended and normalised. *)
Definition resolve (base : path) (arg : string) : path :=
  push_segments (if is_absolute arg then [] else base) (split_slash arg).

(** The string a path stands for, as [indexOf] sees it. *)
Fixpoint render_segments (p : path) : string :=
  match p with
  | [] => ""
  | s :: r => "/" +:+ s +:+ render_segments r
  end.

Definition render (p : path) : string :=
  match p with
  | [] => "/"
  | _ => render_segments p
  end.

(** ** Package descriptors *)

(** A parsed [package.json]: for each of the three maps, the keys in the
    order [for ... in] enumerates them (version ranges are never read). *)
Record PackageJSON := {
  dependencies : list string;
  devDependencies : list string;
  optionalDependencies : list string
}.

(** ** The file system *)

(** What [fs.readJson] makes of a file: a parse error, a falsy JSON value
    ([null], [false], [0], [""]) or a value whose maps are as given. *)
Inductive content :=
  | NotJson
  | JsonFalsy
  | JsonObject (pJ : PackageJSON).

Inductive node :=
  | File (c : content)
  | Dir (entries : list (string * node)).

(** The entry called [name] of a directory listing. *)
Fixpoint entry (name : string) (es : list (string * node)) : option node :=
  match es with
  | [] => None
  | (k, n) :: r => if decide (k = name) then Some n else entry name r
  end.

(** The node at path [p] of the tree [fs] (whose top is "/"). *)
Fixpoint lookup (p : path) (fs : node) : option node :=
  match p with
  | [] => Some fs
  | s :: r =>
      match fs with
      | Dir es => entry s es ≫= lookup r
      | File _ => None
      end
  end.

(** [fs.pathExists] / [fs.existsSync]. *)
Definition pathExists (fs : node) (p : path) : bool :=
  bool_decide (is_Some (lookup p fs)).

(** What [fs.stat] tells about a path: nothing when it does not exist. *)
Inductive kind :=
  | IsFile (c : content)
  | IsDirectory.

Definition kind_of (n : node) : kind :=
  match n with
  | File c => IsFile c
  | Dir _ => IsDirectory
  end.

Definition stat (fs : node) (p : path) : option kind :=
  kind_of <$> lookup p fs.

Definition isDirectory (k : kind) : bool :=
  match k with
  | IsDirectory => true
  | IsFile _ => false
  end.

(** [fs.remove]: deletes the path with everything beneath it; a missing
    path is no error.  (Removing "/" itself is never asked for here and
    leaves the tree as it is.)  The tree has no permissions and no devices:
    a rejection of [fs.remove] is outside the model, so that what is proved
    of a run of [pruneModule] that returns is proved of the runs in which no
    deletion was rejected. *)
Fixpoint remove (p : path) (fs : node) : node :=
  match p with
  | [] => fs
  | s :: r =>
      match fs with
      | File _ => fs
      | Dir es =>
          match r with
          | [] => Dir (filter (λ e, e.1 ≠ s) es)
          | _ :: _ =>
              Dir (map (λ e, if decide (e.1 = s)
                             then (e.1, remove r e.2) else e) es)
          end
      end
  end.

(** ** Results *)

Inductive error :=
  | ResolutionError (moduleName : string) (modulePath : path)
  | JsonError (file : path)
  | FsError (p : path).

Inductive result (A : Type) :=
  | Ok (a : A)
  | Err (e : error).
Arguments Ok {A} a.
Arguments Err {A} e.

(** A computation: [None] is "out of fuel". *)
Abbreviation M A := (option (result A)).

(** [for (const x of l) await body(x)] over a threaded state. *)
Fixpoint for_each {A S : Type} (body : A → S → M S) (l : list A) (s : S) : M S :=
  match l with
  | [] => Some (Ok s)
  | x :: r =>
      match body x s with
      | Some (Ok s') => for_each body r s'
      | other => other
      end
  end.

(** [fs.readdir]: the entry names of a directory; throws on a path that is
    not a directory.  A rejection for another cause (permissions, input and
    output) is outside the model. *)
Definition readdir (fs : node) (p : path) : result (list string) :=
  match lookup p fs with
  | Some (Dir es) => Ok es.*1
  | _ => Err (FsError p)
  end.

(** ** The walker *)

(** A JavaScript [Set] of path strings, in insertion order. *)
Definition set_has (p : path) (s : list path) : bool := bool_decide (p ∈ s).

Definition set_add (p : path) (s : list path) : list path :=
  if decide (p ∈ s) then s else s ++ [p].

(** The mutable part of a [Walker]: the field [prodPaths], and a log that the
    source does not keep, [expanded]: one entry for each time line 66 runs,
    with the module path that got past the guard of
    [loadProductionDependenciesForModule] and the [allowMissing] it was
    called with.  The log is only written, never read. *)
Record Walker := {
  prodPaths : list path;
  expanded : list (path * bool)
}.

Definition record_module (modulePath : path) (allowMissing : bool)
    (w : Walker) : Walker :=
  {| prodPaths := set_add modulePath (prodPaths w);
     expanded := expanded w ++ [(modulePath, allowMissing)] |}.

Definition relativeModule (rootPath : path) (moduleName : string) : path :=
  resolve (resolve rootPath "node_modules") moduleName.

(** [loadPackageJSON]: [Ok None] is the [null] of a missing descriptor (or
    a falsy one, which line 70 treats alike); a file that does not parse, or
    a directory in its place, makes [readJson] throw. *)
Definition loadPackageJSON (fs : node) (modulePath : path)
  : result (option PackageJSON) :=
  let pJPath := resolve modulePath "package.json" in
  if pathExists fs pJPath then
    match lookup pJPath fs with
    | Some (File (JsonObject pJ)) => Ok (Some pJ)
    | Some (File JsonFalsy) => Ok None
    | _ => Err (JsonError pJPath)
    end
  else Ok None.

(** *** The ancestor search (lines 32-46) *)

Record search_state := {
  testPath : path;
  discoveredPath : option path;
  lastRelative : option path
}.

Definition search_init (modulePath : path) : search_state :=
  {| testPath := modulePath; discoveredPath := None; lastRelative := None |}.

(** The [while] condition of line 36. *)
Definition search_guard (moduleName : string) (st : search_state) : bool :=
  negb (bool_decide (is_Some (discoveredPath st)))
  && negb (bool_decide (Some (relativeModule (testPath st) moduleName)
                        = lastRelative st)).

(** Lines 41-44: where the search looks next. *)
Definition ascend (testPath : path) : path :=
  let testPath :=
    if decide (basename (dirname testPath) ≠ "node_modules")
    then dirname testPath else testPath in
  dirname (dirname testPath).

(** The loop body, lines 37-45. *)
Definition search_body (fs : node) (moduleName : string) (st : search_state)
  : search_state :=
  let lastRelative := relativeModule (testPath st) moduleName in
  if pathExists fs lastRelative then
    {| testPath := testPath st;
       discoveredPath := Some lastRelative;
       lastRelative := Some lastRelative |}
  else
    {| testPath := ascend (testPath st);
       discoveredPath := discoveredPath st;
       lastRelative := Some lastRelative |}.

Fixpoint search_loop (fuel : nat) (fs : node) (moduleName : string)
    (st : search_state) : option search_state :=
  match fuel with
  | 0 => None
  | S fuel =>
      if search_guard moduleName st
      then search_loop fuel fs moduleName (search_body fs moduleName st)
      else Some st
  end.

(** Fuel that the search never uses up (see [search_loop_total]). *)
Definition search_fuel (modulePath : path) : nat := S (S (length modulePath)).

Definition search (fs : node) (moduleName : string) (modulePath : path)
  : option search_state :=
  search_loop (search_fuel modulePath) fs moduleName (search_init modulePath).

(** *** Building the production set (lines 31-96) *)

(** [loadProductionDependenciesForModuleInModule]; [forModule] is the
    function it calls back at line 57. *)
Definition loadProductionDependenciesForModuleInModule
    (forModule : path → bool → Walker → M Walker) (fs : node)
    (moduleName : string) (modulePath : path) (allowMissing : bool)
    (w : Walker) : M Walker :=
  match search fs moduleName modulePath with
  | None => None
  | Some st =>
      match discoveredPath st with
      | None =>
          if negb allowMissing
          then Some (Err (ResolutionError moduleName modulePath))
          else Some (Ok w)
      | Some discovered => forModule discovered allowMissing w
      end
  end.

Fixpoint loadProductionDependenciesForModule (fuel : nat) (fs : node)
    (modulePath : path) (allowMissing : bool) (w : Walker) : M Walker :=
  match fuel with
  | 0 => None
  | S fuel =>
      if set_has modulePath (prodPaths w) then Some (Ok w)
      else
        let w := record_module modulePath allowMissing w in
        match loadPackageJSON fs modulePath with
        | Err e => Some (Err e)
        | Ok None => Some (Ok w)
        | Ok (Some pJ) =>
            let inModule :=
              loadProductionDependenciesForModuleInModule
                (loadProductionDependenciesForModule fuel fs) fs in
            match for_each (λ moduleName, inModule moduleName modulePath allowMissing)
                    (dependencies pJ) w with
            | Some (Ok w) =>
                for_each (λ moduleName, inModule moduleName modulePath true)
                  (optionalDependencies pJ) w
            | other => other
            end
        end
  end.

Definition new_walker : Walker := {| prodPaths := []; expanded := [] |}.

Definition loadProductionDependencies (fuel : nat) (fs : node)
    (rootModule : path) : M Walker :=
  loadProductionDependenciesForModule fuel fs rootModule false new_walker.

(** *** Pruning (lines 98-120) *)

(** [subModuleName.startsWith('@')] *)
Definition scoped (name : string) : bool :=
  match name with
  | String c _ => Ascii.eqb c "@"%char
  | EmptyString => false
  end.

(** [pruneModule]; the state threaded through is the file system.  A name
    that [readdir] returns is one path segment, so resolving it against the
    directory appends it. *)
Fixpoint pruneModule (fuel : nat) (prod : list path) (modulePath : path)
    (fs : node) : M node :=
  match fuel with
  | 0 => None
  | S fuel =>
      if set_has modulePath prod then
        let nodeModulesPath := resolve modulePath "node_modules" in
        if negb (pathExists fs nodeModulesPath) then Some (Ok fs)
        else
          match readdir fs nodeModulesPath with
          | Err e => Some (Err e)
          | Ok names =>
              for_each (λ subModuleName fs,
                if scoped subModuleName then
                  match readdir fs (nodeModulesPath ++ [subModuleName]) with
                  | Err e => Some (Err e)
                  | Ok subs =>
                      for_each (λ subScopedModuleName,
                        pruneModule fuel prod
                          (nodeModulesPath ++ [subModuleName; subScopedModuleName]))
                        subs fs
                  end
                else pruneModule fuel prod (nodeModulesPath ++ [subModuleName]) fs)
                names fs
          end
      else Some (Ok (remove modulePath fs))
  end.

(** [prune]: the production set is built on the file system as it is, then
    the tree is pruned.  The result is the set and the new file system. *)
Definition prune (fuel : nat) (fs : node) (rootModule : path)
  : M (list path * node) :=
  match loadProductionDependencies fuel fs rootModule with
  | None => None
  | Some (Err e) => Some (Err e)
  | Some (Ok w) =>
      match pruneModule fuel (prodPaths w) rootModule fs with
      | None => None
      | Some (Err e) => Some (Err e)
      | Some (Ok fs') => Some (Ok (prodPaths w, fs'))
      end
  end.

(** *** The copy filter (lines 122-140) *)

(** [getNearestModuleDirectory]: [statSync] throws on a path that does not
    exist. *)
Fixpoint getNearestModuleDirectory (fuel : nat) (fs : node) (tPath : path)
  : M path :=
  match fuel with
  | 0 => None
  | S fuel =>
      match stat fs tPath with
      | None => Some (Err (FsError tPath))
      | Some k =>
          if negb (isDirectory k)
             || negb (pathExists fs (resolve tPath "package.json"))
          then getNearestModuleDirectory fuel fs (dirname tPath)
          else Some (Ok tPath)
      end
  end.

(** The function that [getFsCopyIgnoreFunction] returns, with the values
    its closure captured ([prodPaths], [nmPath]) as arguments; it reads the
    file system of the moment it is called. *)
Definition ignoreFunction (prodPaths : list path) (nmPath : path)
    (fuel : nat) (fs : node) (tPath : path) : M bool :=
  match getNearestModuleDirectory fuel fs tPath with
  | None => None
  | Some (Err e) => Some (Err e)
  | Some (Ok dirPath) =>
      if String.prefix (render nmPath) (render tPath)
      then Some (Ok (negb (set_has dirPath prodPaths)))
      else Some (Ok false)
  end.

(** [getFsCopyIgnoreFunction]: builds the set, then returns the closure. *)
Definition getFsCopyIgnoreFunction (fuel : nat) (fs : node) (rootModule : path)
  : M (nat → node → path → M bool) :=
  match loadProductionDependencies fuel fs rootModule with
  | None => None
  | Some (Err e) => Some (Err e)
  | Some (Ok w) =>
      Some (Ok (ignoreFunction (prodPaths w) (resolve rootModule "node_modules")))
  end.

(** ** Notions that the statements below use *)

(** The ascent step in the words of the specification (section 4.2, step
    2): move [D] to its own parent; unless the parent's parent is itself an
    installed-packages directory, move up one further level; in all cases
    then move up one additional level. *)
Definition spec_ascend (D : path) : path :=
  let parent := dirname D in
  let D := if decide (basename (dirname parent) = "node_modules")
           then parent else dirname parent in
  dirname D.

(** The states that the search loop for [moduleName], started at
    [modulePath], goes through. *)
Inductive search_reachable (fs : node) (moduleName : string) (modulePath : path)
  : search_state → Prop :=
  | reach_init : search_reachable fs moduleName modulePath (search_init modulePath)
  | reach_step st :
      search_reachable fs moduleName modulePath st →
      search_guard moduleName st = true →
      search_reachable fs moduleName modulePath (search_body fs moduleName st).

(** [resolves_to fs name X Y]: the search for [name] from module [X] ends
    with [Y] discovered. *)
Definition resolves_to (fs : node) (name : string) (X Y : path) : Prop :=
  ∃ st, search fs name X = Some st ∧ discoveredPath st = Some Y.

(** Dependency edges between module directories: [X]'s descriptor lists a
    name, under the given map, that resolves to [Y]. *)
Definition edge_by (keys : PackageJSON → list string) (fs : node) (X Y : path)
  : Prop :=
  ∃ pJ name, loadPackageJSON fs X = Ok (Some pJ)
             ∧ name ∈ keys pJ ∧ resolves_to fs name X Y.

Definition required_edge : node → path → path → Prop := edge_by dependencies.
Definition optional_edge : node → path → path → Prop := edge_by optionalDependencies.

Definition production_edge (fs : node) (X Y : path) : Prop :=
  required_edge fs X Y ∨ optional_edge fs X Y.


(** What one pass of the loops of lines 73-89 amounts to, given a relation
    [R] that describes the calls back to
    [loadProductionDependenciesForModule]: [in_module_rel] is one call of
    [loadProductionDependenciesForModuleInModule], [loop_rel] a whole
    [for ... in] loop, which stops at the first exception. *)
Definition in_module_rel (R : path → bool → Walker → result Walker → Prop)
    (fs : node) (modulePath : path) (allowMissing : bool) (moduleName : string)
    (w : Walker) (r : result Walker) : Prop :=
  ∃ st, search fs moduleName modulePath = Some st
        ∧ match discoveredPath st with
          | None => r = if allowMissing then Ok w
                        else Err (ResolutionError moduleName modulePath)
          | Some discovered => R discovered allowMissing w r
          end.

Fixpoint loop_rel {A S : Type} (step : A → S → result S → Prop)
    (l : list A) (s : S) (r : result S) : Prop :=
  match l with
  | [] => r = Ok s
  | x :: l =>
      ∃ r1, step x s r1
            ∧ match r1 with
              | Ok s1 => loop_rel step l s1 r
              | Err e => r = Err e
              end
  end.


(** [grows w w']: [w'] is [w] after some more runs of line 66, each for a
    path that was not yet in the set. *)
Definition grows (w w' : Walker) : Prop :=
  ∃ l : list (path * bool),
    expanded w' = expanded w ++ l
    ∧ prodPaths w' = prodPaths w ++ l.*1
    ∧ NoDup l.*1
    ∧ ∀ p, p ∈ l.*1 → p ∉ prodPaths w.

(** Every path of the tree, "/" first. *)
Fixpoint all_paths (fs : node) : list path :=
  [] :: match fs with
        | File _ => []
        | Dir es => flat_map (λ '(k, n), map (cons k) (all_paths n)) es
        end.

(** The number of paths of [universe] not yet in the set. *)
Definition fresh (universe : list path) (w : Walker) : nat :=
  length (filter (λ p, p ∉ prodPaths w) universe).

(** Fuel that [loadProductionDependencies] never uses up. *)
Definition build_fuel (fs : node) : nat := S (S (length (all_paths fs))).


(** The same file system with other [devDependencies]: the descriptor at
    path [p] gets the keys [f p] there. *)
Definition with_dev (dev : list string) (pJ : PackageJSON) : PackageJSON :=
  {| dependencies := dependencies pJ;
     devDependencies := dev;
     optionalDependencies := optionalDependencies pJ |}.

Fixpoint override_dev (f : path → list string) (here : path) (fs : node) : node :=
  match fs with
  | File (JsonObject pJ) => File (JsonObject (with_dev (f here) pJ))
  | File c => File c
  | Dir es => Dir (map (λ '(k, n), (k, override_dev f (here ++ [k]) n)) es)
  end.

(** *** File systems to run the model on *)

Definition descriptor (deps devs opts : list string) : node :=
  File (JsonObject {| dependencies := deps;
                      devDependencies := devs;
                      optionalDependencies := opts |}).

(** The first scenario of section 8 of the specification: "/app" depends
    on "a" and, for development, on "b". *)
Definition scenario_fs : node :=
  Dir [("app", Dir [
    ("package.json", descriptor ["a"] ["b"] []);
    ("node_modules", Dir [
      ("a", Dir [("package.json", descriptor [] [] [])]);
      ("b", Dir [("package.json", descriptor [] [] [])])])])].

(** A cycle and a diamond: "a" and "b" depend on each other and both on
    "c"; "/app" depends on both. *)
Definition cycle_fs : node :=
  Dir [("app", Dir [
    ("package.json", descriptor ["a"; "b"] [] []);
    ("node_modules", Dir [
      ("a", Dir [("package.json", descriptor ["b"; "c"] [] [])]);
      ("b", Dir [("package.json", descriptor ["a"; "c"] [] [])]);
      ("c", Dir [("package.json", descriptor [] [] [])])])])].


(** [all_resolve fs Y]: every key of the [dependencies] map of the
    descriptor of [Y] resolves from [Y]. *)
Definition all_resolve (fs : node) (Y : path) : Prop :=
  ∀ pJ name, loadPackageJSON fs Y = Ok (Some pJ) → name ∈ dependencies pJ →
             ∃ d, resolves_to fs name Y d.

(** "/app" depends optionally on "c", "c" requires "d", "d" requires "e",
    and "e" is installed nowhere. *)
Definition optional_fs : node :=
  Dir [("app", Dir [
    ("package.json", descriptor [] [] ["c"]);
    ("node_modules", Dir [
      ("c", Dir [("package.json", descriptor ["d"] [] [])]);
      ("d", Dir [("package.json", descriptor ["e"] [] [])])])])].

(** "/app" requires "z"; "z" requires "c" and then "m", installed nowhere;
    "c" depends optionally on "b", and "b" requires "z": when the optional
    edge leads back to "z", "z" is in the set already. *)
Definition strict_first_fs : node :=
  Dir [("app", Dir [
    ("package.json", descriptor ["z"] [] []);
    ("node_modules", Dir [
      ("z", Dir [("package.json", descriptor ["c"; "m"] [] [])]);
      ("c", Dir [("package.json", descriptor [] [] ["b"])]);
      ("b", Dir [("package.json", descriptor ["z"] [] [])])])])].

(** "/app" requires "a", and "a" requires "e", installed nowhere. *)
Definition broken_fs : node :=
  Dir [("app", Dir [
    ("package.json", descriptor ["a"] [] []);
    ("node_modules", Dir [
      ("a", Dir [("package.json", descriptor ["e"] [] [])])])])].


(** [is_module_dir fs q]: [q] is a directory that contains a descriptor
    file -- the test that ends the loop of [getNearestModuleDirectory]. *)
Definition is_module_dir (fs : node) (q : path) : bool :=
  match stat fs q with
  | Some k => isDirectory k && pathExists fs (resolve q "package.json")
  | None => false
  end.

(** [nearest_module fs P m]: [m] is the nearest ancestor of [P], [P] itself
    included, that is a directory containing a descriptor file. *)
Definition nearest_module (fs : node) (P m : path) : Prop :=
  m `prefix_of` P ∧ is_module_dir fs m = true
  ∧ ∀ q, q `prefix_of` P → is_module_dir fs q = true → q `prefix_of` m.

(** What the copy filter asks the file system about a path. *)
Definition probe (fs : node) (q : path) : option bool * bool :=
  (isDirectory <$> stat fs q, pathExists fs (resolve q "package.json")).

(** "/app" with a production dependency "a", and next to "node_modules" a
    directory "node_modules_old" holding a package "x". *)
Definition sibling_fs : node :=
  Dir [("app", Dir [
    ("package.json", descriptor ["a"] [] []);
    ("node_modules", Dir [
      ("a", Dir [("package.json", descriptor [] [] []);
                 ("index.js", File NotJson)])]);
    ("node_modules_old", Dir [
      ("x", Dir [("package.json", descriptor [] [] []);
                 ("index.js", File NotJson)])])]);
       ("tmp", Dir [("notes.txt", File NotJson)])].

(** [scenario_fs] after the descriptor of "b" was deleted. *)
Definition scenario_fs_later : node :=
  remove ["app"; "node_modules"; "b"; "package.json"] scenario_fs.


(** *** Notions for pruning *)

(** [module_below q p]: [p] is where a package sits directly in the
    "node_modules" of [q], as [pruneModule] walks it: one level down for a
    name without "@", two for a scope directory and a name in it. *)
Inductive module_below (q : path) : path → Prop :=
  | below_unscoped name :
      scoped name = false → module_below q (q ++ ["node_modules"; name])
  | below_scoped scope name :
      scoped scope = true → module_below q (q ++ ["node_modules"; scope; name]).

(** [installed fs rootModule p]: [p] exists and is an installed module
    directory in the "node_modules" tree of the root ([p] is not the root
    itself). *)
Inductive installed (fs : node) (rootModule : path) : path → Prop :=
  | installed_direct p :
      module_below rootModule p → is_Some (stat fs p) → installed fs rootModule p
  | installed_nested q p :
      installed fs rootModule q → module_below q p → is_Some (stat fs p) →
      installed fs rootModule p.

(** [kept prod rootModule p]: [p] is the root or a module directory below
    it, and [p] and all the module directories that enclose it, the root
    included, are in [prod]. *)
Inductive kept (prod : list path) (rootModule : path) : path → Prop :=
  | kept_root : rootModule ∈ prod → kept prod rootModule rootModule
  | kept_below q p :
      kept prod rootModule q → module_below q p → p ∈ prod →
      kept prod rootModule p.

(** [outside rootModule p]: [p] is not at or below an entry of the
    "node_modules" of the root. *)
Definition outside (rootModule p : path) : Prop :=
  ∀ e, ¬ (rootModule ++ ["node_modules"; e]) `prefix_of` p.

(** [shrinks fs fs']: [fs'] is [fs] with some paths deleted. *)
Definition shrinks (fs fs' : node) : Prop :=
  ∀ p, stat fs' p = None ∨ stat fs' p = stat fs p.

(** What a call [pruneModule(M)] that returns has done, from [fs] to [fs']. *)
Record pruned (prod : list path) (M : path) (fs fs' : node) : Prop := {
  pruned_shrinks : shrinks fs fs';
  pruned_frame : ∀ p, ¬ M `prefix_of` p → stat fs' p = stat fs p;
  pruned_gone : M ∉ prod → ∀ p, M `prefix_of` p → stat fs' p = None;
  pruned_clean : ∀ p, installed fs' M p → p ∈ prod;
  pruned_removed : ∀ fs0 p, shrinks fs0 fs → installed fs0 M p → p ∉ prod →
                            stat fs' p = None;
  pruned_kept : ∀ p, kept prod M p → stat fs' p = stat fs p;
  pruned_outside : M ∈ prod → ∀ p, outside M p → stat fs' p = stat fs p
}.

(** One round of the loop of line 103, given what the calls back to
    [pruneModule] do. *)
Definition prune_entry_rel (rec : path → node → result node → Prop)
    (nodeModulesPath : path) (subModuleName : string) (fs : node)
    (r : result node) : Prop :=
  if scoped subModuleName then
    match readdir fs (nodeModulesPath ++ [subModuleName]) with
    | Err e => r = Err e
    | Ok subs =>
        loop_rel (λ sub, rec (nodeModulesPath ++ [subModuleName; sub])) subs fs r
    end
  else rec (nodeModulesPath ++ [subModuleName]) fs r.

(** "/app" lists the dependency "b/lib", a path into the package "b". *)
Definition subpath_fs : node :=
  Dir [("app", Dir [
    ("package.json", descriptor ["b/lib"] [] []);
    ("node_modules", Dir [
      ("b", Dir [("package.json", descriptor [] [] []);
                 ("lib", Dir [("index.js", File NotJson)])])])])].


(** [changes_below d fs fs']: [fs'] is [fs] with some paths below [d]
    deleted. *)
Definition changes_below (d : path) (fs fs' : node) : Prop :=
  shrinks fs fs' ∧ ∀ p, ¬ d `prefix_of` p → stat fs' p = stat fs p.

(** What is known of a call back to [pruneModule] that returns. *)
Definition prune_rec (prod : list path) (c : path) (fs : node)
    (r : result node) : Prop :=
  ∀ fs', r = Ok fs' → pruned prod c fs fs'.


(** The length of the longest path of the tree. *)
Definition depth (fs : node) : nat := max_list (length <$> all_paths fs).

(** Fuel that [prune] never uses up. *)
Definition prune_fuel (fs : node) : nat := build_fuel fs + depth fs.


(** *** Package names *)

(** [segment_ok s]: [s] may be the name part of a package name. *)
Definition segment_ok (s : string) : bool :=
  negb (bool_decide (s ∈ [""; "."; ".."; "node_modules"])).

(** [package_name n]: [n] is a plain name (one segment, not starting with
    "@") or a scoped name (a scope starting with "@", a "/" and a name). *)
Definition package_name (n : string) : bool :=
  match split_slash n with
  | [a] => segment_ok a && negb (scoped a)
  | [s; a] => scoped s && segment_ok a
  | _ => false
  end.

(** The segments of a package name, as [split_slash] gives them. *)
Definition name_segments (segs : list string) : Prop :=
  (∃ a, segs = [a] ∧ scoped a = false ∧ a ≠ "node_modules")
  ∨ (∃ s a, segs = [s; a] ∧ scoped s = true ∧ a ≠ "node_modules").

Definition names_ok (pJ : PackageJSON) : bool :=
  forallb package_name (dependencies pJ ++ optionalDependencies pJ).

(** [descriptors_ok fs]: in every descriptor of the tree, the keys of
    [dependencies] and [optionalDependencies] are package names. *)
Definition descriptors_ok (fs : node) : bool :=
  forallb (λ X, match loadPackageJSON fs X with
                | Ok (Some pJ) => names_ok pJ
                | _ => true
                end) (all_paths fs).

(** [above rootModule T]: [T] is a proper ancestor of the root. *)
Definition above (rootModule T : path) : Prop :=
  T `prefix_of` rootModule ∧ T ≠ rootModule.

(** [anchored prod rootModule T]: where the search can stand when all names
    are package names: at a kept module directory, above the root, or at a
    member found from such a place that is outside the "node_modules" of the
    root. *)
Inductive anchored (prod : list path) (rootModule : path) : path → Prop :=
  | anchored_kept T : kept prod rootModule T → anchored prod rootModule T
  | anchored_above T : above rootModule T → anchored prod rootModule T
  | anchored_outside T' name T :
      anchored prod rootModule T' → package_name name = true →
      T = relativeModule T' name → T ∈ prod → outside rootModule T →
      anchored prod rootModule T.

(** *** Notions for the further properties *)

(** What the build uses of a descriptor: the keys of [dependencies] and
    of [optionalDependencies], or the exception of reading it. *)
Definition production_keys (r : result (option PackageJSON))
  : result (option (list string * list string)) :=
  match r with
  | Ok (Some pJ) => Ok (Some (dependencies pJ, optionalDependencies pJ))
  | Ok None => Ok None
  | Err e => Err e
  end.


(** The [k]-th candidate that the search for [moduleName] from
    [modulePath] can probe: [moduleName] in the "node_modules" of the [k]-th
    ascent of [modulePath]. *)
Definition candidate (moduleName : string) (modulePath : path) (k : nat) : path :=
  relativeModule (Nat.iter k ascend modulePath) moduleName.

(** The state in which the loop tests its condition for the [k]-th time
    when nothing was discovered before. *)
Definition search_at (moduleName : string) (modulePath : path) (k : nat)
  : search_state :=
  {| testPath := Nat.iter k ascend modulePath;
     discoveredPath := None;
     lastRelative := match k with
                     | 0 => None
                     | S j => Some (candidate moduleName modulePath j)
                     end |}.

(** The state in which the loop ends when the [m]-th candidate exists. *)
Definition search_found (moduleName : string) (modulePath : path) (m : nat)
  : search_state :=
  {| testPath := Nat.iter m ascend modulePath;
     discoveredPath := Some (candidate moduleName modulePath m);
     lastRelative := Some (candidate moduleName modulePath m) |}.

(** [search_tests fs n X m]: the loop gets to probe the [m]-th candidate:
    none of the earlier ones exists, and each of those after the first
    differed from the one before it. *)
Definition search_tests (fs : node) (moduleName : string) (modulePath : path)
    (m : nat) : Prop :=
  (∀ j, j < m → pathExists fs (candidate moduleName modulePath j) = false)
  ∧ (∀ j, j < m → candidate moduleName modulePath (S j)
                  ≠ candidate moduleName modulePath j).

(** [search_ends fs n X st]: how the loop of lines 36-46 ends in [st]:
    with the first candidate that exists, or -- none existing so far --
    with nothing at the first candidate that equals the one before it. *)
Definition search_ends (fs : node) (moduleName : string) (modulePath : path)
    (st : search_state) : Prop :=
  ∃ m, search_tests fs moduleName modulePath m
    ∧ ((pathExists fs (candidate moduleName modulePath m) = true
        ∧ st = search_found moduleName modulePath m)
       ∨ (pathExists fs (candidate moduleName modulePath m) = false
          ∧ candidate moduleName modulePath (S m)
            = candidate moduleName modulePath m
          ∧ st = search_at moduleName modulePath (S m))).

(** [settled fs S Z]: the descriptor of [Z] could be read, and every module
    that a key of its [dependencies] or [optionalDependencies] resolves to
    is in [S]. *)
Definition settled (fs : node) (S : list path) (Z : path) : Prop :=
  (∀ e, loadPackageJSON fs Z ≠ Err e)
  ∧ ∀ Y, production_edge fs Z Y → Y ∈ S.

(** [grows_settled fs w w']: the set grew from [w] to [w'], and what was
    added is settled in [w']. *)
Definition grows_settled (fs : node) (w w' : Walker) : Prop :=
  grows w w'
  ∧ ∀ Z, Z ∈ prodPaths w' → Z ∈ prodPaths w ∨ settled fs (prodPaths w') Z.

(** "/app" requires "a", whose descriptor does not parse. *)
Definition unreadable_fs : node :=
  Dir [("app", Dir [
    ("package.json", descriptor ["a"] [] []);
    ("node_modules", Dir [
      ("a", Dir [("package.json", File NotJson)])])])].

(** [pruned_away prod rootModule p]: [p] is at or below a module directory
    that is not in [prod] and sits directly in the "node_modules" of a kept
    module directory. *)
Definition pruned_away (prod : list path) (rootModule p : path) : Prop :=
  ∃ q N, kept prod rootModule q ∧ module_below q N ∧ (N ∉ prod)
         ∧ N `prefix_of` p.

(** [dir_or_absent fs p]: [p] is a directory, or is not there. *)
Definition dir_or_absent (fs : node) (p : path) : Prop :=
  stat fs p = None ∨ stat fs p = Some IsDirectory.

(** [walkable prod M fs]: [pruneModule] can list the "node_modules" of
    every kept module directory, and every scope directory in it. *)
Definition walkable (prod : list path) (M : path) (fs : node) : Prop :=
  ∀ q, kept prod M q →
    dir_or_absent fs (q ++ ["node_modules"])
    ∧ ∀ e, scoped e = true → dir_or_absent fs ((q ++ ["node_modules"]) ++ [e]).

(** [file_in_the_way prod M fs]: the "node_modules" of a kept module
    directory, or a scope entry of it, is a file. *)
Definition file_in_the_way (prod : list path) (M : path) (fs : node) : Prop :=
  ∃ q d c, kept prod M q
    ∧ (d = q ++ ["node_modules"]
       ∨ ∃ s, scoped s = true ∧ d = (q ++ ["node_modules"]) ++ [s])
    ∧ stat fs d = Some (IsFile c).

(** "/app" with a file called "@types" in its "node_modules". *)
Definition scope_file_fs : node :=
  Dir [("app", Dir [
    ("package.json", descriptor [] [] []);
    ("node_modules", Dir [("@types", File NotJson)])])].

(** "/app" requires "a"; next to "a" is what an interrupted install left of
    "b": a directory without descriptor. *)
Definition dead_install_fs : node :=
  Dir [("app", Dir [
    ("package.json", descriptor ["a"] [] []);
    ("node_modules", Dir [
      ("a", Dir [("package.json", descriptor [] [] [])]);
      ("b", Dir [("index.js", File NotJson)])])])].

(** "/app" requires "a", and "a" has a directory "esm" with a descriptor
    of its own. *)
Definition inner_descriptor_fs : node :=
  Dir [("app", Dir [
    ("package.json", descriptor ["a"] [] []);
    ("node_modules", Dir [
      ("a", Dir [("package.json", descriptor [] [] []);
                 ("esm", Dir [("package.json", descriptor [] [] []);
                              ("index.js", File NotJson)])])])])].

(** ** The revision of lines 142-249

    The file holds a second revision of the class, without the copy filter;
    it is called the earlier one here.  Besides the text of the error of
    line 187, it differs from the first in two places: the ascent of the
    search (line 182) and [pruneModule], which does not descend into scope
    directories (lines 232-243). *)

Module Earlier.

(** Line 182: where the search looks next. *)
Definition ascend (testPath : path) : path := dirname (dirname testPath).

(** The loop body, lines 178-183. *)
Definition search_body (fs : node) (moduleName : string) (st : search_state)
  : search_state :=
  let lastRelative := relativeModule (testPath st) moduleName in
  if pathExists fs lastRelative then
    {| testPath := testPath st;
       discoveredPath := Some lastRelative;
       lastRelative := Some lastRelative |}
  else
    {| testPath := ascend (testPath st);
       discoveredPath := discoveredPath st;
       lastRelative := Some lastRelative |}.

Fixpoint search_loop (fuel : nat) (fs : node) (moduleName : string)
    (st : search_state) : option search_state :=
  match fuel with
  | 0 => None
  | S fuel =>
      if search_guard moduleName st
      then search_loop fuel fs moduleName (search_body fs moduleName st)
      else Some st
  end.

Definition search (fs : node) (moduleName : string) (modulePath : path)
  : option search_state :=
  search_loop (search_fuel modulePath) fs moduleName (search_init modulePath).

(** [pruneModule], lines 232-243. *)
Fixpoint pruneModule (fuel : nat) (prod : list path) (modulePath : path)
    (fs : node) : M node :=
  match fuel with
  | 0 => None
  | S fuel =>
      if set_has modulePath prod then
        let nodeModulesPath := resolve modulePath "node_modules" in
        if negb (pathExists fs nodeModulesPath) then Some (Ok fs)
        else
          match readdir fs nodeModulesPath with
          | Err e => Some (Err e)
          | Ok names =>
              for_each (λ subModuleName,
                pruneModule fuel prod (nodeModulesPath ++ [subModuleName]))
                names fs
          end
      else Some (Ok (remove modulePath fs))
  end.

End Earlier.

(** The scoped package "@s/a" requires "b", installed next to the scope
    directory. *)
Definition scoped_sibling_fs : node :=
  Dir [("app", Dir [
    ("package.json", descriptor ["@s/a"] [] []);
    ("node_modules", Dir [
      ("@s", Dir [("a", Dir [("package.json", descriptor ["b"] [] [])])]);
      ("b", Dir [("package.json", descriptor [] [] [])])])])].

(** [through_optional fs X Z]: [Z] is reachable from [X] along a chain of
    edges one of which is a key of an [optionalDependencies] map. *)
Definition through_optional (fs : node) (X Z : path) : Prop :=
  ∃ Y Y', rtc (production_edge fs) X Y ∧ optional_edge fs Y Y'
          ∧ rtc (production_edge fs) Y' Z.

(** How a call for [X] with [allow] can have expanded [Z] with [a]. *)
Definition expanded_from (fs : node) (X : path) (allow : bool) (Z : path)
    (a : bool) : Prop :=
  (a = allow ∧ rtc (required_edge fs) X Z)
  ∨ (a = true ∧ through_optional fs X Z).

(** * Proofs *)

(** ** Paths *)

Lemma dirname_snoc (p : path) (s : string) : dirname (p ++ [s]) = p.
Proof. apply removelast_last. Qed.

Lemma basename_snoc (p : path) (s : string) : basename (p ++ [s]) = s.
Proof. apply last_last. Qed.

Lemma dirname_length (p : path) : length (dirname p) = length p - 1.
Proof.
  destruct p as [|s p] using rev_ind; [done|].
  rewrite dirname_snoc, length_app. simpl. lia.
Qed.

Lemma dirname_prefix (p : path) : dirname p `prefix_of` p.
Proof.
  destruct p as [|s p] using rev_ind; [done|].
  rewrite dirname_snoc. by apply prefix_app_r.
Qed.

Lemma resolve_node_modules (p : path) :
  resolve p "node_modules" = p ++ ["node_modules"].
Proof. reflexivity. Qed.

Lemma resolve_package_json (p : path) :
  resolve p "package.json" = p ++ ["package.json"].
Proof. reflexivity. Qed.

Lemma ascend_cases (D : path) :
  ascend D = if decide (basename (dirname D) = "node_modules")
             then dirname (dirname D)
             else dirname (dirname (dirname D)).
Proof. unfold ascend. repeat case_decide; done. Qed.

Lemma ascend_length (D : path) : D ≠ [] → length (ascend D) < length D.
Proof.
  intros HD. rewrite ascend_cases.
  assert (0 < length D) by (destruct D; [done | simpl; lia]).
  case_decide; rewrite !dirname_length; lia.
Qed.

Lemma ascend_prefix (D : path) : ascend D `prefix_of` D.
Proof.
  rewrite ascend_cases.
  case_decide; repeat (etrans; [apply dirname_prefix|]); done.
Qed.

(** ** The ancestor search *)

Section search.
Context (fs : node) (moduleName : string).

Lemma search_loop_stop fuel st :
  search_guard moduleName st = false →
  search_loop (S fuel) fs moduleName st = Some st.
Proof. intros H. simpl. by rewrite H. Qed.

Lemma search_guard_discovered st :
  is_Some (discoveredPath st) → search_guard moduleName st = false.
Proof.
  intros H. unfold search_guard. by rewrite (bool_decide_eq_true_2 _ H).
Qed.

Lemma search_guard_same st :
  Some (relativeModule (testPath st) moduleName) = lastRelative st →
  search_guard moduleName st = false.
Proof.
  intros H. unfold search_guard.
  rewrite (bool_decide_eq_true_2 _ H). apply andb_false_r.
Qed.

(** The loop exits within [length testPath + 2] tests of its condition. *)
Lemma search_loop_total fuel st :
  length (testPath st) + 2 ≤ fuel →
  is_Some (search_loop fuel fs moduleName st).
Proof.
  revert st. induction fuel as [|fuel IH]; intros st Hfuel; [lia|].
  simpl. destruct (search_guard moduleName st) eqn:Hg; [|by eexists].
  unfold search_body.
  destruct (pathExists fs (relativeModule (testPath st) moduleName)).
  - destruct fuel as [|fuel]; [lia|].
    rewrite search_loop_stop; [by eexists|].
    by apply search_guard_discovered.
  - destruct (decide (testPath st = [])) as [Hnil|Hne].
    + destruct fuel as [|fuel]; [lia|].
      rewrite search_loop_stop; [by eexists|].
      apply search_guard_same. simpl. by rewrite Hnil.
    + apply IH. simpl. pose proof (ascend_length _ Hne). lia.
Qed.

Lemma search_total modulePath : is_Some (search fs moduleName modulePath).
Proof.
  apply search_loop_total. unfold search_fuel. simpl. lia.
Qed.

(** A discovered path is the candidate just tried, and [testPath] has
    not moved since. *)
Lemma search_reachable_discovered modulePath st d :
  search_reachable fs moduleName modulePath st →
  discoveredPath st = Some d →
  lastRelative st = Some d
  ∧ d = relativeModule (testPath st) moduleName
  ∧ pathExists fs d = true.
Proof.
  induction 1 as [|st Hst IH Hg]; [done|].
  unfold search_body.
  destruct (pathExists fs (relativeModule (testPath st) moduleName)) eqn:Hex;
    simpl; intros Hd.
  - by simplify_eq.
  - unfold search_guard in Hg. rewrite Hd in Hg.
    by rewrite bool_decide_eq_true_2 in Hg by (by eexists).
Qed.

Lemma search_loop_reachable modulePath fuel st st' :
  search_reachable fs moduleName modulePath st →
  search_loop fuel fs moduleName st = Some st' →
  search_reachable fs moduleName modulePath st'
  ∧ search_guard moduleName st' = false.
Proof.
  revert st. induction fuel as [|fuel IH]; intros st Hst; [done|].
  simpl. destruct (search_guard moduleName st) eqn:Hg.
  - apply IH. by constructor.
  - intros; by simplify_eq.
Qed.

Lemma search_reachable_end modulePath st :
  search fs moduleName modulePath = Some st →
  search_reachable fs moduleName modulePath st
  ∧ search_guard moduleName st = false.
Proof. apply search_loop_reachable. constructor. Qed.

Lemma search_guard_iff modulePath st :
  search_reachable fs moduleName modulePath st →
  search_guard moduleName st = false
  ↔ Some (relativeModule (testPath st) moduleName) = lastRelative st.
Proof.
  intros Hst. split; [|apply search_guard_same].
  unfold search_guard. intros Hg.
  apply andb_false_iff in Hg as [Hg|Hg].
  - apply negb_false_iff, bool_decide_eq_true_1 in Hg as [d Hd].
    destruct (search_reachable_discovered _ _ _ Hst Hd) as (-> & -> & _).
    done.
  - by apply negb_false_iff, bool_decide_eq_true_1 in Hg.
Qed.

End search.

(** ** Loops *)

Lemma for_each_loop_rel {A S : Type} (body : A → S → M S)
    (step : A → S → result S → Prop) (l : list A) :
  (∀ x s r, x ∈ l → body x s = Some r → step x s r) →
  ∀ s r, for_each body l s = Some r → loop_rel step l s r.
Proof.
  induction l as [|x l IH]; intros Hbody s r; simpl.
  - by intros [= <-].
  - destruct (body x s) as [[s1|e]|] eqn:Hx; [| |done].
    + intros Hr. exists (Ok s1). split; [apply Hbody; [left|done]|].
      apply IH; [|done]. intros ????. apply Hbody. by right.
    + intros [= <-]. exists (Err e). split; [|done].
      apply Hbody; [left|done].
Qed.

Lemma for_each_ext {A S : Type} (body1 body2 : A → S → M S) (l : list A) (s : S) :
  (∀ x s, x ∈ l → body1 x s = body2 x s) →
  for_each body1 l s = for_each body2 l s.
Proof.
  revert s. induction l as [|x l IH]; intros s Hext; simpl; [done|].
  rewrite <-Hext by left.
  destruct (body1 x s) as [[s1|e]|]; [|done..].
  apply IH. intros ???. apply Hext. by right.
Qed.

(** A loop whose steps all keep a transitive relation to the state they
    started from keeps it as a whole. *)
Lemma loop_rel_ok_inv {A S : Type} (step : A → S → result S → Prop)
    (Q : S → S → Prop) (l : list A) :
  (∀ s, Q s s) → (∀ s1 s2 s3, Q s1 s2 → Q s2 s3 → Q s1 s3) →
  (∀ x s s', x ∈ l → step x s (Ok s') → Q s s') →
  ∀ s s', loop_rel step l s (Ok s') → Q s s'.
Proof.
  intros Hrefl Htrans. induction l as [|x l IH]; intros Hstep s s'; simpl.
  - by intros [= <-].
  - intros ([s1|e] & Hx & Hl); [|done].
    eapply Htrans; [apply (Hstep x); [left|done]|].
    apply IH; [|done]. intros y ???. apply (Hstep y). by right.
Qed.

(** ** The traversal, as a proof rule *)

Section rule.
Context (fs : node) (R : path → bool → Walker → result Walker → Prop).

Hypothesis R_known : ∀ X allow w,
  X ∈ prodPaths w → R X allow w (Ok w).
Hypothesis R_json_error : ∀ X allow w e,
  X ∉ prodPaths w → loadPackageJSON fs X = Err e → R X allow w (Err e).
Hypothesis R_leaf : ∀ X allow w,
  X ∉ prodPaths w → loadPackageJSON fs X = Ok None →
  R X allow w (Ok (record_module X allow w)).
Hypothesis R_node : ∀ X allow w pJ r1 r,
  X ∉ prodPaths w → loadPackageJSON fs X = Ok (Some pJ) →
  loop_rel (in_module_rel R fs X allow) (dependencies pJ)
    (record_module X allow w) r1 →
  match r1 with
  | Ok w1 => loop_rel (in_module_rel R fs X true) (optionalDependencies pJ) w1 r
  | Err e => r = Err e
  end →
  R X allow w r.

Lemma forModule_rule fuel X allow w r :
  loadProductionDependenciesForModule fuel fs X allow w = Some r →
  R X allow w r.
Proof using All.
  revert X allow w r. induction fuel as [|fuel IH]; intros X allow w r; [done|].
  simpl. unfold set_has. case_bool_decide as HX.
  { intros [= <-]. by apply R_known. }
  destruct (loadPackageJSON fs X) as [[pJ|]|e] eqn:HpJ.
  - assert (Hstep : ∀ allow' name w' r',
      loadProductionDependenciesForModuleInModule
        (loadProductionDependenciesForModule fuel fs) fs name X allow' w'
        = Some r' →
      in_module_rel R fs X allow' name w' r').
    { intros allow' name w' r'.
      unfold loadProductionDependenciesForModuleInModule, in_module_rel.
      destruct (search fs name X) as [st|]; [|done].
      intros Hr. exists st. split; [done|].
      destruct (discoveredPath st) as [d|].
      - by apply IH.
      - destruct allow'; by simplify_eq/=. }
    destruct (for_each _ (dependencies pJ) _) as [[w1|e]|] eqn:Hdeps; [| |done].
    + intros Hopt. eapply R_node; [done..| |].
      * apply (for_each_loop_rel _ _ _ (λ x s r _, Hstep allow x s r) _ _ Hdeps).
      * apply (for_each_loop_rel _ _ _ (λ x s r _, Hstep true x s r) _ _ Hopt).
    + intros [= <-]. eapply R_node; [done..| |].
      * apply (for_each_loop_rel _ _ _ (λ x s r _, Hstep allow x s r) _ _ Hdeps).
      * done.
  - intros [= <-]. by apply R_leaf.
  - intros [= <-]. by apply R_json_error.
Qed.
End rule.

Lemma loop_rel_err {A S : Type} (step : A → S → result S → Prop)
    (l : list A) (s : S) (e : error) :
  loop_rel step l s (Err e) → ∃ x si, x ∈ l ∧ step x si (Err e).
Proof.
  revert s. induction l as [|x l IH]; intros s; simpl; [done|].
  intros ([s1|e1] & Hx & Hl).
  - destruct (IH _ Hl) as (y & si & ? & ?). exists y, si. split; [by right|done].
  - simplify_eq. exists x, s. split; [by left|done].
Qed.

Lemma loop_rel_all_ok {A S : Type} (step : A → S → result S → Prop)
    (l : list A) (s s' : S) :
  loop_rel step l s (Ok s') → ∀ x, x ∈ l → ∃ si si', step x si (Ok si').
Proof.
  revert s. induction l as [|x l IH]; intros s; simpl.
  - intros _ y Hy. by apply elem_of_nil in Hy.
  - intros ([s1|e1] & Hx & Hl) y Hy; [|done].
    apply elem_of_cons in Hy as [->|Hy]; [by exists s, s1|by eapply IH].
Qed.

(** A loop whose body always returns, and keeps [I], returns. *)
Lemma for_each_total {A S : Type} (body : A → S → M S) (I : S → Prop)
    (l : list A) :
  (∀ x s, x ∈ l → I s → ∃ r, body x s = Some r ∧ ∀ s', r = Ok s' → I s') →
  ∀ s, I s → ∃ r, for_each body l s = Some r ∧ ∀ s', r = Ok s' → I s'.
Proof.
  induction l as [|x l IH]; intros Hbody s Hs; simpl.
  - exists (Ok s). split; [done|]. by intros ? [= <-].
  - destruct (Hbody x s) as ([s1|e] & -> & Hr); [by left|done| |].
    + apply IH; [|by apply Hr]. intros y ? ? ?. apply Hbody; [by right|done].
    + exists (Err e). by split.
Qed.

(** ** The production set only grows *)

Lemma grows_refl w : grows w w.
Proof.
  exists []. rewrite !app_nil_r. split_and!; [done|done|constructor|].
  intros p Hp. by apply elem_of_nil in Hp.
Qed.

Lemma grows_trans w1 w2 w3 : grows w1 w2 → grows w2 w3 → grows w1 w3.
Proof.
  intros (l1 & He1 & Hp1 & Hnd1 & Hf1) (l2 & He2 & Hp2 & Hnd2 & Hf2).
  exists (l1 ++ l2). rewrite He2, He1, Hp2, Hp1, fmap_app, !app_assoc.
  split_and!; [done|done| |].
  - apply NoDup_app. split_and!; [done| |done].
    intros p Hp1' Hp2'. apply (Hf2 p Hp2'). rewrite Hp1.
    apply elem_of_app. by right.
  - intros p [Hp|Hp]%elem_of_app; [by apply Hf1|].
    intros Hw. apply (Hf2 p Hp). rewrite Hp1. apply elem_of_app. by left.
Qed.

Lemma grows_record X allow w :
  X ∉ prodPaths w → grows w (record_module X allow w).
Proof.
  intros HX. exists [(X, allow)]. unfold record_module, set_add. simpl.
  rewrite decide_False by done. split_and!; [done|done|apply NoDup_singleton|].
  by intros p ->%list_elem_of_singleton.
Qed.

Lemma grows_subseteq w w' : grows w w' → prodPaths w ⊆ prodPaths w'.
Proof. intros (l & _ & -> & _) p Hp. apply elem_of_app. by left. Qed.

Lemma record_module_elem X allow w : X ∈ prodPaths (record_module X allow w).
Proof.
  unfold record_module, set_add. simpl.
  case_decide; [done|]. apply elem_of_app. right. by left.
Qed.

Lemma in_module_rel_ok_inv (Q : Walker → Walker → Prop)
    (R : path → bool → Walker → result Walker → Prop) fs X allow name w w' :
  (∀ w, Q w w) →
  (∀ d w w', resolves_to fs name X d → R d allow w (Ok w') → Q w w') →
  in_module_rel R fs X allow name w (Ok w') → Q w w'.
Proof.
  intros Hrefl HR (st & Hst & Hd).
  destruct (discoveredPath st) as [d|] eqn:Hdisc.
  - eapply HR; [by exists st|done].
  - destruct allow; by simplify_eq.
Qed.

Lemma forModule_grows fs fuel X allow w w' :
  loadProductionDependenciesForModule fuel fs X allow w = Some (Ok w') →
  grows w w' ∧ X ∈ prodPaths w'.
Proof.
  set (R := λ (X : path) (allow : bool) w r,
              ∀ w', r = Ok w' → grows w w' ∧ X ∈ prodPaths w').
  intros H. revert w' H.
  cut (∀ r, loadProductionDependenciesForModule fuel fs X allow w = Some r →
            R X allow w r).
  { intros Hr w' H. by apply (Hr _ H). }
  revert fuel X allow w. apply (forModule_rule fs R); unfold R; clear.
  - intros X allow w HX w' [= <-]. split; [apply grows_refl|done].
  - done.
  - intros X allow w HX _ w' [= <-].
    split; [by apply grows_record|apply record_module_elem].
  - intros X allow w pJ r1 r HX _ H1 H2 w' ->.
    assert (Hloop : ∀ allow' names wa wb,
      loop_rel (in_module_rel (λ X allow w r,
           ∀ w', r = Ok w' → grows w w' ∧ X ∈ prodPaths w') fs X allow')
        names wa (Ok wb) → grows wa wb).
    { intros allow' names wa wb.
      apply loop_rel_ok_inv; [apply grows_refl|apply grows_trans|].
      intros name s s' _.
      apply in_module_rel_ok_inv; [apply grows_refl|].
      intros d wc wd _ HR. by apply HR. }
    destruct r1 as [w1|e]; [|done].
    apply Hloop in H1, H2.
    assert (grows (record_module X allow w) w') by by eapply grows_trans.
    split.
    + eapply grows_trans; [by apply grows_record|done].
    + eapply grows_subseteq; [done|apply record_module_elem].
Qed.



(** ** Termination of the traversal *)

Lemma entry_Some_elem name es n : entry name es = Some n → (name, n) ∈ es.
Proof.
  induction es as [|[k m] es IH]; simpl; [done|].
  case_decide; intros; simplify_eq; [left|right; auto].
Qed.

Lemma entry_is_Some name es : is_Some (entry name es) ↔ name ∈ es.*1.
Proof.
  induction es as [|[k m] es IH]; simpl.
  - split; [by intros [??]|by intros ?%elem_of_nil].
  - rewrite elem_of_cons. case_decide; simplify_eq.
    + split; [by left|by eexists].
    + rewrite IH. split; [by right|]. by intros [?|?].
Qed.

Lemma all_paths_lookup p fs : is_Some (lookup p fs) → p ∈ all_paths fs.
Proof.
  revert fs. induction p as [|s p IH]; intros fs.
  - intros _. destruct fs; left.
  - simpl. destruct fs as [c|es]; [by intros [??]|].
    destruct (entry s es) as [n|] eqn:Hs; [|by intros [??]].
    simpl. intros Hp. right.
    apply list_elem_of_In, in_flat_map. exists (s, n).
    split; [by apply list_elem_of_In, entry_Some_elem|].
    apply in_map, list_elem_of_In. by apply IH.
Qed.

Lemma all_paths_exists fs p : pathExists fs p = true → p ∈ all_paths fs.
Proof. intros H%bool_decide_eq_true_1. by apply all_paths_lookup. Qed.

Lemma fresh_mono U w w' :
  prodPaths w ⊆ prodPaths w' → fresh U w' ≤ fresh U w.
Proof.
  intros Hsub. unfold fresh.
  induction U as [|p U IH]; [done|].
  rewrite !filter_cons. repeat case_decide; simpl; try lia.
  exfalso. auto.
Qed.

Lemma fresh_lt U w w' X :
  prodPaths w ⊆ prodPaths w' → X ∈ U → X ∉ prodPaths w → X ∈ prodPaths w' →
  fresh U w' < fresh U w.
Proof.
  intros Hsub HU Hw Hw'. unfold fresh.
  induction U as [|p U IH]; [by apply elem_of_nil in HU|].
  pose proof (fresh_mono U w w' Hsub) as Hle. unfold fresh in Hle.
  rewrite !filter_cons.
  apply elem_of_cons in HU as [<-|HU].
  - rewrite decide_False by auto. rewrite decide_True by done. simpl. lia.
  - specialize (IH HU). repeat case_decide; simpl; try lia. exfalso. auto.
Qed.

Lemma forModule_total fs U fuel X allow w :
  (∀ p, pathExists fs p = true → p ∈ U) →
  X ∈ U → fresh U w < fuel →
  is_Some (loadProductionDependenciesForModule fuel fs X allow w).
Proof.
  intros HU. revert X allow w.
  induction fuel as [|fuel IH]; intros X allow w HX Hfuel; [lia|].
  simpl. unfold set_has. case_bool_decide as Hmem; [by eexists|].
  destruct (loadPackageJSON fs X) as [[pJ|]|e]; [|by eexists..].
  set (w1 := record_module X allow w).
  assert (Hw1 : fresh U w1 < fuel).
  { assert (fresh U w1 < fresh U w); [|lia].
    apply (fresh_lt _ _ _ X); [|done|done|apply record_module_elem].
    by apply grows_subseteq, grows_record. }
  assert (Hbody : ∀ allow' (names : list string) name s,
    name ∈ names → grows w1 s →
    ∃ r, loadProductionDependenciesForModuleInModule
           (loadProductionDependenciesForModule fuel fs) fs name X allow' s = Some r
         ∧ ∀ s', r = Ok s' → grows w1 s').
  { intros allow' names name s _ Hs.
    unfold loadProductionDependenciesForModuleInModule.
    destruct (search_total fs name X) as [st Hst]. rewrite Hst.
    destruct (discoveredPath st) as [d|] eqn:Hd.
    - apply search_reachable_end in Hst as [Hst _].
      destruct (search_reachable_discovered _ _ _ _ _ Hst Hd) as (_ & _ & Hex).
      destruct (IH d allow' s) as [r Hr].
      { by apply HU. }
      { pose proof (fresh_mono U _ _ (grows_subseteq _ _ Hs)). lia. }
      exists r. split; [done|]. intros s' ->.
      apply forModule_grows in Hr as [Hr _]. by eapply grows_trans.
    - destruct allow'; simpl; eexists; (split; [done|]); by intros ? [= <-]. }
  destruct (for_each_total
              (λ moduleName, loadProductionDependenciesForModuleInModule
                 (loadProductionDependenciesForModule fuel fs) fs moduleName X allow)
              (grows w1) (dependencies pJ)
              (λ x s, Hbody allow (dependencies pJ) x s) w1 (grows_refl _))
    as ([w2|e] & -> & Hw2); [|by eexists].
  destruct (for_each_total
              (λ moduleName, loadProductionDependenciesForModuleInModule
                 (loadProductionDependenciesForModule fuel fs) fs moduleName X true)
              (grows w1) (optionalDependencies pJ)
              (λ x s, Hbody true (optionalDependencies pJ) x s) w2 (Hw2 _ eq_refl))
    as (r & -> & _).
  by eexists.
Qed.

Lemma fresh_new_walker U : fresh U new_walker = length U.
Proof.
  unfold fresh. simpl. induction U as [|p U IH]; [done|].
  rewrite filter_cons, decide_True by apply not_elem_of_nil. simpl. by rewrite IH.
Qed.

Lemma loadProductionDependencies_total fs rootModule fuel :
  build_fuel fs ≤ fuel →
  is_Some (loadProductionDependencies fuel fs rootModule).
Proof.
  intros Hfuel. unfold loadProductionDependencies.
  apply (forModule_total fs (rootModule :: all_paths fs)).
  - intros p Hp. right. by apply all_paths_exists.
  - left.
  - rewrite fresh_new_walker. unfold build_fuel in Hfuel. simpl. lia.
Qed.

Lemma grows_new_walker w :
  grows new_walker w →
  NoDup (expanded w).*1 ∧ NoDup (prodPaths w) ∧ (expanded w).*1 = prodPaths w.
Proof. intros (l & -> & -> & Hnd & _). simpl. done. Qed.

(** The cycle a <-> b with the diamond on c: each of the four modules is
    expanded once. *)
Example cycle_fs_production_set :
  loadProductionDependencies (build_fuel cycle_fs) cycle_fs ["app"]
  = Some (Ok {| prodPaths := [["app"];
                              ["app"; "node_modules"; "a"];
                              ["app"; "node_modules"; "b"];
                              ["app"; "node_modules"; "c"]];
                expanded := [(["app"], false);
                             (["app"; "node_modules"; "a"], false);
                             (["app"; "node_modules"; "b"], false);
                             (["app"; "node_modules"; "c"], false)] |}).
Proof. vm_compute. reflexivity. Qed.

Lemma root_is_member_aux fuel fs rootModule w :
  loadProductionDependencies fuel fs rootModule = Some (Ok w) →
  rootModule ∈ prodPaths w ∧ grows new_walker w.
Proof. intros H. by apply forModule_grows in H as [? ?]. Qed.

(** C2: whenever [loadProductionDependencies] returns a set, the root
    module path is in it; for a root without descriptor file (or with a
    falsy one) the set is the root alone. *)
Theorem root_is_member (fuel : nat) (fs : node) (rootModule : path) (w : Walker) :
  loadProductionDependencies fuel fs rootModule = Some (Ok w) →
  rootModule ∈ prodPaths w
  ∧ (loadPackageJSON fs rootModule = Ok None → prodPaths w = [rootModule]).
Proof.
  intros H. split.
  - by apply forModule_grows in H as [_ H].
  - intros HpJ. destruct fuel as [|fuel]; [done|].
    unfold loadProductionDependencies in H. simpl in H.
    rewrite HpJ in H. by simplify_eq.
Qed.

Lemma root_is_member_witness :
  loadProductionDependencies 3 scenario_fs ["app"]
  = Some (Ok {| prodPaths := [["app"]; ["app"; "node_modules"; "a"]];
                expanded := [(["app"], false);
                             (["app"; "node_modules"; "a"], false)] |})
  ∧ ["app"] ∈ [["app"]; ["app"; "node_modules"; "a"]].
Proof.
  assert (H : loadProductionDependencies 3 scenario_fs ["app"]
    = Some (Ok {| prodPaths := [["app"]; ["app"; "node_modules"; "a"]];
                  expanded := [(["app"], false);
                               (["app"; "node_modules"; "a"], false)] |}))
    by (vm_compute; reflexivity).
  split; [exact H|].
  exact (proj1 (root_is_member 3 scenario_fs ["app"] _ H)).
Defined.

(** A root without descriptor: the build succeeds with the root alone. *)
Lemma root_without_descriptor (fuel : nat) (fs : node) (rootModule : path) :
  pathExists fs (resolve rootModule "package.json") = false →
  loadProductionDependencies (S fuel) fs rootModule
  = Some (Ok {| prodPaths := [rootModule]; expanded := [(rootModule, false)] |}).
Proof.
  intros H. unfold loadProductionDependencies. simpl.
  unfold loadPackageJSON. by rewrite H.
Qed.

(** ** Reachability of the members *)

Lemma elem_of_set_add (p q : path) (s : list path) :
  p ∈ set_add q s ↔ p = q ∨ p ∈ s.
Proof.
  unfold set_add. case_decide.
  - split; [by right|]. by intros [->|?].
  - rewrite elem_of_app, list_elem_of_singleton. tauto.
Qed.

Lemma forModule_reachable fs rootModule fuel X allow w w' :
  loadProductionDependenciesForModule fuel fs X allow w = Some (Ok w') →
  rtc (production_edge fs) rootModule X →
  (∀ m, m ∈ prodPaths w → rtc (production_edge fs) rootModule m) →
  ∀ m, m ∈ prodPaths w' → rtc (production_edge fs) rootModule m.
Proof.
  set (Reach := rtc (production_edge fs) rootModule).
  set (Q := λ w w' : Walker,
              (∀ m, m ∈ prodPaths w → Reach m) → ∀ m, m ∈ prodPaths w' → Reach m).
  set (R := λ (X : path) (allow : bool) w r,
              ∀ w', r = Ok w' → Reach X → Q w w').
  intros H. revert w' H.
  cut (∀ r, loadProductionDependenciesForModule fuel fs X allow w = Some r →
            R X allow w r).
  { intros Hr w' H. by apply (Hr _ H). }
  revert fuel X allow w. apply (forModule_rule fs R); unfold R, Q; clear R Q.
  - by intros X allow w HX w' [= <-].
  - done.
  - intros X allow w HX _ w' [= <-] HreachX Hw m.
    simpl. rewrite elem_of_set_add. intros [->|?]; auto.
  - intros X allow w pJ r1 r HX HpJ H1 H2 w' -> HreachX Hw.
    assert (Hloop : ∀ allow' keys wa wb,
      (∀ name, name ∈ keys → ∀ d, resolves_to fs name X d → production_edge fs X d) →
      loop_rel (in_module_rel (λ X allow w r, ∀ w', r = Ok w' → Reach X →
           (∀ m, m ∈ prodPaths w → Reach m) → ∀ m, m ∈ prodPaths w' → Reach m)
           fs X allow') keys wa (Ok wb) →
      (∀ m, m ∈ prodPaths wa → Reach m) → ∀ m, m ∈ prodPaths wb → Reach m).
    { intros allow' keys wa wb Hedge.
      apply (loop_rel_ok_inv _ (λ wa wb,
        (∀ m, m ∈ prodPaths wa → Reach m) → ∀ m, m ∈ prodPaths wb → Reach m));
        [done|by auto|].
      intros name s s' Hname.
      apply (in_module_rel_ok_inv (λ wa wb,
        (∀ m, m ∈ prodPaths wa → Reach m) → ∀ m, m ∈ prodPaths wb → Reach m));
        [done|].
      intros d wc wd Hd HR. apply HR; [done|].
      eapply rtc_r; [exact HreachX|]. by eapply Hedge. }
    destruct r1 as [w1|e]; [|done].
    eapply Hloop; [|exact H2|].
    { intros name Hname d Hd. right. by exists pJ, name. }
    eapply Hloop; [|exact H1|].
    { intros name Hname d Hd. left. by exists pJ, name. }
    intros m. simpl. rewrite elem_of_set_add. intros [->|?]; auto.
Qed.

(** ** [devDependencies] are not read *)

Lemma entry_override f here s es :
  entry s (map (λ '(k, n), (k, override_dev f (here ++ [k]) n)) es)
  = override_dev f (here ++ [s]) <$> entry s es.
Proof.
  induction es as [|[k n] es IH]; simpl; [done|].
  case_decide; by simplify_eq.
Qed.

Lemma lookup_override f here p fs :
  lookup p (override_dev f here fs) = override_dev f (here ++ p) <$> lookup p fs.
Proof.
  revert here fs. induction p as [|s p IH]; intros here fs; simpl.
  - by rewrite app_nil_r.
  - destruct fs as [c|es]; simpl.
    + by destruct c.
    + rewrite entry_override. destruct (entry s es) as [n|]; simpl; [|done].
      by rewrite IH, <-app_assoc.
Qed.

Lemma pathExists_override f fs p :
  pathExists (override_dev f [] fs) p = pathExists fs p.
Proof.
  unfold pathExists. rewrite lookup_override.
  apply bool_decide_ext. by rewrite fmap_is_Some.
Qed.

Lemma search_loop_override f fuel fs name st :
  search_loop fuel (override_dev f [] fs) name st = search_loop fuel fs name st.
Proof.
  revert st. induction fuel as [|fuel IH]; intros st; simpl; [done|].
  destruct (search_guard name st); [|done].
  rewrite IH. unfold search_body. by rewrite pathExists_override.
Qed.

Lemma loadPackageJSON_override f fs X :
  loadPackageJSON (override_dev f [] fs) X
  = match loadPackageJSON fs X with
    | Ok (Some pJ) => Ok (Some (with_dev (f (resolve X "package.json")) pJ))
    | other => other
    end.
Proof.
  unfold loadPackageJSON. rewrite pathExists_override, lookup_override.
  destruct (pathExists fs _); [|done].
  destruct (lookup _ fs) as [[[| |pJ]|es]|]; done.
Qed.

Lemma forModule_override f fuel fs X allow w :
  loadProductionDependenciesForModule fuel (override_dev f [] fs) X allow w
  = loadProductionDependenciesForModule fuel fs X allow w.
Proof.
  revert X allow w. induction fuel as [|fuel IH]; intros X allow w; simpl; [done|].
  destruct (set_has X (prodPaths w)); [done|].
  rewrite loadPackageJSON_override.
  destruct (loadPackageJSON fs X) as [[pJ|]|e]; [|done..]. simpl.
  assert (Hbody : ∀ allow' name w',
    loadProductionDependenciesForModuleInModule
      (loadProductionDependenciesForModule fuel (override_dev f [] fs))
      (override_dev f [] fs) name X allow' w'
    = loadProductionDependenciesForModuleInModule
        (loadProductionDependenciesForModule fuel fs) fs name X allow' w').
  { intros allow' name w'. unfold loadProductionDependenciesForModuleInModule, search.
    rewrite search_loop_override.
    destruct (search_loop _ fs name _) as [st|]; [|done].
    by destruct (discoveredPath st). }
  rewrite (for_each_ext _ _ (dependencies pJ) _ (λ x s _, Hbody allow x s)).
  destruct (for_each _ (dependencies pJ) _) as [[w1|e]|]; [|done..].
  apply for_each_ext. intros x s _. apply Hbody.
Qed.

(** C3: every member of the production set other than the root is at the
    end of a chain of edges from the root, each edge a key of the
    [dependencies] or [optionalDependencies] map of a member's descriptor,
    resolved from that member; and the build is the same whatever the
    [devDependencies] maps of the descriptors hold. *)
Theorem members_reachable_dev_unread (fuel : nat) (fs : node)
    (rootModule : path) (w : Walker) :
  loadProductionDependencies fuel fs rootModule = Some (Ok w) →
  (∀ M, M ∈ prodPaths w → M ≠ rootModule →
     tc (production_edge fs) rootModule M)
  ∧ (∀ f, loadProductionDependencies fuel (override_dev f [] fs) rootModule
          = Some (Ok w)).
Proof.
  intros H. split.
  - intros M HM Hne.
    assert (Hr : rtc (production_edge fs) rootModule M).
    { eapply forModule_reachable; [exact H|done| |exact HM].
      intros m Hm. by apply elem_of_nil in Hm. }
    apply rtc_tc in Hr as [?|?]; [congruence|done].
  - intros f. unfold loadProductionDependencies. by rewrite forModule_override.
Qed.

Lemma members_reachable_dev_unread_witness :
  loadProductionDependencies 3 scenario_fs ["app"]
  = Some (Ok {| prodPaths := [["app"]; ["app"; "node_modules"; "a"]];
                expanded := [(["app"], false);
                             (["app"; "node_modules"; "a"], false)] |})
  ∧ tc (production_edge scenario_fs) ["app"] ["app"; "node_modules"; "a"]
  ∧ loadProductionDependencies 3
      (override_dev (λ _, ["left-pad"]) [] scenario_fs) ["app"]
    = Some (Ok {| prodPaths := [["app"]; ["app"; "node_modules"; "a"]];
                  expanded := [(["app"], false);
                               (["app"; "node_modules"; "a"], false)] |}).
Proof.
  assert (H : loadProductionDependencies 3 scenario_fs ["app"]
    = Some (Ok {| prodPaths := [["app"]; ["app"; "node_modules"; "a"]];
                  expanded := [(["app"], false);
                               (["app"; "node_modules"; "a"], false)] |}))
    by (vm_compute; reflexivity).
  destruct (members_reachable_dev_unread 3 scenario_fs ["app"] _ H)
    as [Hreach Hdev].
  split_and!; [exact H| |apply Hdev].
  apply Hreach; [|done]. right. left.
Defined.

(** ** Errors of the traversal *)

Lemma in_module_not_found forModule fs name X allow w st :
  search fs name X = Some st → discoveredPath st = None →
  loadProductionDependenciesForModuleInModule forModule fs name X allow w
  = if allow then Some (Ok w) else Some (Err (ResolutionError name X)).
Proof.
  intros Hst Hd. unfold loadProductionDependenciesForModuleInModule.
  rewrite Hst, Hd. by destruct allow.
Qed.

(** In a build that returned, every module expanded with
    [allowMissing = false] had all its [dependencies] resolved. *)
Lemma forModule_strict_resolved fs fuel X allow w w' :
  loadProductionDependenciesForModule fuel fs X allow w = Some (Ok w') →
  ∀ Y, (Y, false) ∈ expanded w' → (Y, false) ∈ expanded w ∨ all_resolve fs Y.
Proof.
  set (Q := λ w w' : Walker,
    ∀ Y, (Y, false) ∈ expanded w' → (Y, false) ∈ expanded w ∨ all_resolve fs Y).
  set (R := λ (X : path) (allow : bool) w r, ∀ w', r = Ok w' → Q w w').
  assert (Qrefl : ∀ w, Q w w) by (intros ???; by left).
  assert (Qtrans : ∀ w1 w2 w3, Q w1 w2 → Q w2 w3 → Q w1 w3).
  { intros w1 w2 w3 H12 H23 Y HY.
    destruct (H23 Y HY) as [?|?]; [by apply H12|by right]. }
  intros H. revert w' H.
  cut (∀ r, loadProductionDependenciesForModule fuel fs X allow w = Some r →
            R X allow w r).
  { intros Hr w' H. by apply (Hr _ H). }
  revert fuel X allow w. apply (forModule_rule fs R); unfold R.
  - intros X allow w HX w' [= <-]. apply Qrefl.
  - done.
  - intros X allow w HX HpJ w' [= <-] Y. simpl.
    rewrite elem_of_app, list_elem_of_singleton. intros [?|[= -> <-]]; [by left|].
    right. intros pJ name HpJ'. congruence.
  - intros X allow w pJ r1 r HX HpJ H1 H2 w' ->.
    assert (Hloop : ∀ allow' keys wa wb,
      loop_rel (in_module_rel (λ X allow w r, ∀ w', r = Ok w' → Q w w')
                  fs X allow') keys wa (Ok wb) → Q wa wb).
    { intros allow' keys wa wb.
      apply loop_rel_ok_inv; [done..|].
      intros name s s' _. apply in_module_rel_ok_inv; [done|].
      intros d wc wd _ HR. by apply HR. }
    destruct r1 as [w1|e]; [|done].
    pose proof (Hloop _ _ _ _ H1) as HQ1. pose proof (Hloop _ _ _ _ H2) as HQ2.
    intros Y HY. destruct (Qtrans _ _ _ HQ1 HQ2 Y HY) as [HY1|?]; [|by right].
    simpl in HY1.
    apply elem_of_app in HY1 as [?|[= -> <-]%list_elem_of_singleton]; [by left|].
    right. intros pJ' name HpJ' Hname.
    assert (pJ' = pJ) as -> by congruence.
    destruct (loop_rel_all_ok _ _ _ _ H1 name Hname) as (si & si' & st & Hst & Hd).
    destruct (discoveredPath st) as [d|] eqn:Hdisc; [|done].
    exists d. by exists st.
Qed.

(** A resolution error comes from a module that the failing call reached
    through [dependencies] edges only, and the call was not tolerant. *)
Lemma forModule_resolution_error fs fuel X allow w name p :
  loadProductionDependenciesForModule fuel fs X allow w
  = Some (Err (ResolutionError name p)) →
  allow = false
  ∧ rtc (required_edge fs) X p
  ∧ ∃ pJ st, loadPackageJSON fs p = Ok (Some pJ) ∧ name ∈ dependencies pJ
             ∧ search fs name p = Some st ∧ discoveredPath st = None.
Proof.
  set (R := λ (X : path) (allow : bool) (w : Walker) (r : result Walker),
    r = Err (ResolutionError name p) →
    allow = false
    ∧ rtc (required_edge fs) X p
    ∧ ∃ pJ st, loadPackageJSON fs p = Ok (Some pJ) ∧ name ∈ dependencies pJ
               ∧ search fs name p = Some st ∧ discoveredPath st = None).
  intros H.
  cut (∀ r, loadProductionDependenciesForModule fuel fs X allow w = Some r →
            R X allow w r).
  { intros Hr. by apply (Hr _ H). }
  clear H. revert fuel X allow w. apply (forModule_rule fs R); unfold R; clear R.
  - done.
  - intros X allow w e HX HpJ [= ->]. unfold loadPackageJSON in HpJ.
    destruct (pathExists fs _); [|done].
    by destruct (lookup _ fs) as [[[| |?]|?]|].
  - done.
  - intros X allow w pJ r1 r HX HpJ H1 H2 ->.
    destruct r1 as [w1|e1].
    + (* the error is from the optional loop: impossible *)
      apply loop_rel_err in H2 as (x & si & Hx & st & Hst & Hd).
      destruct (discoveredPath st) as [d|]; [|done].
      by destruct (Hd eq_refl) as [? _].
    + simplify_eq.
      apply loop_rel_err in H1 as (x & si & Hx & st & Hst & Hd).
      destruct (discoveredPath st) as [d|] eqn:Hdisc.
      * destruct (Hd eq_refl) as (-> & Hrtc & Hrest).
        split_and!; [done| |done].
        eapply rtc_l; [|exact Hrtc]. exists pJ, x. split_and!; [done..|].
        by exists st.
      * destruct allow; simplify_eq.
        split_and!; [done..|]. by exists pJ, st.
Qed.

(** The loop, from the state in which it tests its condition for the
    [k]-th time, nothing having been found. *)
Lemma search_loop_trace fs n X fuel k st' :
  (∀ j, j < k → pathExists fs (candidate n X j) = false) →
  (∀ j, S j < k → candidate n X (S j) ≠ candidate n X j) →
  search_loop fuel fs n (search_at n X k) = Some st' →
  search_ends fs n X st'.
Proof.
  revert k. induction fuel as [|fuel IH]; intros k Hnone Hdiff; [done|].
  simpl. unfold search_guard. simpl. fold (candidate n X k).
  case_bool_decide as Hlast; simpl.
  - (* the candidate is the previous one *)
    intros [= <-]. destruct k as [|k]; [done|].
    simpl in Hlast. injection Hlast as Hlast.
    exists k. split.
    + split; intros j Hj; [apply Hnone|apply Hdiff]; lia.
    + right. split_and!; [apply Hnone; lia|done..].
  - assert (Htests : search_tests fs n X k).
    { split; [done|]. intros j Hj.
      destruct (decide (S j = k)) as [<-|]; [|apply Hdiff; lia].
      intros Heq. apply Hlast. simpl. by rewrite Heq. }
    unfold search_body. simpl. fold (candidate n X k).
    destruct (pathExists fs (candidate n X k)) eqn:Hex.
    + destruct fuel as [|fuel]; [done|].
      rewrite search_loop_stop by (by apply search_guard_discovered; eexists).
      intros [= <-]. exists k. split; [done|]. by left.
    + intros Hloop. apply (IH (S k)); [| |exact Hloop].
      * intros j Hj. destruct (decide (j = k)) as [->|]; [done|].
        apply Hnone. lia.
      * intros j Hj. apply Htests. lia.
Qed.

(** C5: the search for a module name always ends, in a state that the loop
    reached and in which its condition is false; it ends either with the
    first candidate that exists on disk, or, no candidate having existed so
    far, with nothing at the first candidate that equals the one before
    it; in every state the loop reaches, its condition is false exactly
    when the candidate computed from [testPath] equals the previous one;
    and if it ends with nothing discovered, the call raises the error with
    the module name and the starting directory when [allowMissing] is
    false -- so that no build returns a set after expanding that module with
    [allowMissing = false] and that name among its [dependencies] -- and
    returns with the walker unchanged when [allowMissing] is true. *)
Theorem search_ends_missing_module_raises (fs : node) (moduleName : string)
    (modulePath : path) :
  ∃ st, search fs moduleName modulePath = Some st
    ∧ search_reachable fs moduleName modulePath st
    ∧ search_guard moduleName st = false
    ∧ search_ends fs moduleName modulePath st
    ∧ (∀ d, discoveredPath st = Some d → pathExists fs d = true)
    ∧ (discoveredPath st = None →
         pathExists fs (relativeModule modulePath moduleName) = false)
    ∧ (∀ st', search_reachable fs moduleName modulePath st' →
         search_guard moduleName st' = false
         ↔ Some (relativeModule (testPath st') moduleName) = lastRelative st')
    ∧ (discoveredPath st = None →
         (∀ forModule w,
            loadProductionDependenciesForModuleInModule
              forModule fs moduleName modulePath false w
            = Some (Err (ResolutionError moduleName modulePath)))
         ∧ (∀ forModule w,
              loadProductionDependenciesForModuleInModule
                forModule fs moduleName modulePath true w
              = Some (Ok w))
         ∧ (∀ fuel rootModule w pJ,
              loadProductionDependencies fuel fs rootModule = Some (Ok w) →
              (modulePath, false) ∈ expanded w →
              loadPackageJSON fs modulePath = Ok (Some pJ) →
              moduleName ∉ dependencies pJ)).
Proof.
  destruct (search_total fs moduleName modulePath) as [st Hst].
  pose proof (search_reachable_end _ _ _ _ Hst) as [Hreach Hguard].
  assert (Hends : search_ends fs moduleName modulePath st).
  { apply (search_loop_trace fs moduleName modulePath
             (search_fuel modulePath) 0 st); [intros; lia..|exact Hst]. }
  exists st. split_and!; [done..| | | |].
  - intros d Hd.
    by destruct (search_reachable_discovered _ _ _ _ _ Hreach Hd) as (_ & _ & ?).
  - intros Hd. destruct Hends as (m & [Hnone _] & [[_ ->]|(Hm & _ & _)]); [done|].
    destruct m as [|m]; [exact Hm|]. apply (Hnone 0). lia.
  - intros st'. apply search_guard_iff.
  - intros Hd. split_and!.
    + intros forModule w. by rewrite (in_module_not_found _ _ _ _ _ _ _ Hst Hd).
    + intros forModule w. by rewrite (in_module_not_found _ _ _ _ _ _ _ Hst Hd).
    + intros fuel rootModule w pJ Hbuild Hexp HpJ Hname.
      destruct (forModule_strict_resolved _ _ _ _ _ _ Hbuild _ Hexp) as [Hnil|Hres].
      { by apply elem_of_nil in Hnil. }
      destruct (Hres pJ moduleName HpJ Hname) as (d & st' & Hst' & Hd').
      congruence.
Qed.

(** A required dependency of a required dependency that is installed
    nowhere: the build raises, naming it and the module that asked. *)
Example broken_fs_raises :
  loadProductionDependencies (build_fuel broken_fs) broken_fs ["app"]
  = Some (Err (ResolutionError "e" ["app"; "node_modules"; "a"])).
Proof. vm_compute. reflexivity. Qed.

(** C6, as the code has it: a call of [loadProductionDependenciesForModule]
    with [allowMissing = true], which is how every module found through an
    [optionalDependencies] key is entered, never ends in a resolution error,
    however deep below it the unresolved name is; a resolution error only
    comes from a module that the failing call reached through [dependencies]
    edges alone, in a call with [allowMissing = false]; a name that is
    not found under [allowMissing = true] leaves the set as it is; and a
    module that is in the set already when such a call reaches it is not
    expanded again (lines 63-66), so that it keeps the [allowMissing] of its
    first expansion. *)
Theorem optional_branch_tolerates_missing (fs : node) (fuel : nat) (X : path)
    (w : Walker) :
  (∀ name p,
     loadProductionDependenciesForModule fuel fs X true w
     ≠ Some (Err (ResolutionError name p)))
  ∧ (∀ optionalName name p,
       loadProductionDependenciesForModuleInModule
         (loadProductionDependenciesForModule fuel fs) fs optionalName X true w
       ≠ Some (Err (ResolutionError name p)))
  ∧ (∀ allow name p,
       loadProductionDependenciesForModule fuel fs X allow w
       = Some (Err (ResolutionError name p)) →
       allow = false ∧ rtc (required_edge fs) X p)
  ∧ (∀ forModule name st,
       search fs name X = Some st → discoveredPath st = None →
       loadProductionDependenciesForModuleInModule forModule fs name X true w
       = Some (Ok w))
  ∧ (∀ allow, X ∈ prodPaths w →
       loadProductionDependenciesForModule (S fuel) fs X allow w = Some (Ok w)).
Proof.
  split_and!.
  - intros name p H. by apply forModule_resolution_error in H as [? _].
  - intros optionalName name p.
    unfold loadProductionDependenciesForModuleInModule.
    destruct (search fs optionalName X) as [st|]; [|done].
    destruct (discoveredPath st) as [d|]; [|done].
    intros H. by apply forModule_resolution_error in H as [? _].
  - intros allow name p H.
    by apply forModule_resolution_error in H as (? & ? & _).
  - intros forModule name st Hst Hd.
    by rewrite (in_module_not_found _ _ _ _ _ _ _ Hst Hd).
  - intros allow HX. simpl. unfold set_has. by rewrite bool_decide_true.
Qed.

Lemma optional_branch_tolerates_missing_witness :
  loadProductionDependenciesForModule 4 optional_fs
    ["app"; "node_modules"; "c"] true new_walker
  = Some (Ok {| prodPaths := [["app"; "node_modules"; "c"];
                              ["app"; "node_modules"; "d"]];
                expanded := [(["app"; "node_modules"; "c"], true);
                             (["app"; "node_modules"; "d"], true)] |})
  ∧ loadProductionDependenciesForModuleInModule
      (loadProductionDependenciesForModule 4 optional_fs) optional_fs "e"
      ["app"; "node_modules"; "d"] true new_walker
    = Some (Ok new_walker).
Proof.
  split; [vm_compute; reflexivity|].
  eapply (proj1 (proj2 (proj2 (proj2
            (optional_branch_tolerates_missing optional_fs 4
               ["app"; "node_modules"; "d"] new_walker))))).
  - vm_compute. reflexivity.
  - reflexivity.
Defined.

(** C6 as worded does not hold: in [strict_first_fs] the module "z" is
    required by "b", which "c" depends on optionally, and the "m" that "z"
    requires is installed nowhere; yet the build raises for "m", because
    "z" was reached from the root, and expanded with [allowMissing = false],
    before the optional edge was followed. *)
Lemma optional_edge_into_strict_module_raises :
  ¬ (∀ (fs : node) (fuel : nat) (rootModule Y Y' Z : path) (pJ : PackageJSON)
       (name : string),
       rtc (production_edge fs) rootModule Y → optional_edge fs Y Y' →
       rtc (required_edge fs) Y' Z →
       loadPackageJSON fs Z = Ok (Some pJ) → name ∈ dependencies pJ →
       (∀ d, ¬ resolves_to fs name Z d) →
       loadProductionDependencies fuel fs rootModule
       ≠ Some (Err (ResolutionError name Z))).
Proof.
  intros H.
  assert (Hedge : ∀ keys X Y name pJ,
    loadPackageJSON strict_first_fs X = Ok (Some pJ) → name ∈ keys pJ →
    (∃ st, search strict_first_fs name X = Some st ∧ discoveredPath st = Some Y) →
    edge_by keys strict_first_fs X Y).
  { intros keys X Y name pJ HpJ Hname Hres. by exists pJ, name. }
  apply (H strict_first_fs 6 ["app"]
           ["app"; "node_modules"; "c"] ["app"; "node_modules"; "b"]
           ["app"; "node_modules"; "z"]
           {| dependencies := ["c"; "m"]; devDependencies := [];
              optionalDependencies := [] |} "m").
  - apply (rtc_l _ _ ["app"; "node_modules"; "z"]).
    { left. eapply (Hedge dependencies ["app"] _ "z");
        [reflexivity|left|].
      eexists. split; [vm_compute; reflexivity|reflexivity]. }
    apply rtc_once. left.
    eapply (Hedge dependencies ["app"; "node_modules"; "z"] _ "c");
      [reflexivity|left|].
    eexists. split; [vm_compute; reflexivity|reflexivity].
  - eapply (Hedge optionalDependencies ["app"; "node_modules"; "c"] _ "b");
      [reflexivity|left|].
    eexists. split; [vm_compute; reflexivity|reflexivity].
  - apply rtc_once.
    eapply (Hedge dependencies ["app"; "node_modules"; "b"] _ "z");
      [reflexivity|left|].
    eexists. split; [vm_compute; reflexivity|reflexivity].
  - reflexivity.
  - right. left.
  - intros d (st & Hst & Hd). vm_compute in Hst. injection Hst as <-. done.
  - vm_compute. reflexivity.
Qed.

(** The unresolvable "e" is two levels below the optional "c": the build
    returns the root, "c" and "d". *)
Example optional_fs_production_set :
  loadProductionDependencies (build_fuel optional_fs) optional_fs ["app"]
  = Some (Ok {| prodPaths := [["app"];
                              ["app"; "node_modules"; "c"];
                              ["app"; "node_modules"; "d"]];
                expanded := [(["app"], false);
                             (["app"; "node_modules"; "c"], true);
                             (["app"; "node_modules"; "d"], true)] |}).
Proof. vm_compute. reflexivity. Qed.

(** ** The ascent step *)

Lemma ascend_unscoped (X : path) (name : string) :
  ascend (X ++ ["node_modules"; name]) = X.
Proof.
  rewrite ascend_cases.
  replace (X ++ ["node_modules"; name]) with ((X ++ ["node_modules"]) ++ [name])
    by by rewrite <-app_assoc.
  rewrite !dirname_snoc, basename_snoc. by rewrite decide_True.
Qed.

Lemma ascend_scoped (X : path) (scope name : string) :
  scope ≠ "node_modules" →
  ascend (X ++ ["node_modules"; scope; name]) = X.
Proof.
  intros Hscope. rewrite ascend_cases.
  replace (X ++ ["node_modules"; scope; name])
    with (((X ++ ["node_modules"]) ++ [scope]) ++ [name])
    by by rewrite <-!app_assoc.
  rewrite !dirname_snoc, basename_snoc. by rewrite decide_False.
Qed.

Lemma scoped_not_node_modules (scope : string) :
  scoped scope = true → scope ≠ "node_modules".
Proof. by intros H ->. Qed.

(** C7, as the code has it: when the candidate does not exist, the loop
    body records it as the previous candidate and moves [testPath] up two
    levels when the parent of [testPath] is a "node_modules" directory
    ([testPath] is the installation directory of an unscoped package), three
    levels otherwise; so from [X/node_modules/name] and from
    [X/node_modules/@scope/name] alike the next candidate is computed
    against [X], the directory of the enclosing package. *)
Theorem ascent_step (fs : node) (moduleName : string) (st : search_state) :
  pathExists fs (relativeModule (testPath st) moduleName) = false →
  let D := testPath st in
  let st' := search_body fs moduleName st in
  lastRelative st' = Some (relativeModule D moduleName)
  ∧ testPath st' = (if decide (basename (dirname D) = "node_modules")
                    then dirname (dirname D)
                    else dirname (dirname (dirname D)))
  ∧ (∀ X name, D = X ++ ["node_modules"; name] → testPath st' = X)
  ∧ (∀ X scope name, scoped scope = true →
       D = X ++ ["node_modules"; scope; name] → testPath st' = X).
Proof.
  intros Hex. simpl. unfold search_body. rewrite Hex. simpl.
  split_and!; [done|apply ascend_cases| |].
  - intros X name ->. apply ascend_unscoped.
  - intros X scope name Hscope ->.
    by apply ascend_scoped, scoped_not_node_modules.
Qed.

Lemma ascent_step_witness :
  let st := search_init ["app"; "node_modules"; "@s"; "p"] in
  pathExists scenario_fs (relativeModule (testPath st) "a") = false
  ∧ testPath (search_body scenario_fs "a" st) = ["app"].
Proof.
  assert (H : pathExists scenario_fs
                (relativeModule
                   (testPath (search_init ["app"; "node_modules"; "@s"; "p"]))
                   "a") = false) by (vm_compute; reflexivity).
  split; [exact H|].
  exact (proj2 (proj2 (proj2
    (ascent_step scenario_fs "a"
       (search_init ["app"; "node_modules"; "@s"; "p"]) H)))
    ["app"] "@s" "p" eq_refl eq_refl).
Defined.

(** C7 as the specification words it fails: from the installation
    directory of a scoped package the code goes up three levels, not two,
    and from an unscoped one two, not three. *)
Lemma ascent_not_as_worded :
  ¬ (∀ (fs : node) (moduleName : string) (st : search_state),
       pathExists fs (relativeModule (testPath st) moduleName) = false →
       testPath (search_body fs moduleName st) = spec_ascend (testPath st)).
Proof.
  intros H.
  specialize (H scenario_fs "a" (search_init ["app"; "node_modules"; "@s"; "p"])).
  by specialize (H eq_refl).
Qed.

Example spec_ascend_scoped :
  spec_ascend ["app"; "node_modules"; "@s"; "p"] = ["app"; "node_modules"]
  ∧ ascend ["app"; "node_modules"; "@s"; "p"] = ["app"].
Proof. by vm_compute. Qed.

Example spec_ascend_unscoped :
  spec_ascend ["app"; "node_modules"; "a"; "node_modules"; "b"]
  = ["app"; "node_modules"]
  ∧ ascend ["app"; "node_modules"; "a"; "node_modules"; "b"]
    = ["app"; "node_modules"; "a"].
Proof. by vm_compute. Qed.

(** ** The file system tree *)

Lemma lookup_app p q fs : lookup (p ++ q) fs = lookup p fs ≫= lookup q.
Proof.
  revert fs. induction p as [|s p IH]; intros fs; simpl; [done|].
  destruct fs as [c|es]; [done|].
  destruct (entry s es) as [n|]; simpl; [apply IH|done].
Qed.

Lemma lookup_prefix p q fs :
  p `prefix_of` q → is_Some (lookup q fs) → is_Some (lookup p fs).
Proof.
  intros [r ->]. rewrite lookup_app.
  destruct (lookup p fs); [by eexists|by intros [??]].
Qed.

Lemma stat_is_Some fs p : is_Some (stat fs p) ↔ is_Some (lookup p fs).
Proof. unfold stat. apply fmap_is_Some. Qed.

Lemma stat_prefix p q fs :
  p `prefix_of` q → is_Some (stat fs q) → is_Some (stat fs p).
Proof. rewrite !stat_is_Some. apply lookup_prefix. Qed.

Lemma pathExists_stat fs p : pathExists fs p = true ↔ is_Some (stat fs p).
Proof. unfold pathExists. by rewrite bool_decide_eq_true, stat_is_Some. Qed.

(** ** The owning-module search *)

Lemma nearest_step fs tPath fuel :
  getNearestModuleDirectory (S fuel) fs tPath
  = match stat fs tPath with
    | None => Some (Err (FsError tPath))
    | Some _ => if is_module_dir fs tPath then Some (Ok tPath)
                else getNearestModuleDirectory fuel fs (dirname tPath)
    end.
Proof.
  simpl. unfold is_module_dir. destruct (stat fs tPath) as [k|]; [|done].
  destruct (isDirectory k); simpl; [|done].
  by destruct (pathExists fs _).
Qed.

Lemma prefix_dirname (q P : path) :
  q `prefix_of` P → q ≠ P → q `prefix_of` dirname P.
Proof.
  intros [r ->] Hne. destruct r as [|s r] using rev_ind.
  - by rewrite app_nil_r in Hne.
  - rewrite app_assoc, dirname_snoc. by apply prefix_app_r.
Qed.

(** With an owner above an existing path the search returns the nearest
    one, within [length tPath + 1] rounds. *)
Lemma nearest_found fs fuel tPath q :
  is_Some (stat fs tPath) → q `prefix_of` tPath → is_module_dir fs q = true →
  length tPath < fuel →
  ∃ m, getNearestModuleDirectory fuel fs tPath = Some (Ok m)
       ∧ nearest_module fs tPath m.
Proof.
  revert tPath. induction fuel as [|fuel IH]; intros tPath Hex Hq Hmod Hfuel; [lia|].
  rewrite nearest_step. destruct Hex as [k Hk]. rewrite Hk.
  destruct (is_module_dir fs tPath) eqn:Ht.
  - exists tPath. split; [done|]. split_and!; [done|done|]. by intros q' Hq' _.
  - assert (q ≠ tPath) by (intros ->; congruence).
    assert (tPath ≠ []).
    { intros ->. by apply prefix_nil_inv in Hq. }
    destruct (IH (dirname tPath)) as (m & Hm & Hpre & Hmm & Hnear).
    + eapply stat_prefix; [apply dirname_prefix|by eexists].
    + by apply prefix_dirname.
    + done.
    + rewrite dirname_length. destruct tPath; [done|]. simpl in *. lia.
    + exists m. split; [done|]. split_and!; [|done|].
      * etrans; [done|apply dirname_prefix].
      * intros q' Hq' Hq'm. apply Hnear; [|done].
        apply prefix_dirname; [done|]. intros ->. congruence.
Qed.

(** Whatever the search returns for an existing path is an owner. *)
Lemma nearest_returns fs fuel tPath r :
  is_Some (stat fs tPath) →
  getNearestModuleDirectory fuel fs tPath = Some r →
  ∃ m, r = Ok m ∧ nearest_module fs tPath m.
Proof.
  revert tPath. induction fuel as [|fuel IH]; intros tPath Hex; [done|].
  rewrite nearest_step. destruct Hex as [k Hk]. rewrite Hk.
  destruct (is_module_dir fs tPath) eqn:Ht.
  - intros [= <-]. exists tPath. split; [done|].
    split_and!; [done|done|]. by intros q' Hq' _.
  - intros Hr. destruct (IH (dirname tPath)) as (m & -> & Hpre & Hmm & Hnear).
    + eapply stat_prefix; [apply dirname_prefix|by eexists].
    + done.
    + exists m. split; [done|]. split_and!; [|done|].
      * etrans; [done|apply dirname_prefix].
      * intros q' Hq' Hq'm. apply Hnear; [|done].
        apply prefix_dirname; [done|]. intros ->. congruence.
Qed.

(** Without an owner above an existing path the search goes on for ever:
    it runs out of any fuel. *)
Lemma nearest_diverges fs fuel tPath :
  is_Some (stat fs tPath) →
  (∀ q, q `prefix_of` tPath → is_module_dir fs q = false) →
  getNearestModuleDirectory fuel fs tPath = None.
Proof.
  revert tPath. induction fuel as [|fuel IH]; intros tPath Hex Hnone; [done|].
  rewrite nearest_step. destruct Hex as [k Hk]. rewrite Hk.
  rewrite (Hnone tPath) by done. apply IH.
  - eapply stat_prefix; [apply dirname_prefix|by eexists].
  - intros q Hq. apply Hnone. etrans; [done|apply dirname_prefix].
Qed.

(** C10, for a path that exists: the owning-module search returns if and
    only if some ancestor of the path, the path included, is a directory
    that contains a descriptor file; if there is none the loop never ends
    (from "/" it goes to "/" again). *)
Theorem nearest_module_search_terminates_iff (fs : node) (tPath : path) :
  is_Some (stat fs tPath) →
  ((∃ fuel r, getNearestModuleDirectory fuel fs tPath = Some r)
   ↔ ∃ q, q `prefix_of` tPath ∧ is_module_dir fs q = true)
  ∧ ((∀ q, q `prefix_of` tPath → is_module_dir fs q = false) →
     ∀ fuel, getNearestModuleDirectory fuel fs tPath = None)
  ∧ dirname [] = []
  ∧ ∀ fuel, is_module_dir fs [] = false →
      getNearestModuleDirectory (S fuel) fs []
      = getNearestModuleDirectory fuel fs [].
Proof.
  intros Hex. split_and!.
  - split.
    + intros (fuel & r & Hr).
      destruct (nearest_returns _ _ _ _ Hex Hr) as (m & _ & ? & ? & _). by exists m.
    + intros (q & Hq & Hmod).
      destruct (nearest_found fs (S (length tPath)) tPath q) as (m & Hm & _);
        [done..|lia|].
      by exists (S (length tPath)), (Ok m).
  - intros Hnone fuel. by apply nearest_diverges.
  - done.
  - intros fuel Hroot. rewrite nearest_step, Hroot. by destruct fs.
Qed.

Lemma notes_no_module_dir (q : path) :
  q `prefix_of` ["tmp"; "notes.txt"] → is_module_dir sibling_fs q = false.
Proof.
  intros Hq.
  assert (Hcases : q = [] ∨ q = ["tmp"] ∨ q = ["tmp"; "notes.txt"]).
  { destruct Hq as [r Hr].
    destruct q as [|a [|b [|c q]]]; simplify_eq/=; auto. }
  destruct Hcases as [-> | [-> | ->]]; reflexivity.
Defined.

Lemma nearest_module_search_terminates_iff_witness :
  is_Some (stat sibling_fs ["tmp"; "notes.txt"])
  ∧ ∀ fuel, getNearestModuleDirectory fuel sibling_fs ["tmp"; "notes.txt"] = None.
Proof.
  assert (H : is_Some (stat sibling_fs ["tmp"; "notes.txt"])) by (by eexists).
  split; [exact H|].
  exact (proj1 (proj2
    (nearest_module_search_terminates_iff sibling_fs ["tmp"; "notes.txt"] H))
    notes_no_module_dir).
Defined.

Lemma notes_without_owner (fuel : nat) :
  getNearestModuleDirectory fuel sibling_fs ["tmp"; "notes.txt"] = None.
Proof.
  apply nearest_diverges; [by eexists|apply notes_no_module_dir].
Qed.

(** C10 as stated fails on a path that does not exist: [statSync] throws,
    which ends the search although no ancestor holds a descriptor file. *)
Lemma nearest_module_search_ends_on_missing_path :
  ¬ (∀ (fs : node) (tPath : path),
       (∃ fuel r, getNearestModuleDirectory fuel fs tPath = Some r)
       ↔ ∃ q, q `prefix_of` tPath ∧ is_module_dir fs q = true).
Proof.
  intros H. destruct (H sibling_fs ["missing"]) as [H1 _].
  destruct H1 as (q & Hq & Hmod).
  { by exists 1, (Err (FsError ["missing"])). }
  destruct Hq as [r Hr].
  destruct q as [|a [|b q]]; simplify_eq/=.
Qed.

(** ** The copy filter *)

Lemma string_prefix_app (s t : string) : String.prefix s (s +:+ t) = true.
Proof.
  induction s as [|a s IH]; simpl; [by destruct t|].
  by destruct (Ascii.ascii_dec a a).
Qed.

Lemma string_app_cons (a : ascii) (s t : string) :
  String a s +:+ t = String a (s +:+ t).
Proof. reflexivity. Qed.

Lemma string_app_assoc (s t u : string) : s +:+ t +:+ u = (s +:+ t) +:+ u.
Proof.
  induction s as [|a s IH]; [done|].
  by rewrite !string_app_cons, IH.
Qed.

Lemma render_segments_app (p q : path) :
  render_segments (p ++ q) = render_segments p +:+ render_segments q.
Proof.
  induction p as [|s p IH]; [done|].
  change (render_segments ((s :: p) ++ q))
    with ("/" +:+ s +:+ render_segments (p ++ q)).
  change (render_segments (s :: p)) with ("/" +:+ s +:+ render_segments p).
  by rewrite IH, !string_app_assoc.
Qed.

(** A path below a directory starts, as a string, with the string of that
    directory. *)
Lemma render_prefix (p q : path) :
  p ≠ [] → p `prefix_of` q → String.prefix (render p) (render q) = true.
Proof.
  intros Hp [r ->]. unfold render.
  destruct p as [|s p]; [done|]. simpl app.
  change (s :: p ++ r) with ((s :: p) ++ r).
  rewrite render_segments_app. apply string_prefix_app.
Qed.

Lemma ignoreFunction_result prod nmPath fuel fs tPath m :
  getNearestModuleDirectory fuel fs tPath = Some (Ok m) →
  ignoreFunction prod nmPath fuel fs tPath
  = Some (Ok (String.prefix (render nmPath) (render tPath)
              && negb (set_has m prod))).
Proof.
  intros H. unfold ignoreFunction. rewrite H.
  by destruct (String.prefix _ _).
Qed.

Lemma getFsCopyIgnoreFunction_inv fuel fs rootModule ignore :
  getFsCopyIgnoreFunction fuel fs rootModule = Some (Ok ignore) →
  ∃ w, loadProductionDependencies fuel fs rootModule = Some (Ok w)
       ∧ ignore = ignoreFunction (prodPaths w) (resolve rootModule "node_modules").
Proof.
  unfold getFsCopyIgnoreFunction.
  destruct (loadProductionDependencies fuel fs rootModule) as [[w|e]|]; [|done..].
  intros [= <-]. by exists w.
Qed.

(** C8, for a path whose owning module can be found: let [ignore] be the
    function that [getFsCopyIgnoreFunction] returned, and [w] hold the set it
    captured.  For a path that exists and has an owner [m] (the nearest
    ancestor, the path included, that is a directory containing a
    descriptor file), [ignore] returns; it returns "do not skip" for a
    path whose string does not start with the string of the root's
    "node_modules", and inside the "node_modules" subtree it returns "skip"
    iff [m] is not a member. *)
Theorem ignore_function_on_owned_paths (fuel0 : nat) (fs0 : node)
    (rootModule : path) (ignore : nat → node → path → M bool)
    (fs : node) (tPath q : path) (fuel : nat) :
  getFsCopyIgnoreFunction fuel0 fs0 rootModule = Some (Ok ignore) →
  is_Some (stat fs tPath) →
  q `prefix_of` tPath → is_module_dir fs q = true →
  length tPath < fuel →
  let nmPath := resolve rootModule "node_modules" in
  ∃ w m b, loadProductionDependencies fuel0 fs0 rootModule = Some (Ok w)
    ∧ nearest_module fs tPath m
    ∧ ignore fuel fs tPath = Some (Ok b)
    ∧ (String.prefix (render nmPath) (render tPath) = false → b = false)
    ∧ (nmPath `prefix_of` tPath → (b = true ↔ m ∉ prodPaths w)).
Proof.
  intros Hignore Hex Hq Hmod Hfuel nmPath.
  apply getFsCopyIgnoreFunction_inv in Hignore as (w & Hw & ->).
  destruct (nearest_found fs fuel tPath q) as (m & Hm & Hnear); [done..|].
  exists w, m, (String.prefix (render nmPath) (render tPath)
                && negb (set_has m (prodPaths w))).
  assert (Hhas : negb (set_has m (prodPaths w)) = true ↔ m ∉ prodPaths w).
  { unfold set_has. by rewrite negb_true_iff, bool_decide_eq_false. }
  split_and!.
  - done.
  - done.
  - by apply ignoreFunction_result.
  - by intros ->.
  - intros Hin. rewrite render_prefix; [done| |done].
    subst nmPath. rewrite resolve_node_modules. by destruct rootModule.
Qed.

Lemma sibling_fs_filter :
  getFsCopyIgnoreFunction 3 sibling_fs ["app"]
  = Some (Ok (ignoreFunction [["app"]; ["app"; "node_modules"; "a"]]
                             ["app"; "node_modules"])).
Proof. reflexivity. Defined.

Lemma ignore_function_on_owned_paths_witness :
  let tPath := ["app"; "node_modules"; "a"; "index.js"] in
  let ignore := ignoreFunction [["app"]; ["app"; "node_modules"; "a"]]
                               ["app"; "node_modules"] in
  getFsCopyIgnoreFunction 3 sibling_fs ["app"] = Some (Ok ignore)
  ∧ is_Some (stat sibling_fs tPath)
  ∧ ["app"; "node_modules"; "a"] `prefix_of` tPath
  ∧ is_module_dir sibling_fs ["app"; "node_modules"; "a"] = true
  ∧ length tPath < 5
  ∧ ∃ m b, nearest_module sibling_fs tPath m
      ∧ ignore 5 sibling_fs tPath = Some (Ok b).
Proof.
  assert (H1 : is_Some (stat sibling_fs ["app"; "node_modules"; "a"; "index.js"]))
    by (by eexists).
  assert (H2 : ["app"; "node_modules"; "a"]
               `prefix_of` ["app"; "node_modules"; "a"; "index.js"])
    by (by exists ["index.js"]).
  assert (H3 : is_module_dir sibling_fs ["app"; "node_modules"; "a"] = true)
    by reflexivity.
  assert (H4 : length ["app"; "node_modules"; "a"; "index.js"] < 5)
    by (simpl; lia).
  split_and!; [exact sibling_fs_filter|exact H1|exact H2|exact H3|exact H4|].
  destruct (ignore_function_on_owned_paths 3 sibling_fs ["app"] _ sibling_fs
              _ _ 5 sibling_fs_filter H1 H2 H3 H4) as (w & m & b & _ & Hm & Hb & _).
  by exists m, b.
Defined.

(** C8 as stated fails outside the subtree: for a path without an owning
    module the function never answers (and for a path that does not exist
    it throws) instead of answering "do not skip". *)
Lemma ignore_function_no_answer_outside :
  ¬ (∀ (fuel0 : nat) (fs0 : node) (rootModule : path)
       (ignore : nat → node → path → M bool) (fs : node) (tPath : path),
       getFsCopyIgnoreFunction fuel0 fs0 rootModule = Some (Ok ignore) →
       ¬ resolve rootModule "node_modules" `prefix_of` tPath →
       ∃ fuel, ignore fuel fs tPath = Some (Ok false)).
Proof.
  intros H.
  destruct (H 3 sibling_fs ["app"] _ sibling_fs ["tmp"; "notes.txt"]
              sibling_fs_filter) as [fuel Hf].
  { intros [r Hr]. simplify_eq/=. }
  unfold ignoreFunction in Hf. by rewrite notes_without_owner in Hf.
Qed.

Example ignore_function_throws_on_missing_path (fuel : nat) :
  ignoreFunction [["app"]; ["app"; "node_modules"; "a"]] ["app"; "node_modules"]
    (S fuel) sibling_fs ["missing"]
  = Some (Err (FsError ["missing"])).
Proof. reflexivity. Qed.

(** Outside the subtree, but with a string that starts like it: the
    function answers "skip" for a file of the package in
    "node_modules_old". *)
Example ignore_function_sibling_directory :
  let nmPath := resolve ["app"] "node_modules" in
  let tPath := ["app"; "node_modules_old"; "x"; "index.js"] in
  ¬ nmPath `prefix_of` tPath
  ∧ ignoreFunction [["app"]; ["app"; "node_modules"; "a"]] nmPath 5 sibling_fs tPath
    = Some (Ok true).
Proof.
  split; [|by vm_compute].
  intros [r Hr]. simplify_eq/=.
Qed.

Lemma nearest_probe fs1 fs2 fuel tPath :
  (∀ q, q `prefix_of` tPath → probe fs1 q = probe fs2 q) →
  getNearestModuleDirectory fuel fs1 tPath
  = getNearestModuleDirectory fuel fs2 tPath.
Proof.
  revert tPath. induction fuel as [|fuel IH]; intros tPath Hprobe; [done|].
  simpl. pose proof (Hprobe tPath (reflexivity _)) as Ht.
  unfold probe in Ht. injection Ht as Hstat Hdesc. rewrite <-Hdesc.
  destruct (stat fs1 tPath) as [k1|], (stat fs2 tPath) as [k2|];
    simplify_eq/=; [|done].
  rewrite Hstat.
  rewrite IH; [done|].
  intros q Hq. apply Hprobe. etrans; [done|apply dirname_prefix].
Qed.

(** C9, as the code has it: the answer of the function that
    [getFsCopyIgnoreFunction] returned, for a path, is determined by what it
    captured and by what the file system says, at the time of the call, about
    the ancestors of the path (whether each is a directory and whether it
    holds a descriptor file): two calls on file systems that agree on that
    return the same.  The function returns a boolean (or throws) and nothing
    else: it has no state to change. *)
Theorem ignore_function_reads_ancestors_only (fuel0 : nat) (fs0 : node)
    (rootModule : path) (ignore : nat → node → path → M bool)
    (fuel : nat) (fs1 fs2 : node) (tPath : path) :
  getFsCopyIgnoreFunction fuel0 fs0 rootModule = Some (Ok ignore) →
  (∀ q, q `prefix_of` tPath → probe fs1 q = probe fs2 q) →
  ignore fuel fs1 tPath = ignore fuel fs2 tPath.
Proof.
  intros (w & _ & ->)%getFsCopyIgnoreFunction_inv Hprobe.
  unfold ignoreFunction. by rewrite (nearest_probe fs1 fs2).
Qed.

Lemma scenario_fs_filter :
  getFsCopyIgnoreFunction 3 scenario_fs ["app"]
  = Some (Ok (ignoreFunction [["app"]; ["app"; "node_modules"; "a"]]
                             ["app"; "node_modules"])).
Proof. reflexivity. Defined.

Lemma ignore_function_reads_ancestors_only_witness :
  let tPath := ["app"; "node_modules"; "a"; "package.json"] in
  let ignore := ignoreFunction [["app"]; ["app"; "node_modules"; "a"]]
                               ["app"; "node_modules"] in
  getFsCopyIgnoreFunction 3 scenario_fs ["app"] = Some (Ok ignore)
  ∧ (∀ q, q `prefix_of` tPath → probe scenario_fs q = probe scenario_fs_later q)
  ∧ ignore 5 scenario_fs tPath = ignore 5 scenario_fs_later tPath.
Proof.
  assert (H : ∀ q, q `prefix_of` ["app"; "node_modules"; "a"; "package.json"] →
                   probe scenario_fs q = probe scenario_fs_later q).
  { intros q [r Hr].
    destruct q as [|a [|b [|c [|d [|e q]]]]]; simplify_eq/=; reflexivity. }
  split_and!; [exact scenario_fs_filter|exact H|].
  exact (ignore_function_reads_ancestors_only
           3 scenario_fs ["app"] _ 5 scenario_fs scenario_fs_later _
           scenario_fs_filter H).
Defined.

(** C9 as stated fails: with the set captured once and the same path, the
    answer changes when the descriptor file of the development dependency
    "b" is deleted between two calls. *)
Lemma ignore_function_depends_on_file_system :
  ¬ (∀ (fuel0 : nat) (fs0 : node) (rootModule : path)
       (ignore : nat → node → path → M bool)
       (fuel : nat) (fs1 fs2 : node) (tPath : path),
       getFsCopyIgnoreFunction fuel0 fs0 rootModule = Some (Ok ignore) →
       ignore fuel fs1 tPath = ignore fuel fs2 tPath).
Proof.
  intros H.
  specialize (H 3 scenario_fs ["app"] _ 5 scenario_fs scenario_fs_later
                ["app"; "node_modules"; "b"] scenario_fs_filter).
  vm_compute in H. discriminate H.
Qed.

Example ignore_function_before_and_after :
  let ignore := ignoreFunction [["app"]; ["app"; "node_modules"; "a"]]
                               ["app"; "node_modules"] in
  let tPath := ["app"; "node_modules"; "b"] in
  ignore 5 scenario_fs tPath = Some (Ok true)
  ∧ ignore 5 scenario_fs_later tPath = Some (Ok false).
Proof. by vm_compute. Qed.

(** ** Removing from the tree *)

Lemma entry_filter s s' es :
  entry s' (filter (λ e : string * node, e.1 ≠ s) es)
  = if decide (s' = s) then None else entry s' es.
Proof.
  induction es as [|[k n] es IH]; simpl; [by case_decide|].
  rewrite filter_cons. simpl.
  destruct (decide (k ≠ s)) as [Hk|Hk]; simpl.
  - rewrite IH. destruct (decide (k = s')) as [->|]; [by rewrite decide_False|done].
  - apply dec_stable in Hk as ->. rewrite IH.
    destruct (decide (s' = s)) as [->|]; [done|]. by rewrite decide_False.
Qed.

Lemma entry_map_at s s' (f : node → node) es :
  entry s' (map (λ e : string * node,
                   if decide (e.1 = s) then (e.1, f e.2) else e) es)
  = if decide (s' = s) then f <$> entry s' es else entry s' es.
Proof.
  induction es as [|[k n] es IH]; simpl; [by case_decide|].
  destruct (decide (k = s)) as [->|Hk]; simpl.
  - destruct (decide (s = s')) as [->|]; [by rewrite decide_True|].
    rewrite IH. destruct (decide (s' = s)) as [->|]; [done|done].
  - destruct (decide (k = s')) as [->|]; [by rewrite decide_False|].
    by rewrite IH.
Qed.

Lemma remove_cons s r es :
  remove (s :: r) (Dir es)
  = match r with
    | [] => Dir (filter (λ e, e.1 ≠ s) es)
    | _ :: _ =>
        Dir (map (λ e, if decide (e.1 = s) then (e.1, remove r e.2) else e) es)
    end.
Proof. by destruct r. Qed.

Lemma stat_remove p fs q :
  p ≠ [] →
  stat (remove p fs) q = if decide (p `prefix_of` q) then None else stat fs q.
Proof.
  revert fs q. induction p as [|s r IH]; intros fs q Hp; [congruence|].
  destruct fs as [c|es].
  - simpl. case_decide as Hpre; [|done].
    destruct Hpre as [k ->]. reflexivity.
  - rewrite remove_cons. destruct q as [|s' q].
    + rewrite decide_False by (by intros ?%prefix_nil_inv). by destruct r.
    + unfold stat. destruct r as [|r1 r2].
      * simpl. rewrite entry_filter.
        case_decide as Hs; simplify_eq.
        -- rewrite decide_True; [done|]. by exists q.
        -- rewrite decide_False; [done|]. intros [k Hk]. by simplify_eq/=.
      * set (f := remove (r1 :: r2)). simpl lookup. rewrite entry_map_at.
        destruct (decide (s' = s)) as [->|Hs].
        -- destruct (entry s es) as [n|] eqn:Hn; simpl.
           ++ specialize (IH n q). unfold stat in IH. subst f.
              rewrite IH by done.
              destruct (decide (r1 :: r2 `prefix_of` q)) as [Hq|Hq].
              ** rewrite decide_True; [done|]. by apply prefix_cons.
              ** rewrite decide_False; [done|].
                 intros Hq'. by apply prefix_cons_inv_2 in Hq'.
           ++ by case_decide.
        -- rewrite decide_False; [done|].
           intros [k Hk]. by simplify_eq/=.
Qed.

Lemma stat_prefix_None fs p q :
  p `prefix_of` q → stat fs p = None → stat fs q = None.
Proof.
  intros Hpre Hp. destruct (stat fs q) as [k|] eqn:Hq; [|done].
  destruct (stat_prefix p q fs Hpre) as [k' Hk]; [by eexists|congruence].
Qed.

Lemma readdir_Ok fs d names :
  readdir fs d = Ok names →
  ∀ e, e ∈ names ↔ is_Some (stat fs (d ++ [e])).
Proof.
  unfold readdir, stat. intros Hd e. rewrite lookup_app.
  destruct (lookup d fs) as [[c|es]|]; [done| |done].
  injection Hd as <-. rewrite fmap_is_Some, <-entry_is_Some. simpl.
  by destruct (entry e es).
Qed.

Lemma shrinks_refl fs : shrinks fs fs.
Proof. intros p. by right. Qed.

Lemma shrinks_trans fs1 fs2 fs3 : shrinks fs1 fs2 → shrinks fs2 fs3 → shrinks fs1 fs3.
Proof.
  intros H12 H23 p. destruct (H23 p) as [?|H3]; [by left|].
  rewrite H3. apply H12.
Qed.

Lemma shrinks_is_Some fs fs' p :
  shrinks fs fs' → is_Some (stat fs' p) → stat fs' p = stat fs p.
Proof. intros H [k Hk]. destruct (H p); congruence. Qed.

Lemma shrinks_None fs fs' p : shrinks fs fs' → stat fs p = None → stat fs' p = None.
Proof. intros H Hp. destruct (H p); congruence. Qed.

Lemma shrinks_remove p fs : p ≠ [] → shrinks fs (remove p fs).
Proof. intros Hp q. rewrite stat_remove by done. case_decide; auto. Qed.

Lemma loop_rel_split {A S : Type} (step : A → S → result S → Prop)
    (Q : S → S → Prop) (l : list A) :
  (∀ s, Q s s) → (∀ s1 s2 s3, Q s1 s2 → Q s2 s3 → Q s1 s3) →
  (∀ x s s', x ∈ l → step x s (Ok s') → Q s s') →
  ∀ s s', loop_rel step l s (Ok s') →
  ∀ x, x ∈ l → ∃ si si', Q s si ∧ step x si (Ok si') ∧ Q si' s'.
Proof.
  intros Hrefl Htrans. induction l as [|y l IH]; intros Hstep s s'; simpl.
  - intros _ x Hx. by apply elem_of_nil in Hx.
  - intros ([s1|e] & Hy & Hl) x Hx; [|done].
    assert (Hstep' : ∀ x s s', x ∈ l → step x s (Ok s') → Q s s').
    { intros z ?? Hz. apply (Hstep z). by right. }
    apply elem_of_cons in Hx as [->|Hx].
    + exists s, s1. split_and!; [done|done|].
      by apply (loop_rel_ok_inv step Q l).
    + destruct (IH Hstep' _ _ Hl x Hx) as (si & si' & ? & ? & ?).
      exists si, si'. split_and!; [|done|done].
      eapply Htrans; [|done]. apply (Hstep y); [by left|done].
Qed.

(** ** Module directories *)

Lemma module_below_cases (M c : path) :
  module_below M c →
  (∃ e, scoped e = false ∧ c = (M ++ ["node_modules"]) ++ [e])
  ∨ (∃ e sub, scoped e = true ∧ c = (M ++ ["node_modules"]) ++ [e; sub]).
Proof.
  intros [e He|e sub He]; [left; exists e|right; exists e, sub];
    by rewrite <-app_assoc.
Qed.

Lemma module_below_node_modules (M c : path) :
  module_below M c → (M ++ ["node_modules"]) `prefix_of` c.
Proof.
  intros [(e & _ & ->)|(e & sub & _ & ->)]%module_below_cases;
    by apply prefix_app_r.
Qed.

Lemma module_below_prefix (M c : path) : module_below M c → M `prefix_of` c.
Proof.
  intros H%module_below_node_modules. etrans; [|done]. by apply prefix_app_r.
Qed.

Lemma node_modules_not_prefix (M : path) : ¬ (M ++ ["node_modules"]) `prefix_of` M.
Proof. apply prefix_snoc_not. Qed.

Lemma module_below_incomparable (M c c' : path) :
  module_below M c → module_below M c' → c `prefix_of` c' → c = c'.
Proof.
  intros [e He|e sub He] [e' He'|e' sub' He'] Hpre;
    apply prefix_app_inv in Hpre as [k Hk]; simplify_eq/=;
    try done; congruence.
Qed.

Lemma module_below_same_path (M c c' p : path) :
  module_below M c → module_below M c' →
  c `prefix_of` p → c' `prefix_of` p → c = c'.
Proof.
  intros Hc Hc' Hp Hp'.
  destruct (prefix_weak_total _ _ _ Hp Hp').
  - by apply (module_below_incomparable M).
  - symmetry. by apply (module_below_incomparable M).
Qed.

Lemma installed_is_Some fs M p : installed fs M p → is_Some (stat fs p).
Proof. by intros [?|??]. Qed.

Lemma installed_shrinks fs fs' M p :
  shrinks fs fs' → installed fs' M p → installed fs M p.
Proof.
  intros Hsh. induction 1 as [p Hp Hex|q p Hq IH Hp Hex].
  - apply installed_direct; [done|]. by rewrite <-(shrinks_is_Some fs fs').
  - eapply installed_nested; [done..|]. by rewrite <-(shrinks_is_Some fs fs').
Qed.

Lemma installed_inv fs M p :
  installed fs M p →
  ∃ c, module_below M c ∧ is_Some (stat fs c) ∧ c `prefix_of` p
       ∧ (p = c ∨ installed fs c p).
Proof.
  induction 1 as [p Hp Hex|q p Hq (c & Hc & Hcex & Hpre & IH) Hp Hex].
  - exists p. split_and!; [done..|by left].
  - exists c. split_and!; [done|done| |].
    + etrans; [done|]. by apply module_below_prefix.
    + right. destruct IH as [->|IH].
      * by apply installed_direct.
      * by eapply installed_nested.
Qed.

Lemma kept_inv prod M p :
  kept prod M p →
  M ∈ prod ∧ (p = M ∨ ∃ c, module_below M c ∧ c `prefix_of` p ∧ kept prod c p).
Proof.
  induction 1 as [HM|q p Hq (HM & IH) Hp Hin]; (split; [done|]); [by left|].
  right. destruct IH as [->|(c & Hc & Hpre & Hk)].
  - exists p. split_and!; [done|done|]. by apply kept_root.
  - exists c. split_and!; [done| |].
    + etrans; [done|]. by apply module_below_prefix.
    + by eapply kept_below.
Qed.

(** ** Pruning *)

Lemma changes_below_refl d fs : changes_below d fs fs.
Proof. split; [apply shrinks_refl|done]. Qed.

Lemma changes_below_trans d fs1 fs2 fs3 :
  changes_below d fs1 fs2 → changes_below d fs2 fs3 → changes_below d fs1 fs3.
Proof.
  intros [Hs12 Hf12] [Hs23 Hf23]. split; [by eapply shrinks_trans|].
  intros p Hp. by rewrite Hf23, Hf12.
Qed.

Lemma pruned_changes_below prod d c fs fs' :
  d `prefix_of` c → pruned prod c fs fs' → changes_below d fs fs'.
Proof.
  intros Hd Hc. split; [apply Hc|].
  intros p Hp. apply Hc. intros Hcp. apply Hp. by etrans.
Qed.

Section prune_loop.
Context (prod : list path) (M : path).

Lemma entry_changes_below e s s' :
  prune_entry_rel (prune_rec prod) (M ++ ["node_modules"]) e s (Ok s') →
  changes_below (M ++ ["node_modules"]) s s'.
Proof.
  unfold prune_entry_rel. destruct (scoped e).
  - destruct (readdir s _) as [subs|err]; [|done].
    apply loop_rel_ok_inv;
      [apply changes_below_refl|apply changes_below_trans|].
    intros sub s1 s2 _ Hrec.
    eapply pruned_changes_below; [|by apply Hrec]. by apply prefix_app_r.
  - intros Hrec.
    eapply pruned_changes_below; [|by apply Hrec]. by apply prefix_app_r.
Qed.

Lemma loop_changes_below names s s' :
  loop_rel (prune_entry_rel (prune_rec prod) (M ++ ["node_modules"]))
    names s (Ok s') →
  changes_below (M ++ ["node_modules"]) s s'.
Proof.
  apply loop_rel_ok_inv;
    [apply changes_below_refl|apply changes_below_trans|].
  intros e s1 s2 _. apply entry_changes_below.
Qed.

Context (fs fs' : node) (names : list string).
Hypothesis Hnames : readdir fs (M ++ ["node_modules"]) = Ok names.
Hypothesis Hloop :
  loop_rel (prune_entry_rel (prune_rec prod) (M ++ ["node_modules"]))
    names fs (Ok fs').

(** Every module directory below [M] that exists at the start is handed
    to [pruneModule] at some time, unless it is gone by then. *)
Lemma loop_visits c :
  module_below M c → is_Some (stat fs c) →
  stat fs' c = None
  ∨ ∃ sj sj', shrinks fs sj ∧ shrinks sj' fs' ∧ pruned prod c sj sj'.
Proof using Hnames Hloop.
  intros Hc Hex.
  assert (Hsplit : ∀ e, e ∈ names → ∃ si si',
    changes_below (M ++ ["node_modules"]) fs si
    ∧ prune_entry_rel (prune_rec prod) (M ++ ["node_modules"]) e si (Ok si')
    ∧ changes_below (M ++ ["node_modules"]) si' fs').
  { apply (loop_rel_split _ (changes_below (M ++ ["node_modules"])));
      [apply changes_below_refl|apply changes_below_trans| |done].
    intros e s1 s2 _. apply entry_changes_below. }
  destruct (module_below_cases _ _ Hc) as [(e & He & ->)|(e & sub & He & ->)].
  - destruct (Hsplit e) as (si & si' & [Hs1 _] & Hstep & [Hs2 _]).
    { by apply (readdir_Ok _ _ _ Hnames). }
    right. exists si, si'. split_and!; [done..|].
    unfold prune_entry_rel in Hstep. rewrite He in Hstep. by apply Hstep.
  - destruct (Hsplit e) as (si & si' & [Hs1 _] & Hstep & [Hs2 _]).
    { apply (readdir_Ok _ _ _ Hnames).
      eapply stat_prefix; [|done]. apply prefix_app, prefix_cons, prefix_nil. }
    unfold prune_entry_rel in Hstep. rewrite He in Hstep.
    destruct (readdir si _) as [subs|err] eqn:Hsubs; [|done].
    destruct (stat si ((M ++ ["node_modules"]) ++ [e; sub])) as [k|] eqn:Hk.
    + assert (Hin : sub ∈ subs).
      { apply (readdir_Ok _ _ _ Hsubs). rewrite <-app_assoc. by eexists. }
      assert (Hinner : ∃ sj sj',
        changes_below (M ++ ["node_modules"]) si sj
        ∧ prune_rec prod ((M ++ ["node_modules"]) ++ [e; sub]) sj (Ok sj')
        ∧ changes_below (M ++ ["node_modules"]) sj' si').
      { apply (loop_rel_split
                 (λ sub, prune_rec prod ((M ++ ["node_modules"]) ++ [e; sub]))
                 (changes_below (M ++ ["node_modules"])) subs);
          [apply changes_below_refl|apply changes_below_trans| |done|done].
        intros y s1 s2 _ Hrec.
        eapply pruned_changes_below; [|by apply Hrec]. by apply prefix_app_r. }
      destruct Hinner as (sj & sj' & [Hs3 _] & Hrec & [Hs4 _]).
      right. exists sj, sj'. split_and!.
      * by eapply shrinks_trans.
      * by eapply shrinks_trans.
      * by apply Hrec.
    + left. eapply shrinks_None; [done|].
      eapply shrinks_None; [|done].
      assert (Hentry : prune_entry_rel (prune_rec prod) (M ++ ["node_modules"])
                         e si (Ok si')).
      { unfold prune_entry_rel. by rewrite He, Hsubs. }
      by destruct (entry_changes_below _ _ _ Hentry).
Qed.

Lemma loop_pruned : M ∈ prod → pruned prod M fs fs'.
Proof using Hnames Hloop.
  intros HM. pose proof (loop_changes_below _ _ _ Hloop) as [Hsh Hfr].
  split.
  - done.
  - intros p Hp. apply Hfr. intros Hnm. apply Hp.
    etrans; [|done]. by apply prefix_app_r.
  - done.
  - intros p (c & Hc & Hcex & Hpre & Hp)%installed_inv.
    assert (Hcex0 : is_Some (stat fs c)) by by rewrite <-(shrinks_is_Some fs fs').
    destruct (loop_visits c Hc Hcex0) as [Hnone|(sj & sj' & Hs1 & Hs2 & Hpr)].
    { rewrite Hnone in Hcex. by destruct Hcex. }
    assert (c ∈ prod).
    { destruct (decide (c ∈ prod)) as [|Hn]; [done|].
      pose proof (pruned_gone _ _ _ _ Hpr Hn c (reflexivity _)) as Hgone.
      rewrite (shrinks_None _ _ _ Hs2 Hgone) in Hcex. by destruct Hcex. }
    destruct Hp as [->|Hp]; [done|].
    eapply (pruned_clean _ _ _ _ Hpr), installed_shrinks; done.
  - intros fs0 p Hs0 (c & Hc & Hcex & Hpre & Hp)%installed_inv Hn.
    destruct (stat fs c) as [k|] eqn:Hk; cycle 1.
    { eapply shrinks_None; [done|]. by eapply stat_prefix_None. }
    destruct (loop_visits c Hc) as [Hnone|(sj & sj' & Hs1 & Hs2 & Hpr)].
    { by eexists. }
    { by eapply stat_prefix_None. }
    eapply shrinks_None; [done|]. destruct Hp as [->|Hp].
    + by apply (pruned_gone _ _ _ _ Hpr Hn).
    + eapply (pruned_removed _ _ _ _ Hpr); [|done..].
      eapply shrinks_trans; [exact Hs0|exact Hs1].
  - intros p [_ [->|(c0 & Hc0 & Hpre0 & Hk)]]%kept_inv.
    { apply Hfr, node_modules_not_prefix. }
    revert Hloop. apply (loop_rel_ok_inv _ (λ s s', stat s' p = stat s p));
      [done|by intros ??? -> ->|].
    assert (Hrec : ∀ c s s', module_below M c → prune_rec prod c s (Ok s') →
                             stat s' p = stat s p).
    { intros c s s' Hc Hrec. specialize (Hrec _ eq_refl).
      destruct (decide (c `prefix_of` p)) as [Hcp|Hcp].
      - assert (c = c0) as -> by by eapply module_below_same_path.
        by apply (pruned_kept _ _ _ _ Hrec).
      - by apply (pruned_frame _ _ _ _ Hrec). }
    intros e s s' _. unfold prune_entry_rel.
    destruct (scoped e) eqn:He.
    + destruct (readdir s _) as [subs|err]; [|done].
      apply (loop_rel_ok_inv _ (λ s s', stat s' p = stat s p));
        [done|by intros ??? -> ->|].
      intros sub s1 s2 _. apply Hrec.
      rewrite <-app_assoc. by apply below_scoped.
    + apply Hrec. rewrite <-app_assoc. by apply below_unscoped.
  - intros _ p Hout.
    revert Hloop. apply (loop_rel_ok_inv _ (λ s s', stat s' p = stat s p));
      [done|by intros ??? -> ->|].
    assert (Hrec : ∀ e k s s',
              prune_rec prod ((M ++ ["node_modules"]) ++ e :: k) s (Ok s') →
              stat s' p = stat s p).
    { intros e k s s' Hrec.
      apply (pruned_frame _ _ _ _ (Hrec _ eq_refl)).
      intros Hcp. apply (Hout e). etrans; [|done].
      rewrite <-app_assoc. apply prefix_app. simpl.
      do 2 apply prefix_cons. apply prefix_nil. }
    intros e s s' _. unfold prune_entry_rel. destruct (scoped e).
    + destruct (readdir s _) as [subs|err]; [|done].
      apply (loop_rel_ok_inv _ (λ s s', stat s' p = stat s p));
        [done|by intros ??? -> ->|].
      intros sub s1 s2 _. apply Hrec.
    + apply Hrec.
Qed.
End prune_loop.

Lemma pruned_removed_module prod M fs :
  M ≠ [] → M ∉ prod → pruned prod M fs (remove M fs).
Proof.
  intros Hne HM.
  assert (Hgone : ∀ p, M `prefix_of` p → stat (remove M fs) p = None).
  { intros p Hp. by rewrite stat_remove, decide_True. }
  split.
  - by apply shrinks_remove.
  - intros p Hp. by rewrite stat_remove, decide_False.
  - done.
  - intros p Hp. pose proof (installed_is_Some _ _ _ Hp) as [k Hk].
    apply installed_inv in Hp as (c & Hc & _ & Hpre & _).
    rewrite Hgone in Hk; [done|].
    etrans; [|done]. by apply module_below_prefix.
  - intros fs0 p _ (c & Hc & _ & Hpre & _)%installed_inv _.
    apply Hgone. etrans; [|done]. by apply module_below_prefix.
  - by intros p [? _]%kept_inv.
  - done.
Qed.

Lemma pruned_no_node_modules prod M fs :
  M ∈ prod → pathExists fs (M ++ ["node_modules"]) = false → pruned prod M fs fs.
Proof.
  intros HM Hnm.
  assert (Hnone : ∀ fs0 c p, shrinks fs0 fs → module_below M c →
                             c `prefix_of` p → stat fs p = None).
  { intros fs0 c p _ Hc Hp. eapply stat_prefix_None.
    - etrans; [|done]. by apply module_below_node_modules.
    - destruct (stat fs (M ++ ["node_modules"])) as [k|] eqn:Hk; [|done].
      assert (pathExists fs (M ++ ["node_modules"]) = true); [|congruence].
      apply pathExists_stat. by eexists. }
  split.
  - apply shrinks_refl.
  - done.
  - done.
  - intros p Hp. pose proof (installed_is_Some _ _ _ Hp) as [k Hk].
    apply installed_inv in Hp as (c & Hc & _ & Hpre & _).
    rewrite (Hnone fs c p) in Hk; [done|apply shrinks_refl|done..].
  - intros fs0 p Hs0 (c & Hc & _ & Hpre & _)%installed_inv _.
    by apply (Hnone fs0 c).
  - done.
  - done.
Qed.

Lemma pruneModule_pruned prod fuel M fs fs' :
  M ≠ [] ∨ M ∈ prod →
  pruneModule fuel prod M fs = Some (Ok fs') →
  pruned prod M fs fs'.
Proof.
  revert M fs fs'. induction fuel as [|fuel IH]; intros M fs fs' HM; [done|].
  simpl. unfold set_has. rewrite resolve_node_modules.
  case_bool_decide as Hin; cycle 1.
  { intros [= <-]. apply pruned_removed_module; [|done]. by destruct HM. }
  destruct (pathExists fs (M ++ ["node_modules"])) eqn:Hnm; simpl; cycle 1.
  { intros [= <-]. by apply pruned_no_node_modules. }
  destruct (readdir fs (M ++ ["node_modules"])) as [names|err] eqn:Hnames; [|done].
  intros Hloop. apply (loop_pruned prod M fs fs' names Hnames); [|done].
  assert (Hrec : ∀ c s r, c ≠ [] →
            pruneModule fuel prod c s = Some r → prune_rec prod c s r).
  { intros c s r Hc Hr s' ->. apply IH; [by left|done]. }
  eapply for_each_loop_rel, Hloop.
  intros e s r _. unfold prune_entry_rel. destruct (scoped e).
  - destruct (readdir s _) as [subs|err']; [|by intros [= <-]].
    apply for_each_loop_rel. intros sub s1 r1 _. apply Hrec.
    by destruct M.
  - apply Hrec. by destruct M.
Qed.

(** ** Termination of pruning *)

Lemma depth_stat fs p : is_Some (stat fs p) → length p ≤ depth fs.
Proof.
  intros Hp%stat_is_Some%all_paths_lookup.
  apply max_list_elem_of_le, list_elem_of_fmap. by exists p.
Qed.

Lemma shrinks_remove_any p fs : shrinks fs (remove p fs).
Proof. destruct p; [apply shrinks_refl|by apply shrinks_remove]. Qed.

Lemma pruneModule_total prod fs0 fuel M fs :
  shrinks fs0 fs → depth fs0 < fuel + length M → 0 < fuel →
  ∃ r, pruneModule fuel prod M fs = Some r ∧ ∀ fs', r = Ok fs' → shrinks fs0 fs'.
Proof.
  revert M fs. induction fuel as [|fuel IH]; intros M fs Hsh Hfuel Hpos; [lia|].
  simpl. rewrite resolve_node_modules.
  destruct (set_has M prod); cycle 1.
  { eexists. split; [done|]. intros ? [= <-].
    eapply shrinks_trans; [done|apply shrinks_remove_any]. }
  destruct (pathExists fs (M ++ ["node_modules"])) eqn:Hnm; simpl; cycle 1.
  { eexists. split; [done|]. by intros ? [= <-]. }
  assert (Hdeep : length M + 1 ≤ depth fs0).
  { apply pathExists_stat in Hnm.
    rewrite (shrinks_is_Some _ _ _ Hsh Hnm) in Hnm.
    apply depth_stat in Hnm. by rewrite length_app in Hnm. }
  destruct (readdir fs (M ++ ["node_modules"])) as [names|err];
    [|by eexists].
  assert (Hrec : ∀ c s, length M < length c → shrinks fs0 s →
    ∃ r, pruneModule fuel prod c s = Some r ∧ ∀ s', r = Ok s' → shrinks fs0 s').
  { intros c s Hc Hs. apply IH; [done|lia|lia]. }
  apply (for_each_total _ (shrinks fs0)); [|done].
  intros e s _ Hs. destruct (scoped e).
  - destruct (readdir s _) as [subs|err]; [|by eexists].
    apply (for_each_total _ (shrinks fs0)); [|done].
    intros sub s1 _ Hs1. apply Hrec; [|done]. rewrite !length_app. simpl. lia.
  - apply Hrec; [|done]. rewrite !length_app. simpl. lia.
Qed.

(** [prune] returns, with a result or an exception, on every file system
    and root. *)
Lemma prune_total (fs : node) (rootModule : path) (fuel : nat) :
  prune_fuel fs ≤ fuel → is_Some (prune fuel fs rootModule).
Proof.
  intros Hfuel. unfold prune_fuel, build_fuel in Hfuel. unfold prune.
  destruct (loadProductionDependencies_total fs rootModule fuel) as [[w|e] ->];
    [unfold build_fuel; lia| |by eexists].
  destruct (pruneModule_total (prodPaths w) fs fuel rootModule fs)
    as ([fs'|e] & -> & _); [apply shrinks_refl|lia|lia|by eexists..].
Qed.


(** ** Package names and where they resolve *)

Lemma segment_ok_spec (a : string) :
  segment_ok a = true → a ≠ "" ∧ a ≠ "." ∧ a ≠ ".." ∧ a ≠ "node_modules".
Proof.
  unfold segment_ok. rewrite negb_true_iff, bool_decide_eq_false.
  intros Ha. split_and!; intros ->; apply Ha;
    repeat (first [by left|right]).
Qed.

Lemma scoped_spec (s : string) :
  scoped s = true → s ≠ "" ∧ s ≠ "." ∧ s ≠ ".." ∧ s ≠ "node_modules".
Proof. intros Hs. split_and!; by intros ->. Qed.

Lemma is_absolute_split (n : string) :
  is_absolute n = true → ∃ r, split_slash n = "" :: r.
Proof.
  destruct n as [|c n]; [done|]. simpl. intros ->. by eexists.
Qed.

Lemma push_segment (p : path) (a : string) (r : list string) :
  a ≠ "" → a ≠ "." → a ≠ ".." →
  push_segments p (a :: r) = push_segments (p ++ [a]) r.
Proof.
  intros H1 H2 H3. simpl.
  rewrite decide_False by (by intros [?|?]). by rewrite decide_False.
Qed.

(** A package name resolves, from any directory, to that directory's
    "node_modules" followed by the segments of the name. *)
Lemma relativeModule_package_name (n : string) :
  package_name n = true →
  ∃ segs, (∀ T, relativeModule T n = T ++ "node_modules" :: segs)
          ∧ name_segments segs.
Proof.
  unfold package_name. intros Hn.
  assert (Habs : is_absolute n = false).
  { destruct (is_absolute n) eqn:Habs; [|done].
    apply is_absolute_split in Habs as [r Hr]. rewrite Hr in Hn.
    by destruct r as [|? [|? ?]]. }
  destruct (split_slash n) as [|a [|b [|c r]]] eqn:Hsplit; [done| | |done].
  - apply andb_true_iff in Hn as [Ha Hsc]. apply negb_true_iff in Hsc.
    apply segment_ok_spec in Ha as (? & ? & ? & ?).
    exists [a]. split; [|left; by exists a].
    intros T. unfold relativeModule, resolve at 1. rewrite Habs, Hsplit.
    rewrite resolve_node_modules, push_segment by done. simpl.
    by rewrite <-app_assoc.
  - apply andb_true_iff in Hn as [Hsc Hb].
    apply segment_ok_spec in Hb as (? & ? & ? & ?).
    pose proof (scoped_spec _ Hsc) as (? & ? & ? & ?).
    exists [a; b]. split; [|right; by exists a, b].
    intros T. unfold relativeModule, resolve at 1. rewrite Habs, Hsplit.
    rewrite resolve_node_modules, !push_segment by done. simpl.
    by rewrite <-!app_assoc.
Qed.

Lemma relativeModule_module_below (T : path) (n : string) :
  package_name n = true → module_below T (relativeModule T n).
Proof.
  intros (segs & Hrel & [(a & -> & Ha & _)|(s & a & -> & Hs & _)])
    %relativeModule_package_name; rewrite Hrel.
  - by apply below_unscoped.
  - by apply below_scoped.
Qed.

Lemma ascend_module_below (q T : path) : module_below q T → ascend T = q.
Proof.
  intros [e He|s e Hs].
  - apply ascend_unscoped.
  - by apply ascend_scoped, scoped_not_node_modules.
Qed.

Lemma descriptors_ok_spec fs X pJ n :
  descriptors_ok fs = true →
  loadPackageJSON fs X = Ok (Some pJ) →
  n ∈ dependencies pJ ∨ n ∈ optionalDependencies pJ →
  package_name n = true.
Proof.
  unfold descriptors_ok. rewrite forallb_forall. intros Hok HpJ Hn.
  assert (HX : X ∈ all_paths fs).
  { apply all_paths_lookup. unfold loadPackageJSON in HpJ.
    destruct (pathExists fs (resolve X "package.json")) eqn:Hex; [|done].
    apply bool_decide_eq_true_1 in Hex.
    eapply lookup_prefix; [|done]. rewrite resolve_package_json.
    by apply prefix_app_r. }
  apply list_elem_of_In in HX. specialize (Hok X HX). rewrite HpJ in Hok.
  unfold names_ok in Hok. rewrite forallb_forall in Hok.
  apply Hok, list_elem_of_In, elem_of_app. tauto.
Qed.

Lemma search_reachable_iter fs n X st :
  search_reachable fs n X st → ∃ k, testPath st = Nat.iter k ascend X.
Proof.
  induction 1 as [|st Hst [k Hk] Hg]; [by exists 0|].
  unfold search_body. destruct (pathExists fs _); simpl.
  - by exists k.
  - exists (S k). simpl. by rewrite Hk.
Qed.

Lemma resolves_to_iter fs n X d :
  resolves_to fs n X d → ∃ k, d = relativeModule (Nat.iter k ascend X) n.
Proof.
  intros (st & Hst & Hd). apply search_reachable_end in Hst as [Hst _].
  destruct (search_reachable_iter _ _ _ _ Hst) as [k Hk]. exists k.
  destruct (search_reachable_discovered _ _ _ _ _ Hst Hd) as (_ & -> & _).
  by rewrite Hk.
Qed.

(** ** Members when all names are package names *)

Lemma kept_mono prod prod' rootModule p :
  prod ⊆ prod' → kept prod rootModule p → kept prod' rootModule p.
Proof.
  intros Hsub. induction 1 as [Hr|q p Hq IH Hp Hin].
  - apply kept_root. by apply Hsub.
  - eapply kept_below; [done..|]. by apply Hsub.
Qed.

Lemma anchored_mono prod prod' rootModule T :
  prod ⊆ prod' → anchored prod rootModule T → anchored prod' rootModule T.
Proof.
  intros Hsub. induction 1 as [T HT|T HT|T' n T HT' IH Hn -> Hin Hout].
  - apply anchored_kept. by eapply kept_mono.
  - by apply anchored_above.
  - eapply anchored_outside; [done..| |done]. by apply Hsub.
Qed.

Lemma above_ascend rootModule T : above rootModule T → above rootModule (ascend T).
Proof.
  intros [Hpre Hne]. split.
  - etrans; [apply ascend_prefix|done].
  - intros Heq. apply Hne. apply (anti_symm prefix); [done|].
    rewrite <-Heq. apply ascend_prefix.
Qed.

Lemma anchored_ascend prod rootModule T :
  anchored prod rootModule T → anchored prod rootModule (ascend T).
Proof.
  induction 1 as [T HT|T HT|T' n T HT' _ Hn -> Hin Hout].
  - destruct HT as [Hr|q p Hq Hp Hin].
    + destruct (decide (ascend rootModule = rootModule)) as [->|Hne].
      * by apply anchored_kept, kept_root.
      * apply anchored_above. split; [apply ascend_prefix|done].
    + rewrite (ascend_module_below q p) by done. by apply anchored_kept.
  - by apply anchored_above, above_ascend.
  - by rewrite (ascend_module_below T' _ (relativeModule_module_below _ _ Hn)).
Qed.

Lemma anchored_iter prod rootModule T k :
  anchored prod rootModule T → anchored prod rootModule (Nat.iter k ascend T).
Proof.
  intros HT. induction k as [|k IH]; [done|]. simpl. by apply anchored_ascend.
Qed.

Lemma outside_or_inside rootModule p :
  outside rootModule p ∨ ∃ e k, p = rootModule ++ ["node_modules"; e] ++ k.
Proof.
  destruct (decide ((rootModule ++ ["node_modules"]) `prefix_of` p))
    as [[[|e k] ->]|Hn].
  - left. intros e [k Hk]. rewrite <-!app_assoc in Hk.
    apply app_inv_head in Hk. done.
  - right. exists e, k. by rewrite <-app_assoc.
  - left. intros e He. apply Hn. etrans; [|done].
    apply prefix_app, prefix_cons, prefix_nil.
Qed.

Lemma above_outside rootModule T : above rootModule T → outside rootModule T.
Proof.
  intros [Hpre Hne] e He.
  pose proof (prefix_length _ _ (transitivity He Hpre)) as Hlen.
  rewrite length_app in Hlen. simpl in Hlen. lia.
Qed.

Lemma above_not_inside rootModule T segs e k :
  above rootModule T → name_segments segs →
  T ++ "node_modules" :: segs = rootModule ++ ["node_modules"; e] ++ k →
  False.
Proof.
  intros [[r ->] Hne] Hsegs Heq.
  rewrite <-app_assoc in Heq. apply app_inv_head in Heq.
  destruct r as [|x r]; [by rewrite app_nil_r in Hne|].
  destruct Hsegs as [(a & -> & _)|(s & a & -> & Hs & _)].
  - destruct r as [|y r]; simplify_eq/=. destruct r; simplify_eq/=.
  - destruct r as [|y r]; simplify_eq/=.
    destruct r as [|z r]; simplify_eq/=. destruct r; simplify_eq/=.
Qed.

Lemma node_modules_not_found T' rootModule segs :
  name_segments segs →
  T' ++ "node_modules" :: segs ≠ rootModule ++ ["node_modules"].
Proof.
  intros Hsegs Heq.
  assert (Hlast : List.last (T' ++ "node_modules" :: segs) "" = "node_modules").
  { rewrite Heq. apply last_last. }
  destruct Hsegs as [(a & -> & _ & Ha)|(s & a & -> & _ & Ha)].
  - change (T' ++ ["node_modules"; a]) with (T' ++ ["node_modules"] ++ [a]) in Hlast.
    rewrite app_assoc, last_last in Hlast. done.
  - change (T' ++ ["node_modules"; s; a])
      with (T' ++ ["node_modules"; s] ++ [a]) in Hlast.
    rewrite app_assoc, last_last in Hlast. done.
Qed.

Lemma prefix_snoc_inv (l k : path) (x : string) :
  l `prefix_of` k ++ [x] → l = k ++ [x] ∨ l `prefix_of` k.
Proof.
  intros [r Hr]. destruct r as [|y r _] using rev_ind.
  - left. by rewrite app_nil_r in Hr.
  - right. rewrite app_assoc in Hr. apply app_inj_tail in Hr as [-> _].
    by apply prefix_app_r.
Qed.

(** What a package name resolves to, from a place where the search can
    stand, is a place where it can stand once it is a member. *)
Lemma anchored_found prod rootModule T n :
  rootModule ∈ prod → anchored prod rootModule T → package_name n = true →
  anchored (set_add (relativeModule T n) prod) rootModule (relativeModule T n).
Proof.
  intros Hroot HT Hn.
  destruct (relativeModule_package_name n Hn) as (segs & Hrel & Hsegs).
  assert (Hsub : prod ⊆ set_add (relativeModule T n) prod).
  { intros p Hp. apply elem_of_set_add. by right. }
  assert (Hin : relativeModule T n ∈ set_add (relativeModule T n) prod).
  { apply elem_of_set_add. by left. }
  assert (Hkept : kept prod rootModule T →
    anchored (set_add (relativeModule T n) prod) rootModule (relativeModule T n)).
  { intros Hk. apply anchored_kept. eapply kept_below; [|by apply relativeModule_module_below|done].
    by eapply kept_mono. }
  destruct (outside_or_inside rootModule (relativeModule T n))
    as [Hout|(e & k & HM)].
  { eapply anchored_outside; [by eapply anchored_mono|done|done|done|done]. }
  rewrite Hrel in HM.
  destruct HT as [T HT|T HT|T' n' T HT' Hn' HT0 HTin HTout].
  - by apply Hkept.
  - by destruct (above_not_inside _ _ _ _ _ HT Hsegs HM).
  - assert (Hcmp : T `prefix_of` rootModule ++ ["node_modules"; e]
                   ∨ (rootModule ++ ["node_modules"; e]) `prefix_of` T).
    { apply (prefix_weak_total _ _ (T ++ "node_modules" :: segs)).
      - by apply prefix_app_r.
      - rewrite HM, app_assoc. by apply prefix_app_r. }
    destruct Hcmp as [Hcmp|Hcmp]; [|by destruct (HTout e)].
    change (rootModule ++ ["node_modules"; e])
      with (rootModule ++ ["node_modules"] ++ [e]) in Hcmp.
    rewrite app_assoc in Hcmp.
    apply prefix_snoc_inv in Hcmp as [->|Hcmp].
    { destruct (HTout e). by rewrite <-app_assoc. }
    apply prefix_snoc_inv in Hcmp as [HTnm|Hcmp].
    { destruct (relativeModule_package_name n' Hn') as (segs' & Hrel' & Hsegs').
      rewrite HT0, Hrel' in HTnm. by destruct (node_modules_not_found _ _ _ Hsegs' HTnm). }
    destruct (decide (T = rootModule)) as [->|Hne].
    + by apply Hkept, kept_root.
    + by destruct (above_not_inside rootModule T segs e k).
Qed.

(** When the keys of all descriptors are package names, the traversal
    keeps every member where the search can stand. *)
Lemma forModule_anchored fs rootModule fuel X allow w w' :
  descriptors_ok fs = true →
  loadProductionDependenciesForModule fuel fs X allow w = Some (Ok w') →
  rootModule ∈ set_add X (prodPaths w) →
  anchored (set_add X (prodPaths w)) rootModule X →
  (∀ m, m ∈ prodPaths w → anchored (prodPaths w) rootModule m) →
  ∀ m, m ∈ prodPaths w' → anchored (prodPaths w') rootModule m.
Proof.
  intros Hok.
  set (Inv := λ w : Walker, ∀ m, m ∈ prodPaths w → anchored (prodPaths w) rootModule m).
  set (R := λ (X : path) (allow : bool) w r,
    ∀ w', r = Ok w' → rootModule ∈ set_add X (prodPaths w) →
          anchored (set_add X (prodPaths w)) rootModule X → Inv w →
          grows w w' ∧ Inv w').
  intros H. revert w' H.
  cut (∀ r, loadProductionDependenciesForModule fuel fs X allow w = Some r →
            R X allow w r).
  { intros Hr w' H ???. by apply (Hr _ H). }
  assert (Hrecord : ∀ X allow w,
    rootModule ∈ set_add X (prodPaths w) →
    anchored (set_add X (prodPaths w)) rootModule X → Inv w →
    Inv (record_module X allow w)).
  { intros X' allow' w0 _ HX Hinv m. simpl.
    intros [->|Hm]%elem_of_set_add; [done|].
    eapply anchored_mono; [|by apply Hinv].
    intros p Hp. apply elem_of_set_add. by right. }
  revert fuel X allow w. apply (forModule_rule fs R); unfold R.
  - intros X allow w HX w' [= <-] _ _ Hinv. split; [apply grows_refl|done].
  - done.
  - intros X allow w HX _ w' [= <-] Hroot Hanch Hinv.
    split; [by apply grows_record|by apply Hrecord].
  - intros X allow w pJ r1 r HX HpJ H1 H2 w' -> Hroot Hanch Hinv.
    set (pre := λ s : Walker,
           X ∈ prodPaths s ∧ rootModule ∈ prodPaths s ∧ Inv s).
    assert (Hloop : ∀ allow' keys wa wb,
      (∀ name, name ∈ keys → package_name name = true) →
      loop_rel (in_module_rel (λ X allow w r,
        ∀ w', r = Ok w' → rootModule ∈ set_add X (prodPaths w) →
              anchored (set_add X (prodPaths w)) rootModule X → Inv w →
              grows w w' ∧ Inv w') fs X allow') keys wa (Ok wb) →
      pre wa → grows wa wb ∧ pre wb).
    { intros allow' keys wa wb Hkeys.
      apply (loop_rel_ok_inv _ (λ wa wb, pre wa → grows wa wb ∧ pre wb)).
      - intros s Hs. split; [apply grows_refl|done].
      - intros s1 s2 s3 H12 H23 Hs1.
        destruct (H12 Hs1) as [Hg12 Hs2]. destruct (H23 Hs2) as [Hg23 Hs3].
        split; [by eapply grows_trans|done].
      - intros name s s' Hname.
        apply (in_module_rel_ok_inv (λ wa wb, pre wa → grows wa wb ∧ pre wb)).
        { intros s0 Hs0. split; [apply grows_refl|done]. }
        intros d wc wd [k ->]%resolves_to_iter HR (HXc & Hrc & Hic).
        destruct (HR _ eq_refl) as [Hg Hid].
        + apply elem_of_set_add. by right.
        + apply anchored_found; [done| |by apply Hkeys].
          apply anchored_iter. by apply Hic.
        + done.
        + split; [done|]. pose proof (grows_subseteq _ _ Hg).
          split_and!; auto. }
    destruct r1 as [w1|e]; [|done].
    assert (Hpre1 : pre (record_module X allow w)).
    { split_and!; [apply record_module_elem|done|by apply Hrecord]. }
    destruct (Hloop _ _ _ _ (λ n Hn, descriptors_ok_spec fs X pJ n Hok HpJ (or_introl Hn))
                H1 Hpre1) as [Hg1 Hpre2].
    destruct (Hloop _ _ _ _ (λ n Hn, descriptors_ok_spec fs X pJ n Hok HpJ (or_intror Hn))
                H2 Hpre2) as [Hg2 (_ & _ & Hinv')].
    split; [|done].
    eapply grows_trans; [by apply grows_record|]. by eapply grows_trans.
Qed.

(** ** What pruning keeps and deletes *)

Lemma prune_inv fuel fs rootModule prod fs' :
  prune fuel fs rootModule = Some (Ok (prod, fs')) →
  ∃ w, loadProductionDependencies fuel fs rootModule = Some (Ok w)
       ∧ prod = prodPaths w
       ∧ pruneModule fuel prod rootModule fs = Some (Ok fs').
Proof.
  unfold prune.
  destruct (loadProductionDependencies fuel fs rootModule) as [[w|e]|]; [|done..].
  destruct (pruneModule fuel (prodPaths w) rootModule fs) as [[fs1|e]|] eqn:Hp;
    [|done..].
  intros [= <- <-]. by exists w.
Qed.

Lemma prune_members_untouched fuel fs rootModule prod fs' :
  descriptors_ok fs = true →
  prune fuel fs rootModule = Some (Ok (prod, fs')) →
  ∀ p, p ∈ prod → stat fs' p = stat fs p.
Proof.
  intros Hok (w & Hw & -> & Hprune)%prune_inv p Hp.
  pose proof (proj1 (root_is_member_aux _ _ _ _ Hw)) as Hroot.
  assert (Hanch : anchored (prodPaths w) rootModule p).
  { eapply (forModule_anchored fs rootModule); [done|exact Hw| | | |done].
    - apply elem_of_set_add. by left.
    - apply anchored_kept, kept_root, elem_of_set_add. by left.
    - intros m Hm. by apply elem_of_nil in Hm. }
  apply pruneModule_pruned in Hprune as [_ _ _ _ _ Hkept Hout]; [|by right].
  destruct Hanch as [T HT|T HT|T' n T HT' Hn HT0 HTin HTout].
  - by apply Hkept.
  - by apply Hout, above_outside.
  - by apply Hout.
Qed.

(** C1, as the code has it: when [prune] returns, from the file system
    [fs] to [fs'] with the production set [prod] built on [fs]:
    every installed module directory that remains under the root is in
    [prod]; every installed module directory of [fs] that is not in [prod]
    is gone; nothing was created or altered, only deleted; a member
    directory is left as it was whenever the module directories that
    enclose it, up to the root, are members too; and every member directory
    is left as it was when the keys of the [dependencies] and
    [optionalDependencies] maps of the descriptors are package names. *)
Theorem prune_keeps_the_production_set (fuel : nat) (fs : node)
    (rootModule : path) (prod : list path) (fs' : node) :
  prune fuel fs rootModule = Some (Ok (prod, fs')) →
  (∃ w, loadProductionDependencies fuel fs rootModule = Some (Ok w)
        ∧ prod = prodPaths w)
  ∧ (∀ p, installed fs' rootModule p → p ∈ prod)
  ∧ (∀ p, installed fs rootModule p → p ∉ prod → stat fs' p = None)
  ∧ shrinks fs fs'
  ∧ (∀ p, kept prod rootModule p → stat fs' p = stat fs p)
  ∧ (descriptors_ok fs = true → ∀ p, p ∈ prod → stat fs' p = stat fs p).
Proof.
  intros Hp. pose proof Hp as (w & Hw & -> & Hprune)%prune_inv.
  pose proof (proj1 (root_is_member_aux _ _ _ _ Hw)) as Hroot.
  apply pruneModule_pruned in Hprune as [Hsh _ _ Hclean Hremoved Hkept _];
    [|by right].
  split_and!; [by exists w|done| |done|done|].
  - intros p Hin Hn. eapply Hremoved; [apply shrinks_refl|done..].
  - intros Hok. by eapply prune_members_untouched.
Qed.

Lemma prune_keeps_the_production_set_witness :
  ∃ prod fs',
    prune 3 scenario_fs ["app"] = Some (Ok (prod, fs'))
    ∧ stat fs' ["app"; "node_modules"; "b"] = None
    ∧ stat fs' ["app"; "node_modules"; "a"]
      = stat scenario_fs ["app"; "node_modules"; "a"].
Proof.
  eexists _, _.
  assert (H : prune 3 scenario_fs ["app"]
    = Some (Ok ([["app"]; ["app"; "node_modules"; "a"]],
                Dir [("app", Dir [
                  ("package.json", descriptor ["a"] ["b"] []);
                  ("node_modules", Dir [
                    ("a", Dir [("package.json", descriptor [] [] [])])])])])))
    by (vm_compute; reflexivity).
  split; [exact H|].
  destruct (prune_keeps_the_production_set _ _ _ _ _ H)
    as (_ & _ & Hremoved & _ & _ & Hmembers).
  split.
  - apply Hremoved.
    + apply installed_direct; [by apply (below_unscoped ["app"] "b")|by eexists].
    + intros Hb. apply elem_of_cons in Hb as [Hb|Hb]; [done|].
      apply elem_of_cons in Hb as [Hb|Hb]; [done|]. by apply elem_of_nil in Hb.
  - apply Hmembers; [reflexivity|]. right. left.
Defined.

(** C1 as stated fails for a member that lies inside a directory which is
    not a member: "/app" lists "b/lib", which resolves into the package
    "b"; "b" itself is not a member and is deleted with all it holds. *)
Lemma prune_deletes_member_inside_non_member :
  ¬ (∀ (fuel : nat) (fs : node) (rootModule : path) (prod : list path)
       (fs' : node),
       prune fuel fs rootModule = Some (Ok (prod, fs')) →
       ∀ p, p ∈ prod → is_Some (stat fs p) → is_Some (stat fs' p)).
Proof.
  intros H.
  assert (Hp : prune 4 subpath_fs ["app"]
    = Some (Ok ([["app"]; ["app"; "node_modules"; "b"; "lib"]],
                Dir [("app", Dir [
                  ("package.json", descriptor ["b/lib"] [] []);
                  ("node_modules", Dir [])])])))
    by (vm_compute; reflexivity).
  destruct (H _ _ _ _ _ Hp ["app"; "node_modules"; "b"; "lib"]) as [k Hk].
  - right. left.
  - by eexists.
  - done.
Qed.




(** * Further properties *)

(** ** The search returns the first candidate that exists *)

Lemma candidate_inj n X j k :
  package_name n = true → candidate n X j = candidate n X k →
  Nat.iter j ascend X = Nat.iter k ascend X.
Proof.
  intros (segs & Hrel & _)%relativeModule_package_name. unfold candidate.
  rewrite !Hrel. by intros ?%app_inv_tail.
Qed.

Lemma iter_ascend_fixed X k j :
  ascend (Nat.iter k ascend X) = Nat.iter k ascend X → k ≤ j →
  Nat.iter j ascend X = Nat.iter k ascend X.
Proof.
  intros Hfix Hle. induction Hle as [|j Hle IH]; [done|].
  simpl. by rewrite IH.
Qed.

Lemma search_loop_from fs n X fuel k st' :
  package_name n = true →
  (∀ j, j < k → pathExists fs (candidate n X j) = false) →
  search_loop fuel fs n (search_at n X k) = Some st' →
  match discoveredPath st' with
  | Some d => ∃ m, d = candidate n X m ∧ pathExists fs d = true
                   ∧ ∀ j, j < m → pathExists fs (candidate n X j) = false
  | None => ∀ j, pathExists fs (candidate n X j) = false
  end.
Proof.
  intros Hn. revert k. induction fuel as [|fuel IH]; intros k Hprev; [done|].
  simpl. unfold search_guard. simpl.
  fold (candidate n X k).
  case_bool_decide as Hlast; simpl.
  - (* the candidate is the previous one: the ascent has stalled *)
    intros [= <-]. simpl. destruct k as [|k]; [done|].
    simpl in Hlast. injection Hlast as Hlast.
    apply candidate_inj in Hlast; [|done].
    intros j. destruct (decide (j < S k)) as [|Hge]; [by apply Hprev|].
    unfold candidate. rewrite (iter_ascend_fixed X k j); [|done|lia].
    apply (Hprev k). lia.
  - unfold search_body. simpl. fold (candidate n X k).
    destruct (pathExists fs (candidate n X k)) eqn:Hex.
    + destruct fuel as [|fuel]; [done|].
      rewrite search_loop_stop by (by apply search_guard_discovered; eexists).
      intros [= <-]. simpl. by exists k.
    + intros Hloop. apply (IH (S k)); [|exact Hloop].
      intros j Hj. destruct (decide (j = k)) as [->|]; [done|].
      apply Hprev. lia.
Qed.

(** X1: for a package name, the search discovers the first candidate that
    exists, the candidates being the name in the "node_modules" of
    [modulePath] and of its successive ascents (all ancestors of
    [modulePath]); it ends with nothing exactly when none of them exists. *)
Theorem search_finds_first_existing_candidate (fs : node) (moduleName : string)
    (modulePath : path) :
  package_name moduleName = true →
  (∀ d, resolves_to fs moduleName modulePath d
        ↔ ∃ k, d = candidate moduleName modulePath k
               ∧ pathExists fs d = true
               ∧ ∀ j, j < k → pathExists fs (candidate moduleName modulePath j) = false)
  ∧ ((∃ st, search fs moduleName modulePath = Some st ∧ discoveredPath st = None)
     ↔ ∀ k, pathExists fs (candidate moduleName modulePath k) = false)
  ∧ ∀ k, Nat.iter k ascend modulePath `prefix_of` modulePath.
Proof.
  intros Hn.
  destruct (search_total fs moduleName modulePath) as [st Hst].
  pose proof (search_loop_from fs moduleName modulePath _ 0 st Hn
                ltac:(intros; lia) Hst) as Hend.
  split_and!.
  - intros d. split.
    + intros (st' & Hst' & Hd). simplify_eq. by rewrite Hd in Hend.
    + intros (k & -> & Hex & Hmin). exists st. split; [done|].
      destruct (discoveredPath st) as [d|].
      * destruct Hend as (m & -> & Hex' & Hmin'). f_equal.
        destruct (Nat.lt_trichotomy m k) as [Hlt|[->|Hlt]]; [|done|].
        -- rewrite (Hmin m Hlt) in Hex'. done.
        -- rewrite (Hmin' k Hlt) in Hex. done.
      * rewrite Hend in Hex. done.
  - split.
    + intros (st' & Hst' & Hd). simplify_eq. by rewrite Hd in Hend.
    + intros Hnone. exists st. split; [done|].
      destruct (discoveredPath st) as [d|]; [|done].
      destruct Hend as (m & -> & Hex & _). rewrite Hnone in Hex. done.
  - intros k. induction k as [|k IH]; [done|].
    simpl. etrans; [apply ascend_prefix|done].
Qed.

Lemma search_finds_first_existing_candidate_witness :
  package_name "a" = true
  ∧ resolves_to scenario_fs "a" ["app"; "node_modules"; "b"]
      ["app"; "node_modules"; "a"].
Proof.
  assert (H : package_name "a" = true) by reflexivity.
  split; [exact H|].
  apply (proj1 (search_finds_first_existing_candidate scenario_fs "a"
                  ["app"; "node_modules"; "b"] H)).
  exists 1. split_and!; [reflexivity|reflexivity|].
  intros j Hj. assert (j = 0) as -> by lia. reflexivity.
Defined.

(** ** The production set is the set of reachable modules *)

Lemma resolves_to_exists fs n X Y :
  resolves_to fs n X Y → pathExists fs Y = true.
Proof.
  intros (st & Hs & Hd). apply search_reachable_end in Hs as [Hs _].
  by destruct (search_reachable_discovered _ _ _ _ _ Hs Hd) as (_ & _ & ?).
Qed.

Lemma settled_mono fs S S' Z : S ⊆ S' → settled fs S Z → settled fs S' Z.
Proof. intros Hsub [Hread Hclosed]. split; [done|]. intros Y HY. auto. Qed.

Lemma grows_settled_refl fs w : grows_settled fs w w.
Proof. split; [apply grows_refl|]. intros Z HZ. by left. Qed.

Lemma grows_settled_trans fs w1 w2 w3 :
  grows_settled fs w1 w2 → grows_settled fs w2 w3 → grows_settled fs w1 w3.
Proof.
  intros [Hg12 H12] [Hg23 H23]. split; [by eapply grows_trans|].
  intros Z HZ. destruct (H23 Z HZ) as [HZ2|?]; [|by right].
  destruct (H12 Z HZ2) as [?|Hs]; [by left|right].
  eapply settled_mono; [|done]. by apply grows_subseteq.
Qed.

Lemma forModule_settled fs fuel X allow w w' :
  loadProductionDependenciesForModule fuel fs X allow w = Some (Ok w') →
  grows_settled fs w w' ∧ X ∈ prodPaths w'.
Proof.
  set (R := λ (X : path) (allow : bool) w r,
    ∀ w', r = Ok w' → grows_settled fs w w' ∧ X ∈ prodPaths w').
  intros H. revert w' H.
  cut (∀ r, loadProductionDependenciesForModule fuel fs X allow w = Some r →
            R X allow w r).
  { intros Hr w' H. by apply (Hr _ H). }
  revert fuel X allow w. apply (forModule_rule fs R); unfold R; clear R.
  - intros X allow w HX w' [= <-]. split; [apply grows_settled_refl|done].
  - done.
  - intros X allow w HX HpJ w' [= <-].
    split; [|apply record_module_elem].
    split; [by apply grows_record|].
    intros Z. simpl. intros [->|?]%elem_of_set_add; [right|by left].
    split; [congruence|].
    intros Y [(pJ & n & HpJ' & _)|(pJ & n & HpJ' & _)]; congruence.
  - intros X allow w pJ r1 r HX HpJ H1 H2 w' ->.
    set (step := λ allow',
      in_module_rel (λ X allow w r,
        ∀ w', r = Ok w' → grows_settled fs w w' ∧ X ∈ prodPaths w') fs X allow').
    assert (Hstep : ∀ allow' name s s',
      step allow' name s (Ok s') →
      grows_settled fs s s'
      ∧ ∀ Y, resolves_to fs name X Y → Y ∈ prodPaths s').
    { intros allow' name s s' (st & Hst & Hd).
      destruct (discoveredPath st) as [d|] eqn:Hdisc.
      - destruct (Hd _ eq_refl) as [Hg Hin]. split; [done|].
        intros Y (st' & Hst' & Hd'). congruence.
      - assert (s' = s) as -> by (destruct allow'; congruence).
        split; [apply grows_settled_refl|].
        intros Y (st' & Hst' & Hd'). congruence. }
    assert (Hloop : ∀ allow' keys wa wb,
      loop_rel (step allow') keys wa (Ok wb) →
      grows_settled fs wa wb
      ∧ ∀ name Y, name ∈ keys → resolves_to fs name X Y → Y ∈ prodPaths wb).
    { intros allow' keys wa wb Hl. split.
      - revert Hl. apply loop_rel_ok_inv;
          [apply grows_settled_refl|apply grows_settled_trans|].
        intros name s s' _ Hs. by apply (Hstep allow' name).
      - intros name Y Hname HY.
        destruct (loop_rel_split (step allow') (grows_settled fs) keys
                    (grows_settled_refl fs) (grows_settled_trans fs)
                    (λ x s s' _ Hs, proj1 (Hstep allow' x s s' Hs))
                    _ _ Hl name Hname) as (si & si' & _ & Hs & [Hg _]).
        eapply grows_subseteq; [done|]. by apply (Hstep allow' name si si'). }
    destruct r1 as [w1|e]; [|done].
    destruct (Hloop _ _ _ _ H1) as [Hgs1 Hin1].
    destruct (Hloop _ _ _ _ H2) as [Hgs2 Hin2].
    pose proof (grows_settled_trans _ _ _ _ Hgs1 Hgs2) as [Hg Hs].
    assert (HXw' : X ∈ prodPaths w').
    { eapply grows_subseteq; [done|apply record_module_elem]. }
    split; [|done]. split.
    { eapply grows_trans; [by apply grows_record|done]. }
    intros Z HZ. destruct (Hs Z HZ) as [HZ1|?]; [|by right].
    simpl in HZ1. apply elem_of_set_add in HZ1 as [->|?]; [right|by left].
    split; [congruence|].
    intros Y [(pJ' & n & HpJ' & Hn & HY)|(pJ' & n & HpJ' & Hn & HY)];
      assert (pJ' = pJ) as -> by congruence.
    + eapply grows_subseteq; [apply Hgs2|]. by eapply Hin1.
    + by eapply Hin2.
Qed.

Lemma build_settled fs fuel rootModule w Z :
  loadProductionDependencies fuel fs rootModule = Some (Ok w) →
  Z ∈ prodPaths w → settled fs (prodPaths w) Z.
Proof.
  intros [[_ Hs] _]%forModule_settled HZ.
  destruct (Hs Z HZ) as [Hnil|?]; [|done]. by apply elem_of_nil in Hnil.
Qed.

Lemma build_closed fs fuel rootModule w M :
  loadProductionDependencies fuel fs rootModule = Some (Ok w) →
  rtc (production_edge fs) rootModule M → M ∈ prodPaths w.
Proof.
  intros H Hreach. revert M Hreach.
  apply (rtc_ind_r (λ M, M ∈ prodPaths w)).
  - by apply forModule_grows in H as [_ ?].
  - intros Z Y _ Hedge IH. by apply (build_settled _ _ _ _ Z H IH).
Qed.


(** X2: when the build returns a set, the set holds exactly the module
    directories that can be reached from the root along resolved keys of
    [dependencies] and [optionalDependencies] maps: it is closed under
    these edges, so it does not depend on the order of the keys. *)
Theorem production_set_is_reachable_set (fuel : nat) (fs : node)
    (rootModule : path) (w : Walker) :
  loadProductionDependencies fuel fs rootModule = Some (Ok w) →
  ∀ M, M ∈ prodPaths w ↔ rtc (production_edge fs) rootModule M.
Proof.
  intros H M. split.
  - intros HM. eapply forModule_reachable; [exact H|done| |exact HM].
    intros m Hm. by apply elem_of_nil in Hm.
  - exact (build_closed _ _ _ _ _ H).
Qed.

Lemma production_set_is_reachable_set_witness :
  loadProductionDependencies 3 scenario_fs ["app"]
  = Some (Ok {| prodPaths := [["app"]; ["app"; "node_modules"; "a"]];
                expanded := [(["app"], false);
                             (["app"; "node_modules"; "a"], false)] |})
  ∧ ¬ rtc (production_edge scenario_fs) ["app"] ["app"; "node_modules"; "b"].
Proof.
  assert (H : loadProductionDependencies 3 scenario_fs ["app"]
    = Some (Ok {| prodPaths := [["app"]; ["app"; "node_modules"; "a"]];
                  expanded := [(["app"], false);
                               (["app"; "node_modules"; "a"], false)] |}))
    by (vm_compute; reflexivity).
  split; [exact H|].
  intros Hb%(production_set_is_reachable_set 3 scenario_fs ["app"] _ H).
  simpl in Hb.
  apply elem_of_cons in Hb as [Hb|Hb]; [done|].
  apply elem_of_cons in Hb as [Hb|Hb]; [done|]. by apply elem_of_nil in Hb.
Defined.

(** X3: every member of the set other than the root exists on disk (at
    the time of the build) and is what a key of the [dependencies] or
    [optionalDependencies] map of another member resolved to: one of the
    candidates of that key from that member. *)
Theorem members_exist_and_were_resolved (fuel : nat) (fs : node)
    (rootModule : path) (w : Walker) (M : path) :
  loadProductionDependencies fuel fs rootModule = Some (Ok w) →
  M ∈ prodPaths w → M ≠ rootModule →
  pathExists fs M = true
  ∧ ∃ Z pJ name k,
      Z ∈ prodPaths w ∧ loadPackageJSON fs Z = Ok (Some pJ)
      ∧ (name ∈ dependencies pJ ∨ name ∈ optionalDependencies pJ)
      ∧ M = candidate name Z k.
Proof.
  intros H HM Hne.
  assert (Hreach : rtc (production_edge fs) rootModule M).
  { eapply forModule_reachable; [exact H|done| |exact HM].
    intros m Hm. by apply elem_of_nil in Hm. }
  apply rtc_inv_r in Hreach as [?|(Z & HZ & Hedge)]; [congruence|].
  assert (HZin : Z ∈ prodPaths w) by exact (build_closed _ _ _ _ _ H HZ).
  assert (Hcases : ∃ pJ name, loadPackageJSON fs Z = Ok (Some pJ)
            ∧ (name ∈ dependencies pJ ∨ name ∈ optionalDependencies pJ)
            ∧ resolves_to fs name Z M).
  { destruct Hedge as [(pJ & n & ? & ? & ?)|(pJ & n & ? & ? & ?)];
      exists pJ, n; auto. }
  destruct Hcases as (pJ & name & HpJ & Hname & Hres).
  split; [by eapply resolves_to_exists|].
  destruct (resolves_to_iter _ _ _ _ Hres) as [k ->].
  by exists Z, pJ, name, k.
Qed.

Lemma members_exist_and_were_resolved_witness :
  loadProductionDependencies 3 scenario_fs ["app"]
  = Some (Ok {| prodPaths := [["app"]; ["app"; "node_modules"; "a"]];
                expanded := [(["app"], false);
                             (["app"; "node_modules"; "a"], false)] |})
  ∧ pathExists scenario_fs ["app"; "node_modules"; "a"] = true.
Proof.
  assert (H : loadProductionDependencies 3 scenario_fs ["app"]
    = Some (Ok {| prodPaths := [["app"]; ["app"; "node_modules"; "a"]];
                  expanded := [(["app"], false);
                               (["app"; "node_modules"; "a"], false)] |}))
    by (vm_compute; reflexivity).
  split; [exact H|].
  refine (proj1 (members_exist_and_were_resolved 3 scenario_fs ["app"] _
                   ["app"; "node_modules"; "a"] H _ _)); [|done].
  right. left.
Defined.

(** ** The exceptions of the build *)

Lemma loadPackageJSON_Err fs X e :
  loadPackageJSON fs X = Err e →
  e = JsonError (resolve X "package.json")
  ∧ pathExists fs (resolve X "package.json") = true.
Proof.
  unfold loadPackageJSON. destruct (pathExists fs _); [|done].
  destruct (lookup _ fs) as [[[| |?]|?]|]; intros; by simplify_eq.
Qed.

(** An exception other than the resolution error is the one that reading
    the descriptor of a module reachable from the starting module raised. *)
Lemma forModule_json_error fs fuel X allow w e :
  loadProductionDependenciesForModule fuel fs X allow w = Some (Err e) →
  (∀ name p, e ≠ ResolutionError name p) →
  ∃ Z, rtc (production_edge fs) X Z ∧ loadPackageJSON fs Z = Err e.
Proof.
  intros H Hne.
  set (R := λ (X : path) (allow : bool) (w : Walker) (r : result Walker),
    r = Err e →
    ∃ Z, rtc (production_edge fs) X Z ∧ loadPackageJSON fs Z = Err e).
  cut (∀ r, loadProductionDependenciesForModule fuel fs X allow w = Some r →
            R X allow w r).
  { intros Hr. by apply (Hr _ H). }
  clear H. revert fuel X allow w. apply (forModule_rule fs R); unfold R; clear R.
  - done.
  - intros X allow w e' HX HpJ [= ->]. by exists X.
  - done.
  - intros X allow w pJ r1 r HX HpJ H1 H2 ->.
    assert (Hloop : ∀ allow' (keys : PackageJSON → list string) wa,
      loop_rel (in_module_rel (λ X allow w r, r = Err e →
          ∃ Z, rtc (production_edge fs) X Z ∧ loadPackageJSON fs Z = Err e)
        fs X allow') (keys pJ) wa (Err e) →
      ∃ d Z, edge_by keys fs X d ∧ rtc (production_edge fs) d Z
             ∧ loadPackageJSON fs Z = Err e).
    { intros allow' keys wa Hl.
      apply loop_rel_err in Hl as (x & si & Hx & st & Hst & Hd).
      destruct (discoveredPath st) as [d|] eqn:Hdisc.
      - destruct (Hd eq_refl) as (Z & Hrtc & HZ).
        exists d, Z. split_and!; [|done..].
        exists pJ, x. split_and!; [done..|]. by exists st.
      - destruct allow'; simplify_eq. by destruct (Hne x X). }
    destruct r1 as [w1|e1].
    + destruct (Hloop true optionalDependencies w1 H2) as (d & Z & Hedge & ? & ?).
      exists Z. split; [|done]. eapply rtc_l; [|done]. by right.
    + simplify_eq.
      destruct (Hloop allow dependencies _ H1) as (d & Z & Hedge & ? & ?).
      exists Z. split; [|done]. eapply rtc_l; [|done]. by left.
Qed.

Lemma build_error_origin fs fuel rootModule e :
  loadProductionDependencies fuel fs rootModule = Some (Err e) →
  (∃ Z, rtc (production_edge fs) rootModule Z
        ∧ loadPackageJSON fs Z = Err e)
  ∨ (∃ name p pJ,
        e = ResolutionError name p
        ∧ rtc (required_edge fs) rootModule p
        ∧ loadPackageJSON fs p = Ok (Some pJ) ∧ name ∈ dependencies pJ
        ∧ ∀ d, ¬ resolves_to fs name p d).
Proof.
  intros H. destruct e as [name p|f|f].
  - right. apply forModule_resolution_error in H
      as (_ & Hrtc & pJ & st & HpJ & Hname & Hst & Hd).
    exists name, p, pJ. split_and!; [done..|].
    intros d (st' & Hst' & Hd'). congruence.
  - left. by apply forModule_json_error in H.
  - left. by apply forModule_json_error in H.
Qed.

(** X4: an exception of the build is either the one raised by reading the
    descriptor of a module reachable from the root -- the descriptor file
    exists and the exception names it -- or the resolution error for a
    key of the [dependencies] of a module reached through [dependencies]
    edges alone, a key that resolves to nothing from there.  The build
    raises nothing else. *)
Theorem build_exceptions (fuel : nat) (fs : node) (rootModule : path)
    (e : error) :
  loadProductionDependencies fuel fs rootModule = Some (Err e) →
  (∃ Z, rtc (production_edge fs) rootModule Z
        ∧ e = JsonError (resolve Z "package.json")
        ∧ pathExists fs (resolve Z "package.json") = true
        ∧ loadPackageJSON fs Z = Err e)
  ∨ (∃ name p pJ,
        e = ResolutionError name p
        ∧ rtc (required_edge fs) rootModule p
        ∧ loadPackageJSON fs p = Ok (Some pJ) ∧ name ∈ dependencies pJ
        ∧ ∀ d, ¬ resolves_to fs name p d).
Proof.
  intros [(Z & Hrtc & HZ)|?]%build_error_origin; [left|by right].
  exists Z. by destruct (loadPackageJSON_Err _ _ _ HZ) as [-> ?].
Qed.

Lemma build_exceptions_witness :
  loadProductionDependencies 3 unreadable_fs ["app"]
  = Some (Err (JsonError ["app"; "node_modules"; "a"; "package.json"]))
  ∧ ((∃ Z, rtc (production_edge unreadable_fs) ["app"] Z
        ∧ JsonError ["app"; "node_modules"; "a"; "package.json"]
          = JsonError (resolve Z "package.json")
        ∧ pathExists unreadable_fs (resolve Z "package.json") = true
        ∧ loadPackageJSON unreadable_fs Z
          = Err (JsonError ["app"; "node_modules"; "a"; "package.json"]))
     ∨ (∃ name p pJ,
        JsonError ["app"; "node_modules"; "a"; "package.json"]
        = ResolutionError name p
        ∧ rtc (required_edge unreadable_fs) ["app"] p
        ∧ loadPackageJSON unreadable_fs p = Ok (Some pJ)
        ∧ name ∈ dependencies pJ
        ∧ ∀ d, ¬ resolves_to unreadable_fs name p d)).
Proof.
  assert (H : loadProductionDependencies 3 unreadable_fs ["app"]
    = Some (Err (JsonError ["app"; "node_modules"; "a"; "package.json"])))
    by (vm_compute; reflexivity).
  split; [exact H|]. exact (build_exceptions 3 unreadable_fs ["app"] _ H).
Defined.

(** X5: with enough fuel the build returns a set when the descriptor of
    every module reachable from the root can be read and every key of the
    [dependencies] of every module reachable through [dependencies] edges
    resolves; and whenever it returns a set, the descriptor of every
    reachable module could be read. *)
Theorem build_succeeds (fs : node) (rootModule : path) (fuel : nat) :
  build_fuel fs ≤ fuel →
  ((∀ Z e, rtc (production_edge fs) rootModule Z → loadPackageJSON fs Z ≠ Err e) →
   (∀ Z, rtc (required_edge fs) rootModule Z → all_resolve fs Z) →
   ∃ w, loadProductionDependencies fuel fs rootModule = Some (Ok w))
  ∧ (∀ w, loadProductionDependencies fuel fs rootModule = Some (Ok w) →
     ∀ Z e, rtc (production_edge fs) rootModule Z → loadPackageJSON fs Z ≠ Err e).
Proof.
  intros Hfuel. split.
  - intros Hread Hres.
    destruct (loadProductionDependencies_total fs rootModule fuel Hfuel)
      as [[w|e] H]; [by exists w|exfalso].
    apply build_error_origin in H
      as [(Z & Hrtc & HZ)|(name & p & pJ & -> & Hrtc & HpJ & Hname & Hno)].
    + by apply (Hread Z e).
    + destruct (Hres p Hrtc pJ name HpJ Hname) as [d Hd]. by apply (Hno d).
  - intros w H Z e Hrtc.
    by apply (build_settled _ _ _ _ Z H (build_closed _ _ _ _ _ H Hrtc)).
Qed.

Lemma build_succeeds_witness :
  build_fuel scenario_fs ≤ build_fuel scenario_fs
  ∧ loadPackageJSON scenario_fs ["app"; "node_modules"; "a"] ≠ Err (JsonError []).
Proof.
  split; [reflexivity|].
  eapply (proj2 (build_succeeds scenario_fs ["app"] _ (le_n _))).
  - vm_compute. reflexivity.
  - apply rtc_once. left. eexists _, "a". split_and!.
    + reflexivity.
    + left.
    + eexists. split; [vm_compute; reflexivity|reflexivity].
Defined.

(** ** What pruning deletes *)

(** When a loop made a path disappear, one of its rounds did. *)
Lemma for_each_lost {A S B : Type} (f : S → option B) (body : A → S → M S)
    (l : list A) (s s' : S) :
  for_each body l s = Some (Ok s') → is_Some (f s) → f s' = None →
  ∃ x si si', x ∈ l ∧ body x si = Some (Ok si')
              ∧ is_Some (f si) ∧ f si' = None.
Proof.
  revert s. induction l as [|x l IH]; intros s; simpl.
  - intros [= <-] [b Hb] Hnone. congruence.
  - destruct (body x s) as [[s1|e]|] eqn:Hx; [|done..].
    intros Hl Hs Hs'. destruct (f s1) as [b|] eqn:Hs1.
    + destruct (IH s1 Hl) as (y & si & si' & Hy & ?); [by rewrite Hs1|done|].
      exists y, si, si'. split; [by right|done].
    + exists x, s, s1. split; [by left|done].
Qed.

Lemma kept_extend prod M c q :
  M ∈ prod → module_below M c → kept prod c q → kept prod M q.
Proof.
  intros HM Hc. induction 1 as [Hcin|q p Hq IH Hp Hpin].
  - eapply kept_below; [by apply kept_root|done..].
  - by eapply kept_below.
Qed.

Lemma pruned_away_extend prod M c p :
  M ∈ prod → module_below M c →
  ((c ∉ prod) ∧ c `prefix_of` p) ∨ pruned_away prod c p →
  pruned_away prod M p.
Proof.
  intros HM Hc [[Hcin Hcp]|(q & N & Hq & HN & HNin & HNp)].
  - exists M, c. split_and!; [by apply kept_root|done..].
  - exists q, N. split_and!; [by eapply kept_extend|done..].
Qed.

Lemma pruneModule_lost prod fuel M fs fs' p :
  pruneModule fuel prod M fs = Some (Ok fs') →
  is_Some (stat fs p) → stat fs' p = None →
  ((M ∉ prod) ∧ M `prefix_of` p) ∨ pruned_away prod M p.
Proof.
  revert M fs fs'. induction fuel as [|fuel IH]; intros M fs fs'; [done|].
  simpl. unfold set_has. rewrite resolve_node_modules.
  case_bool_decide as Hin; cycle 1.
  { intros [= <-] Hp Hnone. left. split; [done|].
    destruct M as [|m M]; [simpl in Hnone; rewrite Hnone in Hp; by destruct Hp|].
    rewrite stat_remove in Hnone by done.
    destruct (decide (m :: M `prefix_of` p)); [done|].
    rewrite Hnone in Hp. by destruct Hp. }
  destruct (pathExists fs (M ++ ["node_modules"])) eqn:Hnm; simpl; cycle 1.
  { intros [= <-] Hp Hnone. rewrite Hnone in Hp. by destruct Hp. }
  destruct (readdir fs (M ++ ["node_modules"])) as [names|err]; [|done].
  intros Hloop Hp Hnone. right.
  destruct (for_each_lost (λ s, stat s p) _ _ _ _ Hloop Hp Hnone)
    as (e & si & si' & _ & Hbody & Hsi & Hsi').
  destruct (scoped e) eqn:He.
  - destruct (readdir si _) as [subs|err]; [|done].
    destruct (for_each_lost (λ s, stat s p) _ _ _ _ Hbody Hsi Hsi')
      as (sub & sj & sj' & _ & Hsub & Hsj & Hsj').
    apply (pruned_away_extend prod M ((M ++ ["node_modules"]) ++ [e; sub]));
      [done| |by eapply IH].
    rewrite <-app_assoc. by apply below_scoped.
  - apply (pruned_away_extend prod M ((M ++ ["node_modules"]) ++ [e]));
      [done| |by eapply IH].
    rewrite <-app_assoc. by apply below_unscoped.
Qed.

Lemma kept_installed prod fs M q :
  kept prod M q → is_Some (stat fs q) → q = M ∨ installed fs M q.
Proof.
  induction 1 as [|q p Hq IH Hp Hpin]; intros Hstat; [by left|right].
  destruct IH as [->|Hinst].
  - eapply stat_prefix; [by apply module_below_prefix|done].
  - by apply installed_direct.
  - by eapply installed_nested.
Qed.

Lemma pruneModule_away prod fuel M fs fs' p :
  M ∈ prod → pruneModule fuel prod M fs = Some (Ok fs') →
  pruned_away prod M p → stat fs' p = None.
Proof.
  intros HM Hrun (q & N & Hq & HN & HNin & HNp).
  pose proof (pruneModule_pruned _ _ _ _ _ (or_intror HM) Hrun) as Hpr.
  destruct (stat fs N) as [k|] eqn:HstatN; cycle 1.
  { eapply stat_prefix_None; [done|].
    by apply (shrinks_None _ _ _ (pruned_shrinks _ _ _ _ Hpr)). }
  eapply stat_prefix_None; [done|].
  apply (pruned_removed _ _ _ _ Hpr fs); [apply shrinks_refl| |done].
  assert (HNsome : is_Some (stat fs N)) by by rewrite HstatN.
  destruct (kept_installed prod fs M q Hq) as [->|Hinst].
  - eapply stat_prefix; [by apply module_below_prefix|done].
  - by apply installed_direct.
  - by eapply installed_nested.
Qed.

(** X6: what [prune] leaves of the tree, path by path: a path at or below a
    module directory that is not in the set, and sits directly in the
    "node_modules" of a kept module directory, is gone; every other path is
    as it was. *)
Theorem prune_effect (fuel : nat) (fs : node) (rootModule : path)
    (prod : list path) (fs' : node) :
  prune fuel fs rootModule = Some (Ok (prod, fs')) →
  ∀ p, (pruned_away prod rootModule p → stat fs' p = None)
       ∧ (¬ pruned_away prod rootModule p → stat fs' p = stat fs p).
Proof.
  intros (w & Hbuild & -> & Hrun)%prune_inv p.
  assert (Hroot : rootModule ∈ prodPaths w).
  { by apply forModule_grows in Hbuild as [_ ?]. }
  split.
  - by apply pruneModule_away with fuel fs.
  - intros Hnot.
    pose proof (pruneModule_pruned _ _ _ _ _ (or_intror Hroot) Hrun) as Hpr.
    destruct (pruned_shrinks _ _ _ _ Hpr p) as [Hnone|?]; [|done].
    destruct (stat fs p) as [k|] eqn:Hp; [|done].
    destruct (pruneModule_lost _ _ _ _ _ p Hrun) as [[? _]|?]; [by rewrite Hp|done..].
Qed.

Lemma prune_effect_witness :
  stat scenario_fs ["app"; "node_modules"; "b"; "package.json"] ≠ None
  ∧ ∃ fs', prune 4 scenario_fs ["app"]
           = Some (Ok ([["app"]; ["app"; "node_modules"; "a"]], fs'))
    ∧ stat fs' ["app"; "node_modules"; "b"; "package.json"] = None.
Proof.
  split; [done|].
  assert (H : ∃ fs', prune 4 scenario_fs ["app"]
           = Some (Ok ([["app"]; ["app"; "node_modules"; "a"]], fs')))
    by (eexists; vm_compute; reflexivity).
  destruct H as [fs' H]. exists fs'. split; [exact H|].
  apply (proj1 (prune_effect 4 scenario_fs ["app"] _ fs' H
                  ["app"; "node_modules"; "b"; "package.json"])).
  exists ["app"], ["app"; "node_modules"; "b"]. split_and!.
  - apply kept_root. left.
  - by apply (below_unscoped ["app"] "b").
  - intros Hb. apply elem_of_cons in Hb as [Hb|Hb]; [done|].
    apply elem_of_cons in Hb as [Hb|Hb]; [done|]. by apply elem_of_nil in Hb.
  - by exists ["package.json"].
Defined.

(** ** A second pass of pruning *)

Lemma for_each_split {A S : Type} (Q : S → S → Prop) (body : A → S → M S)
    (l : list A) :
  (∀ s, Q s s) → (∀ s1 s2 s3, Q s1 s2 → Q s2 s3 → Q s1 s3) →
  (∀ x s s', x ∈ l → body x s = Some (Ok s') → Q s s') →
  ∀ s s', for_each body l s = Some (Ok s') →
  Q s s' ∧ ∀ x, x ∈ l → ∃ si si', Q s si ∧ body x si = Some (Ok si') ∧ Q si' s'.
Proof.
  intros Hrefl Htrans. induction l as [|y l IH]; intros Hbody s s'; simpl.
  - intros [= <-]. split; [done|]. intros x Hx. by apply elem_of_nil in Hx.
  - destruct (body y s) as [[s1|e]|] eqn:Hy; [|done..]. intros Hl.
    assert (Hbody' : ∀ x s s', x ∈ l → body x s = Some (Ok s') → Q s s').
    { intros z ?? Hz. apply (Hbody z). by right. }
    assert (Hy1 : Q s s1) by (apply (Hbody y); [by left|done]).
    destruct (IH Hbody' _ _ Hl) as [Hq Hall]. split; [by eapply Htrans|].
    intros x [->|Hx]%elem_of_cons.
    + by exists s, s1.
    + destruct (Hall x Hx) as (si & si' & ? & ? & ?).
      exists si, si'. split_and!; [by eapply Htrans|done..].
Qed.

(** A loop whose rounds all return with the state they were given returns
    with the state it was given. *)
Lemma for_each_same {A S : Type} (body : A → S → M S) (l : list A) (s : S) :
  (∀ x r, x ∈ l → body x s = Some r → r = Ok s) →
  ∀ r, for_each body l s = Some r → r = Ok s.
Proof.
  induction l as [|y l IH]; intros Hbody r; simpl.
  - by intros [= <-].
  - destruct (body y s) as [r1|] eqn:Hy; [|done].
    rewrite (Hbody y r1) by (done || by left).
    apply IH. intros x r' Hx. apply Hbody. by right.
Qed.

Lemma readdir_directory fs p :
  (∃ names, readdir fs p = Ok names) ↔ stat fs p = Some IsDirectory.
Proof.
  unfold readdir, stat. destruct (lookup p fs) as [[c|es]|]; simpl; split;
    try done; try by intros [? ?]. by eexists.
Qed.

Lemma pruneModule_shrinks prod fuel c fs fs' :
  c ≠ [] → pruneModule fuel prod c fs = Some (Ok fs') → shrinks fs fs'.
Proof.
  intros Hc Hrun.
  by apply (pruned_shrinks prod c), (pruneModule_pruned prod fuel); [left|].
Qed.

Lemma app_node_modules_ne (M : path) (l : list string) :
  (M ++ ["node_modules"]) ++ l ≠ [].
Proof. by destruct M. Qed.

(** In a pass that returns, the "node_modules" of a member that is left
    is a directory, each scope directory that is left in it is one, and
    every module directory that is left in it was pruned by a call that
    returned. *)
Lemma pruneModule_visits prod fuel M fs fs' :
  M ∈ prod → pruneModule (S fuel) prod M fs = Some (Ok fs') →
  dir_or_absent fs' (M ++ ["node_modules"])
  ∧ (∀ e, scoped e = true → dir_or_absent fs' ((M ++ ["node_modules"]) ++ [e]))
  ∧ ∀ c, module_below M c → is_Some (stat fs' c) →
         ∃ sj sj', pruneModule fuel prod c sj = Some (Ok sj') ∧ shrinks sj' fs'.
Proof.
  intros HM Hrun.
  assert (Hsh : shrinks fs fs').
  { by apply (pruned_shrinks prod M), (pruneModule_pruned prod (S fuel)); [right|]. }
  revert Hrun. simpl. unfold set_has. rewrite resolve_node_modules.
  rewrite bool_decide_true by done.
  destruct (pathExists fs (M ++ ["node_modules"])) eqn:Hnm; simpl; cycle 1.
  { intros [= <-].
    assert (Hnone : stat fs (M ++ ["node_modules"]) = None).
    { destruct (stat fs _) eqn:Hst; [|done].
      assert (pathExists fs (M ++ ["node_modules"]) = true); [|congruence].
      apply pathExists_stat. by rewrite Hst. }
    split_and!.
    - by left.
    - intros e _. left. eapply stat_prefix_None; [|done]. by eexists.
    - intros c Hc [k Hk].
      rewrite (stat_prefix_None fs (M ++ ["node_modules"]) c) in Hk;
        [done|by apply module_below_node_modules|done]. }
  destruct (readdir fs (M ++ ["node_modules"])) as [names|err] eqn:Hnames; [|done].
  intros Hloop.
  set (body := λ (subModuleName : string) (fs : node),
    if scoped subModuleName then
      match readdir fs ((M ++ ["node_modules"]) ++ [subModuleName]) with
      | Err e => Some (Err e)
      | Ok subs =>
          for_each (λ subScopedModuleName,
            pruneModule fuel prod
              ((M ++ ["node_modules"]) ++ [subModuleName; subScopedModuleName]))
            subs fs
      end
    else pruneModule fuel prod ((M ++ ["node_modules"]) ++ [subModuleName]) fs)
    in Hloop.
  assert (Hinner : ∀ e subs s s',
    for_each (λ sub, pruneModule fuel prod ((M ++ ["node_modules"]) ++ [e; sub]))
      subs s = Some (Ok s') →
    shrinks s s'
    ∧ ∀ sub, sub ∈ subs →
        ∃ sj sj', shrinks s sj
          ∧ pruneModule fuel prod ((M ++ ["node_modules"]) ++ [e; sub]) sj
            = Some (Ok sj')
          ∧ shrinks sj' s').
  { intros e subs. apply for_each_split; [apply shrinks_refl|apply shrinks_trans|].
    intros sub s s' _ Hs.
    eapply pruneModule_shrinks; [apply app_node_modules_ne|exact Hs]. }
  assert (Hbody : ∀ e s s', e ∈ names → body e s = Some (Ok s') → shrinks s s').
  { intros e s s' _. unfold body. destruct (scoped e).
    - destruct (readdir s _) as [subs|err]; [|done]. intros Hs.
      by apply Hinner in Hs as [? _].
    - intros Hs.
      eapply pruneModule_shrinks; [apply app_node_modules_ne|exact Hs]. }
  destruct (for_each_split shrinks body names shrinks_refl shrinks_trans Hbody
              _ _ Hloop) as [_ Hvisit].
  assert (Hback : ∀ p s, shrinks fs s → shrinks s fs' → is_Some (stat fs' p) →
            stat fs' p = stat s p ∧ is_Some (stat fs p)).
  { intros p s Hs Hs' Hp.
    pose proof (shrinks_is_Some _ _ _ Hs' Hp) as Heq. split; [done|].
    rewrite Heq in Hp. by rewrite <-(shrinks_is_Some _ _ _ Hs Hp). }
  split_and!.
  - destruct (Hsh (M ++ ["node_modules"])) as [?|Heq]; [by left|right].
    rewrite Heq. apply readdir_directory. by eexists.
  - intros e He. unfold dir_or_absent.
    destruct (stat fs' ((M ++ ["node_modules"]) ++ [e])) as [k|] eqn:Hk;
      [right|by left].
    assert (Hsome : is_Some (stat fs' ((M ++ ["node_modules"]) ++ [e])))
      by by rewrite Hk.
    destruct (Hback _ fs (shrinks_refl fs) Hsh Hsome) as [_ Hfs].
    apply (readdir_Ok _ _ _ Hnames) in Hfs.
    destruct (Hvisit e Hfs) as (si & si' & Hsi & Hrun & Hsi').
    unfold body in Hrun. rewrite He in Hrun.
    destruct (readdir si _) as [subs|err] eqn:Hsubs; [|done].
    assert (Hsifs' : shrinks si fs').
    { eapply shrinks_trans; [|done]. by apply Hinner in Hrun as [? _]. }
    destruct (Hback _ si Hsi Hsifs' Hsome) as [Heq _].
    rewrite <-Hk, Heq. apply readdir_directory. by eexists.
  - intros c Hc Hcsome.
    apply module_below_cases in Hc as [(e & He & ->)|(e & sub & He & ->)].
    + destruct (Hback _ fs (shrinks_refl fs) Hsh Hcsome) as [_ Hfs].
      apply (readdir_Ok _ _ _ Hnames) in Hfs.
      destruct (Hvisit e Hfs) as (si & si' & Hsi & Hrun & Hsi').
      unfold body in Hrun. rewrite He in Hrun. by exists si, si'.
    + assert (He' : is_Some (stat fs' ((M ++ ["node_modules"]) ++ [e]))).
      { eapply stat_prefix; [|done]. rewrite <-!app_assoc.
        apply prefix_app, prefix_app. by exists [sub]. }
      destruct (Hback _ fs (shrinks_refl fs) Hsh He') as [_ Hfs].
      apply (readdir_Ok _ _ _ Hnames) in Hfs.
      destruct (Hvisit e Hfs) as (si & si' & Hsi & Hrun & Hsi').
      unfold body in Hrun. rewrite He in Hrun.
      destruct (readdir si _) as [subs|err] eqn:Hsubs; [|done].
      destruct (Hinner _ _ _ _ Hrun) as [Hsisi' Hsubvisit].
      assert (Hsub : sub ∈ subs).
      { apply (readdir_Ok _ _ _ Hsubs). rewrite <-app_assoc. simpl.
        assert (Hsifs' : shrinks si fs') by by eapply shrinks_trans.
        destruct (Hback _ si Hsi Hsifs' Hcsome) as [Heq _].
        by rewrite <-Heq. }
      destruct (Hsubvisit sub Hsub) as (sj & sj' & Hsj & Hrunj & Hsj').
      exists sj, sj'. split; [done|]. by eapply shrinks_trans.
Qed.

Lemma dir_or_absent_shrinks fs fs' p :
  shrinks fs fs' → dir_or_absent fs p → dir_or_absent fs' p.
Proof.
  intros Hsh Hp. destruct (Hsh p) as [?|Heq]; [by left|].
  unfold dir_or_absent. by rewrite Heq.
Qed.

Lemma dir_or_absent_below fs p q :
  p `prefix_of` q → stat fs p = None → dir_or_absent fs q.
Proof. intros Hpq Hp. left. by eapply stat_prefix_None. Qed.

Lemma pruneModule_walkable prod fuel M fs fs' :
  pruneModule fuel prod M fs = Some (Ok fs') → walkable prod M fs'.
Proof.
  revert M fs fs'. induction fuel as [|fuel IH]; intros M fs fs' Hrun q Hq;
    [done|].
  destruct (kept_inv _ _ _ Hq) as [HM Hcases].
  destruct (pruneModule_visits _ _ _ _ _ HM Hrun) as (Hnm & Hscope & Hvisit).
  destruct Hcases as [->|(c & Hc & Hcq & Hkept)]; [done|].
  destruct (stat fs' c) as [k|] eqn:Hk; cycle 1.
  { split; [|intros e _]; apply (dir_or_absent_below _ c); try done.
    - etrans; [done|]. by exists ["node_modules"].
    - etrans; [done|]. rewrite <-app_assoc. by eexists. }
  destruct (Hvisit c Hc) as (sj & sj' & Hrunj & Hsj'); [by rewrite Hk|].
  destruct (IH _ _ _ Hrunj q Hkept) as [Hq1 Hq2].
  split; [|intros e He]; eapply dir_or_absent_shrinks; eauto.
Qed.

Lemma installed_nest fs M c p :
  installed fs M c → installed fs c p → installed fs M p.
Proof.
  intros Hc. induction 1 as [p Hp Hstat|q p Hq IH Hp Hstat].
  - by eapply installed_nested.
  - by eapply installed_nested.
Qed.

(** On a tree in which every installed module directory is a member, a
    pass deletes nothing. *)
Lemma pruneModule_again prod fuel M fs r :
  M ∈ prod → (∀ p, installed fs M p → p ∈ prod) → walkable prod M fs →
  pruneModule fuel prod M fs = Some r → r = Ok fs.
Proof.
  revert M r. induction fuel as [|fuel IH]; intros M r HM Hclean Hwalk; [done|].
  simpl. unfold set_has. rewrite resolve_node_modules.
  rewrite bool_decide_true by done.
  destruct (pathExists fs (M ++ ["node_modules"])) eqn:Hnm; simpl;
    [|by intros [= <-]].
  destruct (Hwalk M (kept_root _ _ HM)) as [Hdir Hscope].
  apply pathExists_stat in Hnm.
  destruct Hdir as [Hnone|Hdir]; [rewrite Hnone in Hnm; by destruct Hnm|].
  apply readdir_directory in Hdir as [names Hnames]. rewrite Hnames.
  assert (Hchild : ∀ c r, module_below M c → is_Some (stat fs c) →
            pruneModule fuel prod c fs = Some r → r = Ok fs).
  { intros c r' Hc Hstat. 
    assert (Hinst : installed fs M c) by by apply installed_direct.
    apply IH.
    - by apply Hclean.
    - intros p Hp. apply Hclean. by eapply installed_nest.
    - intros q Hq. apply Hwalk. by eapply kept_extend. }
  apply for_each_same. intros e r' He.
  apply (readdir_Ok _ _ _ Hnames) in He.
  destruct (scoped e) eqn:Hscoped.
  - destruct (Hscope e Hscoped) as [Hnone|Hedir];
      [rewrite Hnone in He; by destruct He|].
    apply readdir_directory in Hedir as [subs Hsubs]. rewrite Hsubs.
    apply for_each_same. intros sub r'' Hsub.
    apply (readdir_Ok _ _ _ Hsubs) in Hsub.
    apply Hchild.
    + rewrite <-app_assoc. by apply below_scoped.
    + by rewrite <-app_assoc in Hsub.
  - apply Hchild; [|done]. rewrite <-app_assoc. by apply below_unscoped.
Qed.

(** X7: pruning once is enough: on the tree that [prune] left, another
    pass of [pruneModule] from the root with the same set returns and
    changes nothing. *)
Theorem prune_second_pass (fuel : nat) (fs : node) (rootModule : path)
    (prod : list path) (fs' : node) (fuel' : nat) :
  prune fuel fs rootModule = Some (Ok (prod, fs')) →
  depth fs < fuel' →
  pruneModule fuel' prod rootModule fs' = Some (Ok fs').
Proof.
  intros (w & Hbuild & -> & Hrun)%prune_inv Hfuel.
  assert (Hroot : rootModule ∈ prodPaths w).
  { by apply forModule_grows in Hbuild as [_ ?]. }
  pose proof (pruneModule_pruned _ _ _ _ _ (or_intror Hroot) Hrun) as Hpr.
  destruct (pruneModule_total (prodPaths w) fs fuel' rootModule fs')
    as (r & Hr & _); [by apply (pruned_shrinks _ _ _ _ Hpr)|lia|lia|].
  rewrite Hr. f_equal.
  apply (pruneModule_again _ _ _ _ _ Hroot) in Hr; [done| |].
  - apply (pruned_clean _ _ _ _ Hpr).
  - by eapply pruneModule_walkable.
Qed.

Lemma prune_second_pass_witness :
  depth scenario_fs < 5
  ∧ ∃ fs', prune 4 scenario_fs ["app"]
           = Some (Ok ([["app"]; ["app"; "node_modules"; "a"]], fs'))
    ∧ pruneModule 5 [["app"]; ["app"; "node_modules"; "a"]] ["app"] fs'
      = Some (Ok fs').
Proof.
  assert (Hd : depth scenario_fs < 5) by (vm_compute; lia).
  split; [exact Hd|].
  assert (H : ∃ fs', prune 4 scenario_fs ["app"]
           = Some (Ok ([["app"]; ["app"; "node_modules"; "a"]], fs')))
    by (eexists; vm_compute; reflexivity).
  destruct H as [fs' H]. exists fs'. split; [exact H|].
  exact (prune_second_pass 4 scenario_fs ["app"] _ fs' 5 H Hd).
Defined.

(** ** The copy filter and pruning *)

Lemma kept_in prod M q : kept prod M q → q ∈ prod.
Proof. by induction 1. Qed.

Lemma kept_below_node_modules prod M q N :
  kept prod M q → module_below q N → (M ++ ["node_modules"]) `prefix_of` N.
Proof.
  intros Hq HN. destruct (kept_inv _ _ _ Hq) as [_ [->|(c & Hc & Hcq & _)]].
  - by apply module_below_node_modules.
  - etrans; [by apply module_below_node_modules|].
    etrans; [done|]. by apply module_below_prefix.
Qed.

Lemma nearest_self fs fuel N :
  is_module_dir fs N = true →
  getNearestModuleDirectory (S fuel) fs N = Some (Ok N).
Proof.
  intros HN. rewrite nearest_step, HN. unfold is_module_dir in HN.
  by destruct (stat fs N).
Qed.

Lemma is_module_dir_stat fs N : is_module_dir fs N = true → is_Some (stat fs N).
Proof. unfold is_module_dir. by destruct (stat fs N). Qed.

Lemma root_node_modules_ne (rootModule : path) :
  resolve rootModule "node_modules" ≠ [].
Proof. rewrite resolve_node_modules. by destruct rootModule. Qed.

(** X9: the copy filter and [prune], started on the same tree, agree on the
    module directories that hold a descriptor and sit directly in the
    "node_modules" of a kept module directory: the filter answers "skip"
    for exactly those that [prune] deletes, and "do not skip" for exactly
    those that [prune] leaves as they are. *)
Theorem filter_and_prune_agree_on_modules (fuel0 : nat) (fs : node)
    (rootModule : path) (ignore : nat → node → path → M bool)
    (prod : list path) (fs' : node) (q N : path) (fuel : nat) :
  getFsCopyIgnoreFunction fuel0 fs rootModule = Some (Ok ignore) →
  prune fuel0 fs rootModule = Some (Ok (prod, fs')) →
  kept prod rootModule q → module_below q N → is_module_dir fs N = true →
  ∃ b, ignore (S fuel) fs N = Some (Ok b)
       ∧ (b = true ↔ stat fs' N = None)
       ∧ (b = false ↔ stat fs' N = stat fs N).
Proof.
  intros (w & Hbuild & ->)%getFsCopyIgnoreFunction_inv
         (w' & Hbuild' & -> & Hrun)%prune_inv Hq HN Hmod.
  assert (w' = w) as -> by congruence.
  assert (Hroot : rootModule ∈ prodPaths w) by by apply forModule_grows in Hbuild as [_ ?].
  pose proof (pruneModule_pruned _ _ _ _ _ (or_intror Hroot) Hrun) as Hpr.
  pose proof (is_module_dir_stat _ _ Hmod) as [k Hk].
  rewrite (ignoreFunction_result _ _ _ _ _ N) by by apply nearest_self.
  rewrite render_prefix; cycle 1.
  { apply root_node_modules_ne. }
  { rewrite resolve_node_modules. by eapply kept_below_node_modules. }
  eexists. split; [done|]. simpl. unfold set_has. case_bool_decide as Hin; simpl.
  - assert (Hsame : stat fs' N = stat fs N).
    { apply (pruned_kept _ _ _ _ Hpr). by eapply kept_below. }
    rewrite Hsame, Hk. by split.
  - assert (Hgone : stat fs' N = None).
    { apply (pruneModule_away _ _ _ _ _ _ Hroot Hrun). by exists q, N. }
    rewrite Hgone, Hk. by split.
Qed.

Lemma filter_and_prune_agree_on_modules_witness :
  ∃ ignore fs' b,
    getFsCopyIgnoreFunction 4 scenario_fs ["app"] = Some (Ok ignore)
    ∧ prune 4 scenario_fs ["app"]
      = Some (Ok ([["app"]; ["app"; "node_modules"; "a"]], fs'))
    ∧ ignore 1 scenario_fs ["app"; "node_modules"; "b"] = Some (Ok b)
    ∧ (b = true ↔ stat fs' ["app"; "node_modules"; "b"] = None)
    ∧ (b = false ↔ stat fs' ["app"; "node_modules"; "b"]
                   = stat scenario_fs ["app"; "node_modules"; "b"]).
Proof.
  assert (Hi : ∃ ignore, getFsCopyIgnoreFunction 4 scenario_fs ["app"]
                         = Some (Ok ignore))
    by (eexists; vm_compute; reflexivity).
  assert (Hp : ∃ fs', prune 4 scenario_fs ["app"]
           = Some (Ok ([["app"]; ["app"; "node_modules"; "a"]], fs')))
    by (eexists; vm_compute; reflexivity).
  destruct Hi as [ignore Hi]. destruct Hp as [fs' Hp].
  destruct (filter_and_prune_agree_on_modules 4 scenario_fs ["app"] ignore _ fs'
              ["app"] ["app"; "node_modules"; "b"] 0 Hi Hp)
    as (b & Hb & Htrue & Hfalse).
  - apply kept_root. left.
  - by apply (below_unscoped ["app"] "b").
  - reflexivity.
  - by exists ignore, fs', b.
Defined.

(** X10: where they differ, one way: a path that sits directly in the
    "node_modules" of a kept module directory holding a descriptor, that is
    not in the set, and such that neither it nor a directory between it and
    that module directory (the "node_modules", a scope directory) holds a
    descriptor -- a dead install -- is deleted by [prune], while the copy
    filter answers "do not skip" for it. *)
Theorem filter_keeps_dead_install_prune_deletes (fuel0 : nat) (fs : node)
    (rootModule : path) (ignore : nat → node → path → M bool)
    (prod : list path) (fs' : node) (q N : path) (fuel : nat) :
  getFsCopyIgnoreFunction fuel0 fs rootModule = Some (Ok ignore) →
  prune fuel0 fs rootModule = Some (Ok (prod, fs')) →
  kept prod rootModule q → module_below q N → N ∉ prod →
  is_Some (stat fs N) → is_module_dir fs q = true →
  (∀ p, q `prefix_of` p → p `prefix_of` N → p ≠ q → is_module_dir fs p = false) →
  length N < fuel →
  ignore fuel fs N = Some (Ok false) ∧ stat fs' N = None.
Proof.
  intros (w & Hbuild & ->)%getFsCopyIgnoreFunction_inv
         (w' & Hbuild' & -> & Hrun)%prune_inv Hq HN Hnot Hstat Hmod Hbetween Hfuel.
  assert (w' = w) as -> by congruence.
  assert (Hroot : rootModule ∈ prodPaths w) by by apply forModule_grows in Hbuild as [_ ?].
  split; cycle 1.
  { apply (pruneModule_away _ _ _ _ _ _ Hroot Hrun). by exists q, N. }
  destruct (nearest_found fs fuel N q Hstat (module_below_prefix _ _ HN) Hmod Hfuel)
    as (m & Hm & Hpre & Hmmod & Hnearest).
  assert (m = q) as ->.
  { destruct (decide (m = q)) as [|Hne]; [done|].
    rewrite (Hbetween m) in Hmmod; [done| |done..].
    apply Hnearest; [by apply module_below_prefix|done]. }
  rewrite (ignoreFunction_result _ _ _ _ _ q Hm).
  unfold set_has. rewrite bool_decide_true by by eapply kept_in.
  by rewrite andb_false_r.
Qed.

Lemma filter_keeps_dead_install_prune_deletes_witness :
  ∃ ignore fs',
    getFsCopyIgnoreFunction 4 dead_install_fs ["app"] = Some (Ok ignore)
    ∧ prune 4 dead_install_fs ["app"]
      = Some (Ok ([["app"]; ["app"; "node_modules"; "a"]], fs'))
    ∧ ignore 4 dead_install_fs ["app"; "node_modules"; "b"] = Some (Ok false)
    ∧ stat fs' ["app"; "node_modules"; "b"] = None.
Proof.
  assert (Hi : ∃ ignore, getFsCopyIgnoreFunction 4 dead_install_fs ["app"]
                         = Some (Ok ignore))
    by (eexists; vm_compute; reflexivity).
  assert (Hp : ∃ fs', prune 4 dead_install_fs ["app"]
           = Some (Ok ([["app"]; ["app"; "node_modules"; "a"]], fs')))
    by (eexists; vm_compute; reflexivity).
  destruct Hi as [ignore Hi]. destruct Hp as [fs' Hp].
  exists ignore, fs'. split; [exact Hi|]. split; [exact Hp|].
  apply (filter_keeps_dead_install_prune_deletes 4 dead_install_fs ["app"]
           ignore _ fs' ["app"] ["app"; "node_modules"; "b"] 4 Hi Hp).
  - apply kept_root. left.
  - by apply (below_unscoped ["app"] "b").
  - intros Hb. apply elem_of_cons in Hb as [Hb|Hb]; [done|].
    apply elem_of_cons in Hb as [Hb|Hb]; [done|]. by apply elem_of_nil in Hb.
  - by eexists.
  - reflexivity.
  - intros p _ [k Hk] Hne.
    destruct p as [|x1 [|x2 [|x3 [|x4 p]]]]; simplify_eq/=; done.
  - simpl. lia.
Defined.

Lemma module_below_length (M c : path) :
  module_below M c → length M + 2 ≤ length c.
Proof. intros [name _|scope name _]; rewrite length_app; simpl; lia. Qed.

Lemma node_modules_in_rest (M c rest : path) :
  module_below M c → c `prefix_of` M ++ rest → "node_modules" ∈ rest.
Proof.
  intros Hc Hpre.
  assert (Hnm : (M ++ ["node_modules"]) `prefix_of` M ++ rest).
  { etrans; [by apply module_below_node_modules|done]. }
  apply prefix_app_inv in Hnm as [k ->]. by left.
Qed.

(** Below a kept module directory, outside every "node_modules" in it,
    nothing is at or below a module directory that pruning deletes. *)
Lemma kept_inside_not_away prod n M N q C rest :
  length N ≤ n + length M →
  kept prod M N → kept prod M q → module_below q C →
  C `prefix_of` N ++ rest → "node_modules" ∉ rest → C ∈ prod.
Proof.
  revert M. induction n as [|n IH]; intros M Hlen HN Hq HC Hpre Hrest.
  - destruct (kept_inv _ _ _ HN) as [_ [->|(c2 & Hc2 & Hc2N & _)]].
    + destruct (kept_inv _ _ _ Hq) as [_ [->|(c1 & Hc1 & Hc1q & _)]].
      * destruct Hrest. by eapply node_modules_in_rest.
      * destruct Hrest. apply (node_modules_in_rest M c1); [done|].
        etrans; [done|]. etrans; [by apply module_below_prefix|done].
    + apply module_below_length in Hc2. apply prefix_length in Hc2N. lia.
  - destruct (kept_inv _ _ _ HN) as [_ [->|(c2 & Hc2 & Hc2N & Hkept2)]].
    + destruct (kept_inv _ _ _ Hq) as [_ [->|(c1 & Hc1 & Hc1q & _)]].
      * destruct Hrest. by eapply node_modules_in_rest.
      * destruct Hrest. apply (node_modules_in_rest M c1); [done|].
        etrans; [done|]. etrans; [by apply module_below_prefix|done].
    + assert (Hc2p : c2 `prefix_of` N ++ rest).
      { etrans; [done|]. by apply prefix_app_r. }
      destruct (kept_inv _ _ _ Hq) as [_ [->|(c1 & Hc1 & Hc1q & Hkept1)]].
      * rewrite (module_below_same_path M C c2 (N ++ rest)); [|done..].
        by eapply kept_in, kept_root, kept_inv.
      * assert (c1 = c2) as ->.
        { apply (module_below_same_path M c1 c2 (N ++ rest)); [done..| |done].
          etrans; [done|]. etrans; [by apply module_below_prefix|done]. }
        apply (IH c2); [|done..].
        apply module_below_length in Hc2. lia.
Qed.

Lemma pruneModule_not_away prod fuel M fs fs' p :
  M ∈ prod → pruneModule fuel prod M fs = Some (Ok fs') →
  ¬ pruned_away prod M p → stat fs' p = stat fs p.
Proof.
  intros HM Hrun Hnot.
  pose proof (pruneModule_pruned _ _ _ _ _ (or_intror HM) Hrun) as Hpr.
  destruct (pruned_shrinks _ _ _ _ Hpr p) as [Hnone|?]; [|done].
  destruct (stat fs p) as [k|] eqn:Hp; [|done].
  destruct (pruneModule_lost _ _ _ _ _ p Hrun) as [[? _]|?];
    [by rewrite Hp|done..].
Qed.

(** X11: where they differ, the other way: a directory with a descriptor
    of its own inside a kept module directory other than the root -- not
    through a "node_modules" -- that is not in the set: the copy filter
    answers "skip" for it, while [prune] leaves it as it is. *)
Theorem filter_skips_inner_descriptor_prune_keeps (fuel0 : nat) (fs : node)
    (rootModule : path) (ignore : nat → node → path → M bool)
    (prod : list path) (fs' : node) (N rest : path) (fuel : nat) :
  getFsCopyIgnoreFunction fuel0 fs rootModule = Some (Ok ignore) →
  prune fuel0 fs rootModule = Some (Ok (prod, fs')) →
  kept prod rootModule N → N ≠ rootModule → "node_modules" ∉ rest →
  is_module_dir fs (N ++ rest) = true → N ++ rest ∉ prod →
  ignore (S fuel) fs (N ++ rest) = Some (Ok true)
  ∧ stat fs' (N ++ rest) = stat fs (N ++ rest).
Proof.
  intros (w & Hbuild & ->)%getFsCopyIgnoreFunction_inv
         (w' & Hbuild' & -> & Hrun)%prune_inv HN Hne Hrest Hmod Hnot.
  assert (w' = w) as -> by congruence.
  assert (Hroot : rootModule ∈ prodPaths w) by by apply forModule_grows in Hbuild as [_ ?].
  split.
  - rewrite (ignoreFunction_result _ _ _ _ _ (N ++ rest)) by by apply nearest_self.
    rewrite render_prefix; cycle 1.
    { apply root_node_modules_ne. }
    { rewrite resolve_node_modules.
      destruct (kept_inv _ _ _ HN) as [_ [?|(c & Hc & HcN & _)]]; [done|].
      etrans; [by apply module_below_node_modules|].
      etrans; [done|]. by apply prefix_app_r. }
    unfold set_has. by rewrite bool_decide_false.
  - apply (pruneModule_not_away _ _ _ _ _ _ Hroot Hrun).
    intros (q & C & Hq & HC & HCnot & HCpre). apply HCnot.
    by apply (kept_inside_not_away _ (length N) rootModule N q C rest); [lia|..].
Qed.

Lemma filter_skips_inner_descriptor_prune_keeps_witness :
  ∃ ignore fs',
    getFsCopyIgnoreFunction 4 inner_descriptor_fs ["app"] = Some (Ok ignore)
    ∧ prune 4 inner_descriptor_fs ["app"]
      = Some (Ok ([["app"]; ["app"; "node_modules"; "a"]], fs'))
    ∧ ignore 1 inner_descriptor_fs ["app"; "node_modules"; "a"; "esm"]
      = Some (Ok true)
    ∧ stat fs' ["app"; "node_modules"; "a"; "esm"]
      = stat inner_descriptor_fs ["app"; "node_modules"; "a"; "esm"].
Proof.
  assert (Hi : ∃ ignore, getFsCopyIgnoreFunction 4 inner_descriptor_fs ["app"]
                         = Some (Ok ignore))
    by (eexists; vm_compute; reflexivity).
  assert (Hp : ∃ fs', prune 4 inner_descriptor_fs ["app"]
           = Some (Ok ([["app"]; ["app"; "node_modules"; "a"]], fs')))
    by (eexists; vm_compute; reflexivity).
  destruct Hi as [ignore Hi]. destruct Hp as [fs' Hp].
  exists ignore, fs'. split; [exact Hi|]. split; [exact Hp|].
  apply (filter_skips_inner_descriptor_prune_keeps 4 inner_descriptor_fs ["app"]
           ignore _ fs' ["app"; "node_modules"; "a"] ["esm"] 0 Hi Hp).
  - eapply kept_below; [apply kept_root; left| |right; left].
    by apply (below_unscoped ["app"] "a").
  - done.
  - intros [?|H]%elem_of_cons; [done|]. by apply elem_of_nil in H.
  - reflexivity.
  - intros Hb. apply elem_of_cons in Hb as [Hb|Hb]; [done|].
    apply elem_of_cons in Hb as [Hb|Hb]; [done|]. by apply elem_of_nil in Hb.
Defined.

(** ** The revision of lines 142-249 *)

Lemma earlier_search_loop_stop fs moduleName fuel st :
  search_guard moduleName st = false →
  Earlier.search_loop (S fuel) fs moduleName st = Some st.
Proof. intros H. simpl. by rewrite H. Qed.

Lemma earlier_search_loop_total fs moduleName fuel st :
  length (testPath st) + 2 ≤ fuel →
  is_Some (Earlier.search_loop fuel fs moduleName st).
Proof.
  revert st. induction fuel as [|fuel IH]; intros st Hfuel; [lia|].
  simpl. destruct (search_guard moduleName st) eqn:Hg; [|by eexists].
  unfold Earlier.search_body.
  destruct (pathExists fs (relativeModule (testPath st) moduleName)).
  - destruct fuel as [|fuel]; [lia|].
    rewrite earlier_search_loop_stop; [by eexists|].
    by apply search_guard_discovered.
  - destruct (decide (testPath st = [])) as [Hnil|Hne].
    + destruct fuel as [|fuel]; [lia|].
      rewrite earlier_search_loop_stop; [by eexists|].
      apply search_guard_same. simpl.
      unfold Earlier.ascend. by rewrite Hnil.
    + apply IH. simpl. unfold Earlier.ascend. rewrite !dirname_length.
      assert (0 < length (testPath st)) by (destruct (testPath st); [done|simpl; lia]).
      lia.
Qed.

Lemma earlier_search_total fs moduleName modulePath :
  is_Some (Earlier.search fs moduleName modulePath).
Proof. apply earlier_search_loop_total. unfold search_fuel. simpl. lia. Qed.

(** What the earlier search discovers is the name in the "node_modules" of
    an iterate of its ascent. *)
Lemma earlier_search_loop_discovers fs moduleName X fuel st st' d :
  Earlier.search_loop fuel fs moduleName st = Some st' →
  discoveredPath st = None →
  (∃ k, testPath st = Nat.iter k Earlier.ascend X) →
  discoveredPath st' = Some d →
  ∃ k, d = relativeModule (Nat.iter k Earlier.ascend X) moduleName.
Proof.
  revert st. induction fuel as [|fuel IH]; intros st; [done|].
  simpl. destruct (search_guard moduleName st) eqn:Hg; cycle 1.
  { intros [= <-] Hnone _ Hd. congruence. }
  unfold Earlier.search_body.
  destruct (pathExists fs (relativeModule (testPath st) moduleName)).
  - destruct fuel as [|fuel]; [done|].
    rewrite earlier_search_loop_stop by by apply search_guard_discovered.
    intros [= <-] _ [k Hk]. simpl. intros [= <-]. exists k. by rewrite Hk.
  - intros Hrun Hnone [k Hk] Hd. eapply IH; [exact Hrun|done| |done].
    exists (S k). simpl. by rewrite Hk.
Qed.

Lemma earlier_ascend_prefix (D : path) : Earlier.ascend D `prefix_of` D.
Proof.
  unfold Earlier.ascend. etrans; apply dirname_prefix.
Qed.

(** From a module in a scope directory, the earlier ascent steps over the
    directory that holds the "node_modules" the module is installed in. *)
Lemma earlier_ascent_from_scoped (X : path) (s p : string) (k : nat) :
  X ≠ [] →
  length (Nat.iter k Earlier.ascend (X ++ ["node_modules"; s; p])) ≠ length X.
Proof.
  intros HX.
  assert (H1 : Earlier.ascend (X ++ ["node_modules"; s; p])
               = X ++ ["node_modules"]).
  { unfold Earlier.ascend.
    replace (X ++ ["node_modules"; s; p])
      with (((X ++ ["node_modules"]) ++ [s]) ++ [p]) by by rewrite <-!app_assoc.
    by rewrite !dirname_snoc. }
  assert (H2 : Earlier.ascend (X ++ ["node_modules"]) = dirname X).
  { unfold Earlier.ascend. by rewrite dirname_snoc. }
  assert (Hlen : 0 < length X) by (destruct X; [done|simpl; lia]).
  destruct k as [|[|k]].
  - simpl. rewrite length_app. simpl. lia.
  - simpl. rewrite H1, length_app. simpl. lia.
  - assert (Hpre : Nat.iter (S (S k)) Earlier.ascend (X ++ ["node_modules"; s; p])
                   `prefix_of` dirname X).
    { rewrite !Nat.iter_succ_r, H1, H2. clear.
      induction k as [|k IH]; [done|].
      simpl. etrans; [apply earlier_ascend_prefix|done]. }
    apply prefix_length in Hpre. rewrite dirname_length in Hpre. lia.
Qed.

Lemma resolves_to_first fs n X k :
  package_name n = true →
  (∀ j, j < k → pathExists fs (candidate n X j) = false) →
  pathExists fs (candidate n X k) = true →
  resolves_to fs n X (candidate n X k).
Proof.
  intros Hn Hmin Hex.
  destruct (search_total fs n X) as [st Hst].
  pose proof (search_loop_from fs n X _ 0 st Hn ltac:(intros; lia) Hst) as Hend.
  exists st. split; [done|].
  destruct (discoveredPath st) as [d|].
  - destruct Hend as (m & -> & Hex' & Hmin'). f_equal.
    destruct (Nat.lt_trichotomy m k) as [Hlt|[->|Hlt]]; [|done|].
    + rewrite (Hmin m Hlt) in Hex'. done.
    + rewrite (Hmin' k Hlt) in Hex. done.
  - rewrite Hend in Hex. done.
Qed.

(** X12: the ascent of lines 41-43 against that of line 182.  A module in
    a scope directory, "X/node_modules/@s/p" with [X] not the root of the
    file system, asks for a package name that is not installed below it but
    is installed next to its scope directory, in "X/node_modules": the
    search finds it there, and the search of the revision of lines 142-249
    ends without ever trying that place.  (With [X] the root of the file
    system the ascent of line 182 comes back to it.) *)
Theorem earlier_search_misses_scoped_sibling (fs : node) (name : string)
    (X : path) (s p : string) :
  package_name name = true → X ≠ [] → scoped s = true →
  pathExists fs (relativeModule (X ++ ["node_modules"; s; p]) name) = false →
  pathExists fs (relativeModule X name) = true →
  resolves_to fs name (X ++ ["node_modules"; s; p]) (relativeModule X name)
  ∧ ∃ st, Earlier.search fs name (X ++ ["node_modules"; s; p]) = Some st
          ∧ discoveredPath st ≠ Some (relativeModule X name).
Proof.
  intros Hn HX Hs Hbelow Hnext. split.
  - assert (Hc1 : candidate name (X ++ ["node_modules"; s; p]) 1
                  = relativeModule X name).
    { unfold candidate. simpl.
      by rewrite ascend_scoped by by apply scoped_not_node_modules. }
    rewrite <-Hc1. apply resolves_to_first; [done| |by rewrite Hc1].
    intros j Hj. by assert (j = 0) as -> by lia.
  - destruct (earlier_search_total fs name (X ++ ["node_modules"; s; p]))
      as [st Hst].
    exists st. split; [done|]. intros Hd.
    destruct (earlier_search_loop_discovers fs name (X ++ ["node_modules"; s; p])
                _ _ _ _ Hst eq_refl (ex_intro _ 0 eq_refl) Hd) as [k Hk].
    destruct (relativeModule_package_name name Hn) as (segs & Hrel & _).
    rewrite !Hrel in Hk. apply (f_equal length) in Hk.
    rewrite !length_app in Hk. simpl in Hk.
    pose proof (earlier_ascent_from_scoped X s p k HX). lia.
Qed.

Lemma earlier_search_misses_scoped_sibling_witness :
  resolves_to scoped_sibling_fs "b" ["app"; "node_modules"; "@s"; "a"]
    ["app"; "node_modules"; "b"]
  ∧ ∃ st, Earlier.search scoped_sibling_fs "b" ["app"; "node_modules"; "@s"; "a"]
          = Some st
          ∧ discoveredPath st ≠ Some ["app"; "node_modules"; "b"].
Proof.
  apply (earlier_search_misses_scoped_sibling scoped_sibling_fs "b" ["app"]
           "@s" "a"); reflexivity || done.
Defined.

Lemma earlier_pruneModule_shrinks prod fuel c fs fs' :
  Earlier.pruneModule fuel prod c fs = Some (Ok fs') → shrinks fs fs'.
Proof.
  revert c fs fs'. induction fuel as [|fuel IH]; intros c fs fs'; [done|].
  simpl. destruct (set_has c prod); cycle 1.
  { intros [= <-]. apply shrinks_remove_any. }
  destruct (pathExists fs _); simpl; [|intros [= <-]; apply shrinks_refl].
  destruct (readdir fs _) as [names|err]; [|done]. intros Hloop.
  apply (for_each_split shrinks _ names shrinks_refl shrinks_trans) in Hloop
    as [? _]; [done|].
  intros x s s' _. apply IH.
Qed.

(** X13: the descent of lines 104-107 against the loop of lines 237-239.
    With a scope directory in the "node_modules" of the root that is not
    itself in the set, the [pruneModule] of the revision of lines 142-249
    deletes every package in the scope directory, members of the set
    included, while [pruneModule] leaves the members among them as they
    are. *)
Theorem earlier_prune_deletes_scoped_members (fuel fuel' : nat)
    (prod : list path) (rootModule : path) (fs fs1 fs2 : node)
    (s name : string) :
  Earlier.pruneModule fuel prod rootModule fs = Some (Ok fs1) →
  pruneModule fuel' prod rootModule fs = Some (Ok fs2) →
  rootModule ∈ prod → scoped s = true →
  rootModule ++ ["node_modules"; s] ∉ prod →
  rootModule ++ ["node_modules"; s; name] ∈ prod →
  stat fs1 (rootModule ++ ["node_modules"; s; name]) = None
  ∧ stat fs2 (rootModule ++ ["node_modules"; s; name])
    = stat fs (rootModule ++ ["node_modules"; s; name]).
Proof.
  intros Hrun1 Hrun2 Hroot Hs Hscope Hmember. split; cycle 1.
  { pose proof (pruneModule_pruned _ _ _ _ _ (or_intror Hroot) Hrun2) as Hpr.
    apply (pruned_kept _ _ _ _ Hpr).
    eapply kept_below; [by apply kept_root|by apply below_scoped|done]. }
  pose proof (earlier_pruneModule_shrinks _ _ _ _ _ Hrun1) as Hsh.
  assert (Hpre : (rootModule ++ ["node_modules"; s])
                 `prefix_of` rootModule ++ ["node_modules"; s; name]).
  { apply prefix_app. by exists [name]. }
  destruct (stat fs (rootModule ++ ["node_modules"; s])) as [k|] eqn:Hk; cycle 1.
  { apply (shrinks_None _ _ _ Hsh). by eapply stat_prefix_None. }
  destruct fuel as [|fuel]; [done|]. revert Hrun1. simpl. unfold set_has.
  rewrite bool_decide_true by done. rewrite resolve_node_modules.
  destruct (pathExists fs (rootModule ++ ["node_modules"])) eqn:Hnm; simpl;
    cycle 1.
  { intros _.
    assert (Hsome : is_Some (stat fs (rootModule ++ ["node_modules"]))).
    { eapply stat_prefix; [|by rewrite Hk]. apply prefix_app. by exists [s]. }
    apply pathExists_stat in Hsome. congruence. }
  destruct (readdir fs (rootModule ++ ["node_modules"])) as [names|err] eqn:Hnames;
    [|done].
  intros Hloop.
  apply (for_each_split shrinks _ names shrinks_refl shrinks_trans) in Hloop
    as [_ Hvisit].
  2:{ intros x si si' _. apply earlier_pruneModule_shrinks. }
  destruct (Hvisit s) as (si & si' & _ & Hstep & Hsi').
  { apply (readdir_Ok _ _ _ Hnames). rewrite <-app_assoc. simpl. by rewrite Hk. }
  destruct fuel as [|fuel]; [done|]. revert Hstep. simpl. unfold set_has.
  rewrite <-app_assoc. simpl. rewrite bool_decide_false by done.
  intros [= <-]. apply (shrinks_None _ _ _ Hsi').
  rewrite stat_remove by by destruct rootModule. by rewrite decide_True.
Qed.

Lemma earlier_prune_deletes_scoped_members_witness :
  ∃ fs1 fs2,
    Earlier.pruneModule 3
      [["app"]; ["app"; "node_modules"; "@s"; "a"]; ["app"; "node_modules"; "b"]]
      ["app"] scoped_sibling_fs = Some (Ok fs1)
    ∧ pruneModule 3
        [["app"]; ["app"; "node_modules"; "@s"; "a"]; ["app"; "node_modules"; "b"]]
        ["app"] scoped_sibling_fs = Some (Ok fs2)
    ∧ stat fs1 ["app"; "node_modules"; "@s"; "a"] = None
    ∧ stat fs2 ["app"; "node_modules"; "@s"; "a"]
      = stat scoped_sibling_fs ["app"; "node_modules"; "@s"; "a"].
Proof.
  assert (H1 : ∃ fs1, Earlier.pruneModule 3
      [["app"]; ["app"; "node_modules"; "@s"; "a"]; ["app"; "node_modules"; "b"]]
      ["app"] scoped_sibling_fs = Some (Ok fs1))
    by (eexists; vm_compute; reflexivity).
  assert (H2 : ∃ fs2, pruneModule 3
      [["app"]; ["app"; "node_modules"; "@s"; "a"]; ["app"; "node_modules"; "b"]]
      ["app"] scoped_sibling_fs = Some (Ok fs2))
    by (eexists; vm_compute; reflexivity).
  destruct H1 as [fs1 H1]. destruct H2 as [fs2 H2].
  exists fs1, fs2. split; [exact H1|]. split; [exact H2|].
  apply (earlier_prune_deletes_scoped_members 3 3 _ ["app"] scoped_sibling_fs
           fs1 fs2 "@s" "a" H1 H2).
  - left.
  - reflexivity.
  - intros Hb. apply elem_of_cons in Hb as [Hb|Hb]; [done|].
    apply elem_of_cons in Hb as [Hb|Hb]; [done|].
    apply elem_of_cons in Hb as [Hb|Hb]; [done|]. by apply elem_of_nil in Hb.
  - right. left.
Defined.

(** ** Pruning a pruned tree *)

Lemma loadPackageJSON_stat fs1 fs2 X :
  stat fs1 (X ++ ["package.json"]) = stat fs2 (X ++ ["package.json"]) →
  loadPackageJSON fs1 X = loadPackageJSON fs2 X.
Proof.
  unfold loadPackageJSON, pathExists, stat. rewrite resolve_package_json.
  destruct (lookup _ fs1) as [[c1|es1]|], (lookup _ fs2) as [[c2|es2]|];
    simpl; intros Heq; simplify_eq; try done.
Qed.

Lemma shrinks_pathExists_false fs fs' p :
  shrinks fs fs' → pathExists fs p = false → pathExists fs' p = false.
Proof.
  intros Hsh Hp. destruct (pathExists fs' p) eqn:Hp'; [|done].
  apply pathExists_stat in Hp'.
  rewrite (shrinks_is_Some _ _ _ Hsh Hp') in Hp'.
  apply pathExists_stat in Hp'. congruence.
Qed.

Lemma search_discovers fs n X st :
  package_name n = true → search fs n X = Some st →
  match discoveredPath st with
  | Some d => ∃ m, d = candidate n X m ∧ pathExists fs d = true
                   ∧ ∀ j, j < m → pathExists fs (candidate n X j) = false
  | None => ∀ j, pathExists fs (candidate n X j) = false
  end.
Proof.
  intros Hn Hst.
  exact (search_loop_from fs n X _ 0 st Hn ltac:(intros; lia) Hst).
Qed.

Lemma search_none fs n X :
  package_name n = true →
  (∀ k, pathExists fs (candidate n X k) = false) →
  ∃ st, search fs n X = Some st ∧ discoveredPath st = None.
Proof.
  intros Hn Hnone. destruct (search_total fs n X) as [st Hst].
  exists st. split; [done|].
  pose proof (search_discovers _ _ _ _ Hn Hst) as Hend.
  destruct (discoveredPath st) as [d|]; [|done].
  destruct Hend as (m & -> & Hex & _). rewrite Hnone in Hex. done.
Qed.

(** On a tree with less in it, where what was found is still there, the
    search discovers the same. *)
Lemma search_shrinks fs fs' n X st (keep : list path) :
  package_name n = true → shrinks fs fs' →
  (∀ p, p ∈ keep → stat fs' p = stat fs p) →
  search fs n X = Some st →
  (∀ d, discoveredPath st = Some d → d ∈ keep) →
  ∃ st', search fs' n X = Some st' ∧ discoveredPath st' = discoveredPath st.
Proof.
  intros Hn Hsh Hkeep Hst Hd.
  pose proof (search_discovers _ _ _ _ Hn Hst) as Hend.
  destruct (discoveredPath st) as [d|].
  - destruct Hend as (m & -> & Hex & Hmin).
    apply (resolves_to_first fs' n X m Hn).
    + intros j Hj. eapply shrinks_pathExists_false; [done|]. by apply Hmin.
    + apply pathExists_stat. rewrite Hkeep by by apply Hd.
      by apply pathExists_stat.
  - apply search_none; [done|].
    intros k. by eapply shrinks_pathExists_false.
Qed.

(** A loop whose rounds can be replayed by another body, given where the
    loop ends, can be replayed as a whole. *)
Lemma for_each_sim {A S : Type} (P : S → Prop) (body body' : A → S → M S)
    (l : list A) :
  (∀ x s s', x ∈ l → body x s = Some (Ok s') → P s' → P s) →
  (∀ x s s', x ∈ l → body x s = Some (Ok s') → P s' →
             body' x s = Some (Ok s')) →
  ∀ s s', for_each body l s = Some (Ok s') → P s' →
  for_each body' l s = Some (Ok s') ∧ P s.
Proof.
  induction l as [|x l IH]; intros Hback Hsim s s'; simpl.
  - by intros [= <-].
  - destruct (body x s) as [[s1|e]|] eqn:Hx; [|done..]. intros Hl Hs'.
    assert (Hback' : ∀ y a b, y ∈ l → body y a = Some (Ok b) → P b → P a).
    { intros y a b Hy. apply Hback. by right. }
    assert (Hsim' : ∀ y a b, y ∈ l → body y a = Some (Ok b) → P b →
                             body' y a = Some (Ok b)).
    { intros y a b Hy. apply Hsim. by right. }
    destruct (IH Hback' Hsim' _ _ Hl Hs') as [Hl' Hs1].
    rewrite (Hsim x s s1) by (done || by left).
    split; [done|]. apply (Hback x s s1); [by left|done..].
Qed.

(** The traversal can be replayed on a tree with less in it, when the
    members it ends with, and their descriptors, are as they were. *)
Lemma forModule_shrinks fs fs' (keep : list path) fuel X allow w w' :
  descriptors_ok fs = true → shrinks fs fs' →
  (∀ p, p ∈ keep → stat fs' p = stat fs p
                   ∧ loadPackageJSON fs' p = loadPackageJSON fs p) →
  loadProductionDependenciesForModule fuel fs X allow w = Some (Ok w') →
  prodPaths w' ⊆ keep →
  loadProductionDependenciesForModule fuel fs' X allow w = Some (Ok w').
Proof.
  intros Hok Hsh Hkeep. revert X allow w w'.
  induction fuel as [|fuel IH]; intros X allow w w' Hrun Hsub; [done|].
  pose proof (forModule_grows _ _ _ _ _ _ Hrun) as [_ HX].
  revert Hrun. simpl. destruct (set_has X (prodPaths w)); [done|].
  rewrite (proj2 (Hkeep X (Hsub X HX))).
  destruct (loadPackageJSON fs X) as [[pJ|]|e] eqn:HpJ; [|done..].
  set (P := λ s : Walker, prodPaths s ⊆ keep).
  assert (Hstep : ∀ allow' name s s',
    package_name name = true →
    loadProductionDependenciesForModuleInModule
      (loadProductionDependenciesForModule fuel fs) fs name X allow' s
    = Some (Ok s') → P s' →
    loadProductionDependenciesForModuleInModule
      (loadProductionDependenciesForModule fuel fs') fs' name X allow' s
    = Some (Ok s') ∧ P s).
  { intros allow' name s s' Hname.
    unfold loadProductionDependenciesForModuleInModule.
    destruct (search fs name X) as [st|] eqn:Hst; [|done].
    destruct (discoveredPath st) as [d|] eqn:Hd.
    - intros Hcall Hs'.
      pose proof (forModule_grows _ _ _ _ _ _ Hcall) as [Hg Hdin].
      destruct (search_shrinks fs fs' name X st keep Hname Hsh
                  (λ p Hp, proj1 (Hkeep p Hp)) Hst) as (st' & -> & ->).
      { intros d' Hd'. rewrite Hd in Hd'. injection Hd' as <-. by apply Hs'. }
      rewrite Hd. split; [by apply IH|].
      intros p Hp. by apply Hs', (grows_subseteq _ _ Hg).
    - intros Hcall Hs'.
      destruct (search_shrinks fs fs' name X st keep Hname Hsh
                  (λ p Hp, proj1 (Hkeep p Hp)) Hst) as (st' & -> & ->).
      { intros d' Hd'. by rewrite Hd in Hd'. }
      rewrite Hd. destruct allow'; simpl in *; [|done].
      by injection Hcall as <-. }
  destruct (for_each _ (dependencies pJ) _) as [[w1|e]|] eqn:Hdeps; [|done..].
  intros Hopts.
  assert (Hname : ∀ n, n ∈ dependencies pJ ∨ n ∈ optionalDependencies pJ →
                       package_name n = true).
  { intros n Hn. by eapply descriptors_ok_spec. }
  destruct (for_each_sim P _
    (λ moduleName, loadProductionDependenciesForModuleInModule
       (loadProductionDependenciesForModule fuel fs') fs' moduleName X true)
    (optionalDependencies pJ)
    (λ x s s' Hx Hb Hp, proj2 (Hstep true x s s' (Hname x (or_intror Hx)) Hb Hp))
    (λ x s s' Hx Hb Hp, proj1 (Hstep true x s s' (Hname x (or_intror Hx)) Hb Hp))
    _ _ Hopts Hsub) as [Hopts' Hw1].
  destruct (for_each_sim P _
    (λ moduleName, loadProductionDependenciesForModuleInModule
       (loadProductionDependenciesForModule fuel fs') fs' moduleName X allow)
    (dependencies pJ)
    (λ x s s' Hx Hb Hp, proj2 (Hstep allow x s s' (Hname x (or_introl Hx)) Hb Hp))
    (λ x s s' Hx Hb Hp, proj1 (Hstep allow x s s' (Hname x (or_introl Hx)) Hb Hp))
    _ _ Hdeps Hw1) as [Hdeps' _].
  by rewrite Hdeps'.
Qed.

Lemma above_length rootModule T : above rootModule T → length T < length rootModule.
Proof.
  intros [[k ->] Hne]. destruct k as [|x k]; [by rewrite app_nil_r in Hne|].
  rewrite length_app. simpl. lia.
Qed.

(** When the keys of all descriptors are package names, [prune] leaves the
    descriptor of every member as it was. *)
Lemma prune_descriptors_untouched fuel fs rootModule prod fs' :
  descriptors_ok fs = true →
  prune fuel fs rootModule = Some (Ok (prod, fs')) →
  ∀ p, p ∈ prod →
    stat fs' (p ++ ["package.json"]) = stat fs (p ++ ["package.json"]).
Proof.
  intros Hok (w & Hw & -> & Hprune)%prune_inv p Hp.
  pose proof (proj1 (root_is_member_aux _ _ _ _ Hw)) as Hroot.
  assert (Hanch : anchored (prodPaths w) rootModule p).
  { eapply (forModule_anchored fs rootModule); [done|exact Hw| | | |done].
    - apply elem_of_set_add. by left.
    - apply anchored_kept, kept_root, elem_of_set_add. by left.
    - intros m Hm. by apply elem_of_nil in Hm. }
  pose proof (pruneModule_pruned _ _ _ _ _ (or_intror Hroot) Hprune) as Hpr.
  destruct Hanch as [T HT|T HT|T' n T HT' Hn HT0 HTin HTout].
  - apply (pruneModule_not_away _ _ _ _ _ _ Hroot Hprune).
    intros (q & C & Hq & HC & HCnot & HCpre). apply HCnot.
    apply (kept_inside_not_away _ (length T) rootModule T q C ["package.json"]);
      [lia|done..|].
    intros [?|H]%elem_of_cons; [done|]. by apply elem_of_nil in H.
  - apply (pruned_outside _ _ _ _ Hpr Hroot). intros e Hpre.
    apply prefix_length in Hpre. rewrite !length_app in Hpre. simpl in Hpre.
    apply above_length in HT. lia.
  - apply (pruned_outside _ _ _ _ Hpr Hroot). intros e Hpre.
    apply prefix_snoc_inv in Hpre as [Heq|Hpre]; [|by destruct (HTout e)].
    change (rootModule ++ ["node_modules"; e])
      with (rootModule ++ ["node_modules"] ++ [e]) in Heq.
    rewrite app_assoc in Heq. apply app_inj_tail in Heq as [Heq _].
    destruct (relativeModule_package_name n Hn) as (segs & Hrel & Hsegs).
    rewrite HT0, Hrel in Heq.
    by destruct (node_modules_not_found T' rootModule segs Hsegs).
Qed.

(** X14: [prune] is idempotent when the keys of the [dependencies] and
    [optionalDependencies] of all descriptors are package names: on the
    tree that [prune] left, the build returns the same set, in the same
    order, and [prune] returns the same set and leaves the tree as it
    is. *)
Theorem prune_idempotent (fuel : nat) (fs : node) (rootModule : path)
    (prod : list path) (fs' : node) :
  descriptors_ok fs = true → prune_fuel fs ≤ fuel →
  prune fuel fs rootModule = Some (Ok (prod, fs')) →
  (∀ w, loadProductionDependencies fuel fs rootModule = Some (Ok w) →
        loadProductionDependencies fuel fs' rootModule = Some (Ok w))
  ∧ prune fuel fs' rootModule = Some (Ok (prod, fs')).
Proof.
  intros Hok Hfuel Hprune.
  pose proof (prune_members_untouched _ _ _ _ _ Hok Hprune) as Hmembers.
  pose proof (prune_descriptors_untouched _ _ _ _ _ Hok Hprune) as Hdescr.
  destruct (prune_inv _ _ _ _ _ Hprune) as (w & Hw & -> & Hrun).
  pose proof (proj1 (root_is_member_aux _ _ _ _ Hw)) as Hroot.
  pose proof (pruneModule_pruned _ _ _ _ _ (or_intror Hroot) Hrun) as Hpr.
  assert (Hbuild : loadProductionDependencies fuel fs' rootModule = Some (Ok w)).
  { apply (forModule_shrinks fs fs' (prodPaths w)); [done| | |done|done].
    - apply (pruned_shrinks _ _ _ _ Hpr).
    - intros p Hp. split; [by apply Hmembers|].
      by apply loadPackageJSON_stat, Hdescr. }
  split; [intros w' Hw'; congruence|].
  unfold prune. rewrite Hbuild.
  unfold prune_fuel, build_fuel in Hfuel.
  destruct (pruneModule_total (prodPaths w) fs fuel rootModule fs')
    as (r & Hr & _); [apply (pruned_shrinks _ _ _ _ Hpr)|lia|lia|].
  rewrite Hr.
  apply (pruneModule_again _ _ _ _ _ Hroot) in Hr as ->; [done| |].
  - apply (pruned_clean _ _ _ _ Hpr).
  - by eapply pruneModule_walkable.
Qed.

Lemma prune_idempotent_witness :
  descriptors_ok scenario_fs = true
  ∧ prune_fuel scenario_fs ≤ 40
  ∧ ∃ fs', prune 40 scenario_fs ["app"]
           = Some (Ok ([["app"]; ["app"; "node_modules"; "a"]], fs'))
    ∧ prune 40 fs' ["app"]
      = Some (Ok ([["app"]; ["app"; "node_modules"; "a"]], fs')).
Proof.
  assert (Hok : descriptors_ok scenario_fs = true) by reflexivity.
  assert (Hfuel : prune_fuel scenario_fs ≤ 40) by (vm_compute; lia).
  split; [exact Hok|]. split; [exact Hfuel|].
  assert (H : ∃ fs', prune 40 scenario_fs ["app"]
           = Some (Ok ([["app"]; ["app"; "node_modules"; "a"]], fs')))
    by (eexists; vm_compute; reflexivity).
  destruct H as [fs' H]. exists fs'. split; [exact H|].
  exact (proj2 (prune_idempotent 40 scenario_fs ["app"] _ fs' Hok Hfuel H)).
Defined.

(** ** What the search and the build read *)

Lemma search_loop_frame fs1 fs2 n X fuel st :
  (∀ k, pathExists fs1 (candidate n X k) = pathExists fs2 (candidate n X k)) →
  (∃ k, testPath st = Nat.iter k ascend X) →
  search_loop fuel fs1 n st = search_loop fuel fs2 n st.
Proof.
  intros Hagree. revert st. induction fuel as [|fuel IH]; intros st [k Hk]; [done|].
  simpl. destruct (search_guard n st); [|done].
  unfold search_body. rewrite Hk. fold (candidate n X k). rewrite <-Hagree.
  destruct (pathExists fs1 (candidate n X k)).
  - apply IH. by exists k.
  - apply IH. by exists (S k).
Qed.

(** X15: the search reads of the file system only whether its candidates
    exist: on two file systems that agree on that, it goes through the
    same states and ends in the same one. *)
Theorem search_reads_candidates_only (fs1 fs2 : node) (moduleName : string)
    (modulePath : path) :
  (∀ k, pathExists fs1 (candidate moduleName modulePath k)
        = pathExists fs2 (candidate moduleName modulePath k)) →
  search fs1 moduleName modulePath = search fs2 moduleName modulePath.
Proof.
  intros Hagree. apply (search_loop_frame fs1 fs2 moduleName modulePath);
    [done|by exists 0].
Qed.

Lemma search_reads_candidates_only_witness :
  search scenario_fs "a" ["app"] = search scenario_fs_later "a" ["app"].
Proof.
  apply search_reads_candidates_only. intros k.
  destruct k as [|k]; [reflexivity|].
  assert (Hk : Nat.iter (S k) ascend ["app"] = []).
  { induction k as [|k IH]; [reflexivity|].
    change (Nat.iter (S (S k)) ascend ["app"])
      with (ascend (Nat.iter (S k) ascend ["app"])).
    rewrite IH. reflexivity. }
  unfold candidate. rewrite Hk. reflexivity.
Defined.

Lemma production_keys_inv r1 r2 :
  production_keys r1 = production_keys r2 →
  match r1, r2 with
  | Ok (Some pJ1), Ok (Some pJ2) =>
      dependencies pJ1 = dependencies pJ2
      ∧ optionalDependencies pJ1 = optionalDependencies pJ2
  | Ok None, Ok None => True
  | Err e1, Err e2 => e1 = e2
  | _, _ => False
  end.
Proof.
  destruct r1 as [[pJ1|]|e1], r2 as [[pJ2|]|e2]; simpl; intros H;
    by simplify_eq.
Qed.

Lemma forModule_frame fs1 fs2 fuel X allow w :
  (∀ p, pathExists fs1 p = pathExists fs2 p) →
  (∀ p, production_keys (loadPackageJSON fs1 p)
        = production_keys (loadPackageJSON fs2 p)) →
  loadProductionDependenciesForModule fuel fs1 X allow w
  = loadProductionDependenciesForModule fuel fs2 X allow w.
Proof.
  intros Hex Hkeys. revert X allow w.
  induction fuel as [|fuel IH]; intros X allow w; [done|].
  simpl. destruct (set_has X (prodPaths w)); [done|].
  pose proof (production_keys_inv _ _ (Hkeys X)) as HX.
  destruct (loadPackageJSON fs1 X) as [[pJ1|]|e1],
           (loadPackageJSON fs2 X) as [[pJ2|]|e2]; try done; [|by subst].
  destruct HX as [-> ->].
  assert (Hbody : ∀ allow' name w',
    loadProductionDependenciesForModuleInModule
      (loadProductionDependenciesForModule fuel fs1) fs1 name X allow' w'
    = loadProductionDependenciesForModuleInModule
        (loadProductionDependenciesForModule fuel fs2) fs2 name X allow' w').
  { intros allow' name w'. unfold loadProductionDependenciesForModuleInModule.
    rewrite (search_loop_frame fs1 fs2 name X (search_fuel X) (search_init X)
               (λ k, Hex _) (ex_intro _ 0 eq_refl)
             : search fs1 name X = search fs2 name X).
    destruct (search fs2 name X) as [st|]; [|done].
    by destruct (discoveredPath st). }
  rewrite (for_each_ext _ _ (dependencies pJ2) _ (λ x s _, Hbody allow x s)).
  destruct (for_each _ (dependencies pJ2) _) as [[w1|e]|]; [|done..].
  apply for_each_ext. intros x s _. apply Hbody.
Qed.

(** X16: the build reads of the file system only whether paths exist and,
    of the descriptors, the keys of [dependencies] and
    [optionalDependencies] (or the exception of reading them): on two file
    systems that agree on that -- whatever else their files hold and
    however their directories are ordered -- it returns the same. *)
Theorem build_reads_existence_and_production_keys (fuel : nat)
    (fs1 fs2 : node) (rootModule : path) :
  (∀ p, pathExists fs1 p = pathExists fs2 p) →
  (∀ p, production_keys (loadPackageJSON fs1 p)
        = production_keys (loadPackageJSON fs2 p)) →
  loadProductionDependencies fuel fs1 rootModule
  = loadProductionDependencies fuel fs2 rootModule.
Proof. intros Hex Hkeys. by apply forModule_frame. Qed.

Lemma build_reads_existence_and_production_keys_witness :
  loadProductionDependencies 3 (override_dev (λ _, ["left-pad"]) [] scenario_fs)
    ["app"]
  = loadProductionDependencies 3 scenario_fs ["app"].
Proof.
  apply build_reads_existence_and_production_keys.
  - intros p. apply pathExists_override.
  - intros p. rewrite loadPackageJSON_override.
    by destruct (loadPackageJSON scenario_fs p) as [[pJ|]|e].
Defined.

(** ** The subtree test of the copy filter *)

Lemma string_app_nil_r (s : string) : s +:+ "" = s.
Proof. induction s as [|a s IH]; [done|]. by rewrite string_app_cons, IH. Qed.

Lemma string_app_inv_nil (s t : string) : s +:+ t = s → t = "".
Proof.
  induction s as [|a s IH]; [done|]. rewrite string_app_cons.
  intros [= H]. by apply IH.
Qed.

Lemma render_segments_snoc_prefix (p rest : path) (s suffix : string) :
  String.prefix (render_segments (p ++ [s]))
                (render_segments (p ++ [s +:+ suffix] ++ rest)) = true.
Proof.
  rewrite !render_segments_app.
  change (render_segments [s]) with ("/" +:+ s +:+ "").
  change (render_segments [s +:+ suffix]) with ("/" +:+ (s +:+ suffix) +:+ "").
  rewrite !string_app_nil_r.
  replace (render_segments p +:+ ("/" +:+ s +:+ suffix) +:+ render_segments rest)
    with ((render_segments p +:+ "/" +:+ s) +:+ (suffix +:+ render_segments rest)).
  - apply string_prefix_app.
  - by rewrite !string_app_assoc.
Qed.

(** X17: the subtree test of line 135 compares strings: for a path below
    a sibling of the root's "node_modules" whose name starts with
    "node_modules" (such as "node_modules_old"), which is not in the
    subtree, the filter applies the membership test all the same, and
    answers "skip" iff the owning module is not in the set. *)
Theorem ignore_function_string_prefix (fuel0 : nat) (fs0 : node)
    (rootModule : path) (ignore : nat → node → path → M bool)
    (fuel : nat) (fs : node) (suffix : string) (rest m : path) :
  getFsCopyIgnoreFunction fuel0 fs0 rootModule = Some (Ok ignore) →
  suffix ≠ "" →
  getNearestModuleDirectory fuel fs
    (rootModule ++ ["node_modules" +:+ suffix] ++ rest) = Some (Ok m) →
  ∃ w, loadProductionDependencies fuel0 fs0 rootModule = Some (Ok w)
    ∧ ¬ resolve rootModule "node_modules"
        `prefix_of` rootModule ++ ["node_modules" +:+ suffix] ++ rest
    ∧ ignore fuel fs (rootModule ++ ["node_modules" +:+ suffix] ++ rest)
      = Some (Ok (negb (set_has m (prodPaths w)))).
Proof.
  intros (w & Hbuild & ->)%getFsCopyIgnoreFunction_inv Hsuffix Hm.
  exists w. split_and!; [done| |].
  - rewrite resolve_node_modules. intros [k Hk].
    rewrite <-app_assoc in Hk. apply app_inv_head in Hk.
    injection Hk as Hk _. by apply string_app_inv_nil in Hk.
  - rewrite (ignoreFunction_result _ _ _ _ _ m Hm).
    rewrite resolve_node_modules.
    replace (String.prefix _ _) with true; [done|]. symmetry.
    unfold render.
    destruct (rootModule ++ ["node_modules"]) eqn:H1; [by destruct rootModule|].
    destruct (rootModule ++ ["node_modules" +:+ suffix] ++ rest) eqn:H2;
      [by destruct rootModule|].
    rewrite <-H1, <-H2. apply render_segments_snoc_prefix.
Qed.

Lemma ignore_function_string_prefix_witness :
  ∃ w, loadProductionDependencies 3 sibling_fs ["app"] = Some (Ok w)
    ∧ ¬ resolve ["app"] "node_modules"
        `prefix_of` ["app"] ++ ["node_modules" +:+ "_old"] ++ ["x"; "index.js"]
    ∧ ignoreFunction [["app"]; ["app"; "node_modules"; "a"]]
        ["app"; "node_modules"] 5 sibling_fs
        (["app"] ++ ["node_modules" +:+ "_old"] ++ ["x"; "index.js"])
      = Some (Ok (negb (set_has ["app"; "node_modules_old"; "x"] (prodPaths w)))).
Proof.
  apply (ignore_function_string_prefix 3 sibling_fs ["app"] _ 5 sibling_fs
           "_old" ["x"; "index.js"] ["app"; "node_modules_old"; "x"]).
  - reflexivity.
  - done.
  - reflexivity.
Defined.

(** ** How [allowMissing] is handed down *)

Lemma required_production fs X Z :
  rtc (required_edge fs) X Z → rtc (production_edge fs) X Z.
Proof. apply rtc_subrel. intros ???. by left. Qed.

Lemma through_optional_l fs X d Z :
  production_edge fs X d → through_optional fs d Z → through_optional fs X Z.
Proof.
  intros Hedge (Y & Y' & HY & Hopt & HZ). exists Y, Y'.
  split_and!; [by eapply rtc_l|done..].
Qed.

Lemma forModule_expanded fs fuel X allow w w' :
  loadProductionDependenciesForModule fuel fs X allow w = Some (Ok w') →
  ∀ Z a, (Z, a) ∈ expanded w' →
    (Z, a) ∈ expanded w ∨ expanded_from fs X allow Z a.
Proof.
  set (R := λ (X : path) (allow : bool) w r,
    ∀ w', r = Ok w' → ∀ Z a, (Z, a) ∈ expanded w' →
      (Z, a) ∈ expanded w ∨ expanded_from fs X allow Z a).
  intros H. revert w' H.
  cut (∀ r, loadProductionDependenciesForModule fuel fs X allow w = Some r →
            R X allow w r).
  { intros Hr w' H. by apply (Hr _ H). }
  revert fuel X allow w. apply (forModule_rule fs R); unfold R; clear R.
  - intros X allow w HX w' [= <-] Z a HZ. by left.
  - done.
  - intros X allow w HX HpJ w' [= <-] Z a. simpl.
    rewrite elem_of_app, list_elem_of_singleton. intros [?|[= -> ->]]; [by left|].
    right. by left.
  - intros X allow w pJ r1 r HX HpJ H1 H2 w' ->.
    set (Q := λ wa wb : Walker, ∀ Z a, (Z, a) ∈ expanded wb →
      (Z, a) ∈ expanded wa ∨ expanded_from fs X allow Z a).
    assert (Qrefl : ∀ wa, Q wa wa) by (intros wa Z a ?; by left).
    assert (Qtrans : ∀ w1 w2 w3, Q w1 w2 → Q w2 w3 → Q w1 w3).
    { intros w1 w2 w3 H12 H23 Z a HZ.
      destruct (H23 Z a HZ) as [?|?]; [by apply H12|by right]. }
    assert (Hdeps : ∀ wa wb,
      loop_rel (in_module_rel (λ X allow w r,
        ∀ w', r = Ok w' → ∀ Z a, (Z, a) ∈ expanded w' →
          (Z, a) ∈ expanded w ∨ expanded_from fs X allow Z a)
        fs X allow) (dependencies pJ) wa (Ok wb) → Q wa wb).
    { intros wa wb. apply loop_rel_ok_inv; [done..|].
      intros name s s' Hname. apply in_module_rel_ok_inv; [done|].
      intros d wc wd Hd HR Z a HZ.
      assert (Hedge : required_edge fs X d) by by exists pJ, name.
      destruct (HR _ eq_refl Z a HZ) as [?|[[-> Hreq]|[-> Hopt]]]; [by left|..].
      - right. left. split; [done|]. by eapply rtc_l.
      - right. right. split; [done|].
        eapply through_optional_l; [|done]. by left. }
    assert (Hopts : ∀ wa wb,
      loop_rel (in_module_rel (λ X allow w r,
        ∀ w', r = Ok w' → ∀ Z a, (Z, a) ∈ expanded w' →
          (Z, a) ∈ expanded w ∨ expanded_from fs X allow Z a)
        fs X true) (optionalDependencies pJ) wa (Ok wb) → Q wa wb).
    { intros wa wb. apply loop_rel_ok_inv; [done..|].
      intros name s s' Hname. apply in_module_rel_ok_inv; [done|].
      intros d wc wd Hd HR Z a HZ.
      assert (Hedge : optional_edge fs X d) by by exists pJ, name.
      destruct (HR _ eq_refl Z a HZ) as [?|[[-> Hreq]|[-> Hopt]]]; [by left|..].
      - right. right. split; [done|]. exists X, d.
        split_and!; [done|done|by apply required_production].
      - right. right. split; [done|].
        eapply through_optional_l; [|done]. by right. }
    destruct r1 as [w1|e]; [|done].
    intros Z a HZ.
    destruct (Qtrans _ _ _ (Hdeps _ _ H1) (Hopts _ _ H2) Z a HZ) as [HZ1|?];
      [|by right].
    simpl in HZ1.
    apply elem_of_app in HZ1 as [?|[= -> ->]%list_elem_of_singleton]; [by left|].
    right. by left.
Qed.

(** X18: how [allowMissing] is handed down.  In a build that returned, a
    module that was expanded with [allowMissing = false] is reachable from
    the root through [dependencies] keys alone, and a module that was
    expanded with [allowMissing = true] is reachable through a chain with
    an [optionalDependencies] key in it; each member was expanded in one
    of the two ways. *)
Theorem allow_missing_handed_down (fuel : nat) (fs : node) (rootModule : path)
    (w : Walker) :
  loadProductionDependencies fuel fs rootModule = Some (Ok w) →
  ∀ Z, ((Z, false) ∈ expanded w → rtc (required_edge fs) rootModule Z)
       ∧ ((Z, true) ∈ expanded w → through_optional fs rootModule Z)
       ∧ (Z ∈ prodPaths w → ∃ a, (Z, a) ∈ expanded w).
Proof.
  intros H Z. split_and!.
  - intros HZ. destruct (forModule_expanded _ _ _ _ _ _ H Z false HZ)
      as [Hnil|[[_ ?]|[? _]]]; [by apply elem_of_nil in Hnil|done..].
  - intros HZ. destruct (forModule_expanded _ _ _ _ _ _ H Z true HZ)
      as [Hnil|[[? _]|[_ ?]]]; [by apply elem_of_nil in Hnil|done..].
  - intros HZ. apply root_is_member_aux in H as [_ Hg].
    apply grows_new_walker in Hg as (_ & _ & Heq). rewrite <-Heq in HZ.
    apply list_elem_of_fmap in HZ as ([Z' a] & -> & HZ). by exists a.
Qed.

Lemma allow_missing_handed_down_witness :
  ∃ w, loadProductionDependencies (build_fuel optional_fs) optional_fs ["app"]
       = Some (Ok w)
    ∧ through_optional optional_fs ["app"] ["app"; "node_modules"; "d"].
Proof.
  assert (H : loadProductionDependencies (build_fuel optional_fs) optional_fs
                ["app"]
    = Some (Ok {| prodPaths := [["app"];
                                ["app"; "node_modules"; "c"];
                                ["app"; "node_modules"; "d"]];
                  expanded := [(["app"], false);
                               (["app"; "node_modules"; "c"], true);
                               (["app"; "node_modules"; "d"], true)] |}))
    by (vm_compute; reflexivity).
  eexists. split; [exact H|].
  apply (proj1 (proj2 (allow_missing_handed_down _ _ _ _ H
                         ["app"; "node_modules"; "d"]))).
  simpl. right. right. left.
Defined.

(** ** The copy filter after pruning *)

Lemma nearest_module_unique fs P m m' :
  nearest_module fs P m → nearest_module fs P m' → m = m'.
Proof.
  intros (Hpre & Hmod & Hmax) (Hpre' & Hmod' & Hmax').
  apply (anti_symm prefix); auto.
Qed.

(** X19: after [prune], the copy filter of the same walker, asked on the
    pruned tree, answers "do not skip" for every path whose owning module
    is the root or an installed module directory: what [prune] left of
    the installed modules is what the filter lets through. *)
Theorem filter_after_prune (fuel0 : nat) (fs : node) (rootModule : path)
    (ignore : nat → node → path → M bool) (prod : list path) (fs' : node)
    (tPath m : path) (fuel : nat) :
  getFsCopyIgnoreFunction fuel0 fs rootModule = Some (Ok ignore) →
  prune fuel0 fs rootModule = Some (Ok (prod, fs')) →
  is_Some (stat fs' tPath) → nearest_module fs' tPath m →
  m = rootModule ∨ installed fs' rootModule m →
  length tPath < fuel →
  ignore fuel fs' tPath = Some (Ok false).
Proof.
  intros (w & Hbuild & ->)%getFsCopyIgnoreFunction_inv
         (w' & Hbuild' & -> & Hrun)%prune_inv Hstat Hnear Hm Hfuel.
  assert (w' = w) as -> by congruence.
  assert (Hroot : rootModule ∈ prodPaths w) by by apply forModule_grows in Hbuild as [_ ?].
  pose proof (pruneModule_pruned _ _ _ _ _ (or_intror Hroot) Hrun) as Hpr.
  assert (Hin : m ∈ prodPaths w).
  { destruct Hm as [->|Hm]; [done|]. by apply (pruned_clean _ _ _ _ Hpr). }
  destruct Hnear as (Hpre & Hmod & Hmax).
  destruct (nearest_found fs' fuel tPath m Hstat Hpre Hmod Hfuel)
    as (m' & Hm' & Hnear').
  assert (m' = m) as ->.
  { by apply (nearest_module_unique fs' tPath). }
  rewrite (ignoreFunction_result _ _ _ _ _ m Hm').
  unfold set_has. rewrite bool_decide_true by done. by rewrite andb_false_r.
Qed.

Lemma filter_after_prune_witness :
  ∃ ignore fs',
    getFsCopyIgnoreFunction 4 sibling_fs ["app"] = Some (Ok ignore)
    ∧ prune 4 sibling_fs ["app"]
      = Some (Ok ([["app"]; ["app"; "node_modules"; "a"]], fs'))
    ∧ ignore 5 fs' ["app"; "node_modules"; "a"; "index.js"] = Some (Ok false).
Proof.
  assert (Hi : ∃ ignore, getFsCopyIgnoreFunction 4 sibling_fs ["app"]
                         = Some (Ok ignore))
    by (eexists; vm_compute; reflexivity).
  assert (Hp : ∃ fs', prune 4 sibling_fs ["app"]
           = Some (Ok ([["app"]; ["app"; "node_modules"; "a"]], fs')))
    by (eexists; vm_compute; reflexivity).
  destruct Hi as [ignore Hi]. destruct Hp as [fs' Hp].
  exists ignore, fs'. split; [exact Hi|]. split; [exact Hp|].
  apply (filter_after_prune 4 sibling_fs ["app"] ignore _ fs'
           ["app"; "node_modules"; "a"; "index.js"] ["app"; "node_modules"; "a"]
           5 Hi Hp).
  - injection Hp as <-. by eexists.
  - injection Hp as <-. split_and!.
    + by exists ["index.js"].
    + reflexivity.
    + intros q [k Hk] Hq.
      destruct q as [|x1 [|x2 [|x3 [|x4 [|x5 q]]]]]; simplify_eq/=;
        try done; by eexists.
  - right. apply installed_direct; [by apply (below_unscoped ["app"] "a")|].
    injection Hp as <-. by eexists.
  - simpl. lia.
Defined.

(** ** A file where pruning lists a directory *)

Lemma kept_prefix prod M q : kept prod M q → M `prefix_of` q.
Proof.
  induction 1 as [|q p Hq IH Hp Hin]; [done|].
  etrans; [done|]. by apply module_below_prefix.
Qed.

(** A kept module directory below another one is reached through a module
    directory that sits directly in the "node_modules" of that one. *)
Lemma kept_through prod n M q p :
  length p ≤ n + length M →
  kept prod M q → kept prod M p → q `prefix_of` p →
  p = q ∨ ∃ c, module_below q c ∧ c `prefix_of` p.
Proof.
  revert M. induction n as [|n IH]; intros M Hlen Hq Hp Hpre.
  - left. apply (anti_symm prefix); [|done].
    apply kept_prefix in Hq. apply kept_prefix in Hp as [k ->].
    rewrite length_app in Hlen. destruct k; [|simpl in Hlen; lia].
    by rewrite app_nil_r.
  - destruct (kept_inv _ _ _ Hp) as [_ [->|(c2 & Hc2 & Hc2p & Hkept2)]].
    { left. apply (anti_symm prefix); [|done]. by eapply kept_prefix. }
    destruct (kept_inv _ _ _ Hq) as [_ [->|(c1 & Hc1 & Hc1q & Hkept1)]].
    { right. by exists c2. }
    assert (c1 = c2) as ->.
    { apply (module_below_same_path M c1 c2 p); [done..| |done].
      by etrans. }
    apply (IH c2); [|done..].
    apply module_below_length in Hc2. lia.
Qed.

Lemma kept_node_modules prod M q : kept prod M q → ¬ kept prod M (q ++ ["node_modules"]).
Proof.
  intros Hq Hp.
  destruct (kept_through prod (length (q ++ ["node_modules"])) M q
              (q ++ ["node_modules"]) ltac:(lia) Hq Hp)
    as [Heq|(c & Hc & Hpre)].
  - by apply prefix_app_r.
  - apply (f_equal length) in Heq. rewrite length_app in Heq. simpl in Heq. lia.
  - apply module_below_length in Hc. apply prefix_length in Hpre.
    rewrite length_app in Hpre. simpl in Hpre. lia.
Qed.

Lemma kept_scope prod M q s :
  kept prod M q → scoped s = true → ¬ kept prod M ((q ++ ["node_modules"]) ++ [s]).
Proof.
  intros Hq Hs Hp.
  destruct (kept_through prod (length ((q ++ ["node_modules"]) ++ [s])) M q
              ((q ++ ["node_modules"]) ++ [s]) ltac:(lia) Hq Hp)
    as [Heq|(c & Hc & Hpre)].
  - rewrite <-app_assoc. by apply prefix_app_r.
  - apply (f_equal length) in Heq. rewrite !length_app in Heq. simpl in Heq. lia.
  - pose proof (prefix_length _ _ Hpre) as Hlen.
    rewrite !length_app in Hlen. simpl in Hlen.
    apply module_below_cases in Hc as [(e & He & ->)|(e & sub & _ & ->)].
    + apply prefix_app_inv in Hpre.
      destruct Hpre as [[|x k] Hk]; simplify_eq/=. congruence.
    + rewrite !length_app in Hlen. simpl in Hlen. lia.
Qed.

(** The "node_modules" of a kept module directory is not a module directory
    in the "node_modules" of another. *)
Lemma module_below_not_node_modules prod M q q' C :
  kept prod M q → kept prod M q' → module_below q' C →
  C ≠ q ++ ["node_modules"].
Proof.
  intros Hq Hq' HC HCeq.
  apply module_below_cases in HC as [(e & He & HC)|(e & sub & He & HC)];
    rewrite HC in HCeq.
  - apply app_inj_tail in HCeq as [<- ->].
    by apply (kept_node_modules prod M q').
  - change [e; sub] with ([e] ++ [sub]) in HCeq. rewrite app_assoc in HCeq.
    apply app_inj_tail in HCeq as [<- ->].
    by apply (kept_scope prod M q' e).
Qed.

(** Pruning deletes neither the "node_modules" of a kept module directory
    nor a scope entry of it. *)
Lemma listed_not_away prod M q d :
  kept prod M q →
  d = q ++ ["node_modules"]
  ∨ (∃ s, scoped s = true ∧ d = (q ++ ["node_modules"]) ++ [s]) →
  ¬ pruned_away prod M d.
Proof.
  intros Hq Hd (q' & C & Hq' & HC & HCnot & HCpre).
  assert (Hinside : ¬ C `prefix_of` q).
  { intros Hpre. apply HCnot.
    apply (kept_inside_not_away prod (length q) M q q' C []); [lia|done..| |].
    - by rewrite app_nil_r.
    - apply not_elem_of_nil. }
  pose proof (module_below_not_node_modules prod M q q' C Hq Hq' HC) as Hnm.
  destruct Hd as [->|(s & Hs & ->)].
  - by apply prefix_snoc_inv in HCpre as [?|?].
  - apply prefix_snoc_inv in HCpre as [HCeq|HCpre];
      [|by apply prefix_snoc_inv in HCpre as [?|?]].
    apply module_below_cases in HC as [(e & He & HC)|(e & sub & He & HC)];
      rewrite HC in HCeq.
    + apply app_inj_tail in HCeq as [_ ->]. congruence.
    + change [e; sub] with ([e] ++ [sub]) in HCeq. rewrite app_assoc in HCeq.
      apply app_inj_tail in HCeq as [HCeq _].
      by apply app_inj_tail in HCeq as [_ ->].
Qed.

(** X8: when the build returned a set and the "node_modules" of a kept
    module directory, or a scope entry of it, is a file, [prune] returns no
    tree, whatever the fuel, and with enough fuel it ends with an exception:
    lines 103 and 105 are asked to list a file, which pruning never
    deletes. *)
Theorem prune_raises_on_file_in_the_way (fuel : nat) (fs : node)
    (rootModule : path) (w : Walker) :
  loadProductionDependencies fuel fs rootModule = Some (Ok w) →
  file_in_the_way (prodPaths w) rootModule fs →
  (∀ fuel' r, pruneModule fuel' (prodPaths w) rootModule fs = Some r →
              ∃ e, r = Err e)
  ∧ (prune_fuel fs ≤ fuel → ∃ e, prune fuel fs rootModule = Some (Err e)).
Proof.
  intros Hbuild (q & d & c & Hq & Hd & Hfile).
  pose proof (proj1 (root_is_member_aux _ _ _ _ Hbuild)) as Hroot.
  assert (Hnot : ∀ fuel' r,
    pruneModule fuel' (prodPaths w) rootModule fs = Some r → ∃ e, r = Err e).
  { intros fuel' [fs'|e] Hrun; [exfalso|by exists e].
    assert (Hsame : stat fs' d = stat fs d).
    { apply (pruneModule_not_away _ _ _ _ _ _ Hroot Hrun).
      by apply (listed_not_away _ _ q). }
    pose proof (pruneModule_walkable _ _ _ _ _ Hrun q Hq) as [Hnm Hscope].
    assert (Hdir : dir_or_absent fs' d).
    { destruct Hd as [->|(s & Hs & ->)]; [done|by apply Hscope]. }
    unfold dir_or_absent in Hdir. rewrite Hsame, Hfile in Hdir.
    by destruct Hdir. }
  split; [done|]. intros Hfuel.
  unfold prune. rewrite Hbuild. unfold prune_fuel, build_fuel in Hfuel.
  destruct (pruneModule_total (prodPaths w) fs fuel rootModule fs)
    as (r & Hrun & _); [apply shrinks_refl|lia|lia|].
  rewrite Hrun. destruct (Hnot _ _ Hrun) as [e ->]. by exists e.
Qed.

Lemma prune_raises_on_file_in_the_way_witness :
  ∃ w e, loadProductionDependencies 40 scope_file_fs ["app"] = Some (Ok w)
    ∧ prune_fuel scope_file_fs ≤ 40
    ∧ prune 40 scope_file_fs ["app"] = Some (Err e).
Proof.
  assert (Hbuild : loadProductionDependencies 40 scope_file_fs ["app"]
    = Some (Ok {| prodPaths := [["app"]]; expanded := [(["app"], false)] |}))
    by (vm_compute; reflexivity).
  assert (Hfuel : prune_fuel scope_file_fs ≤ 40) by (vm_compute; lia).
  destruct (proj2 (prune_raises_on_file_in_the_way 40 scope_file_fs ["app"] _
                     Hbuild
                     (ex_intro _ ["app"] (ex_intro _ ["app"; "node_modules"; "@types"]
                        (ex_intro _ NotJson
                           (conj (kept_root _ _ (list_elem_of_here _ _))
                              (conj (or_intror (ex_intro _ "@types"
                                       (conj eq_refl eq_refl)))
                                    eq_refl))))))
              Hfuel) as [e He].
  eexists _, e. split; [exact Hbuild|]. split; [exact Hfuel|exact He].
Defined.
